(** * Virtual-mic soundboard: audio mixing engine and hotkey chord detector

    A shallow embedding of the two core classes of [src/soundboard.py]:
    [AudioPlayer] (sample loading and caching, the polyphonic mix callback,
    per-voice transport) and [HotkeyManager] (key normalisation, chord
    registration, edge-triggered matching, chord recording), followed by
    the properties of the specification that concern them.

    Two further parts are embedded for the properties at the end of the
    file: what [PipeWireManager] computes from the text [pactl] prints, and
    the part of [SoundButton] and [SoundboardWindow] that drives the engine
    and the detector.

    Conventions of the embedding.
    - Python [int] is [Z]; a frame count handed to [np.zeros] is a [nat].
    - [np.float32] arithmetic is kept abstract: the class [Float32] gives the
      operations the code uses and nothing else, so every structural theorem
      holds for any interpretation of them.  Laws are assumed only where a
      statement needs them, and then as explicit hypotheses.
    - A Python [dict] whose iteration order the code relies on
      ([active_sounds]) is an association list in insertion order; a [dict]
      used only through lookups ([_audio_cache]) is a [gmap]; a Python [set]
      of strings is a [gset string], iterated through [elements].
    - Every [with self.lock:] block is one atomic state transition; that
      a lock makes it one is shown on the two-thread model [Locking].
    - Qt signals are modelled as the list of events a handler emits.
    - Strings are 8-bit; [str.lower] acts on the ASCII letters. *)

From Stdlib Require Import ZArith Ascii String List Lia DecimalString.
From stdpp Require Import base option list gmap strings sorting relations.

Local Open Scope Z_scope.
#[local] Set Warnings "-clear-no-such-hyp".

(** ** Constants of [settings.py] *)

Definition SAMPLE_RATE : Z := 48000.
Definition CHANNELS : nat := 2.
Definition BLOCKSIZE : nat := 2048.

(** ** The float32 interface *)

Class Float32 (R : Type) := {
  f32_zero : R;                 (* 0.0 *)
  f32_one : R;                  (* 1.0 *)
  f32_two : R;                  (* 2.0 *)
  f32_add : R → R → R;
  f32_mul : R → R → R;
  f32_ltb : R → R → bool
}.

(** The few laws of exact arithmetic that statements about concrete sample
    values rely on. *)
Class Float32Laws (R : Type) `{Float32 R} := {
  f32_add_0_l : ∀ x : R, f32_add f32_zero x = x;
  f32_mul_1_r : ∀ x : R, f32_mul x f32_one = x;
  f32_mul_comm : ∀ x y : R, f32_mul x y = f32_mul y x
}.

(** Integer samples, used to run the definitions on concrete inputs. *)
#[export] Instance Z_Float32 : Float32 Z := {|
  f32_zero := 0; f32_one := 1; f32_two := 2;
  f32_add := Z.add; f32_mul := Z.mul; f32_ltb := Z.ltb
|}.

(** ** A fragment of numpy *)

Module Numpy.
Section Numpy.
Context {R : Type} `{Float32 R}.

(** A two-dimensional array of shape [(length rows, ncols)]. *)
Record ndarray2 := Arr2 { ncols : nat; rows : list (list R) }.

(** What [sf.read] returns: shape [(n,)] for a mono file, [(n, c)]
    otherwise. *)
Inductive ndarray :=
| Arr1D (xs : list R)
| Arr2D (a : ndarray2).

(** [np.column_stack([s, s])] for a 1-D [s]: shape [(n, 2)]. *)
Definition column_stack_1d (xs : list R) : ndarray2 :=
  Arr2 2 (map (λ x, [x; x]) xs).

(** [np.column_stack([s, s])] for a 2-D [s]: the columns of [s] twice. *)
Definition column_stack_2d (a : ndarray2) : ndarray2 :=
  Arr2 (ncols a + ncols a) (map (λ r, r ++ r) (rows a)).

(** [np.zeros((frames, CHANNELS))]. *)
Definition zeros (frames channels : nat) : list (list R) :=
  replicate frames (replicate channels f32_zero).

(** Python slice bounds: a negative index counts from the end, and both
    ends are clipped to [0, len]. *)
Definition slice_index (len : nat) (i : Z) : nat :=
  if i <? 0 then Z.to_nat (Z.max 0 (i + Z.of_nat len))
  else Z.to_nat (Z.min i (Z.of_nat len)).

(** [l[start:stop]]. *)
Definition slice {A} (l : list A) (start stop : Z) : list A :=
  let a := slice_index (length l) start in
  let b := slice_index (length l) stop in
  take (b - a)%nat (drop a l).

(** [a * v] for an array [a] and a scalar [v]. *)
Definition scale (rs : list (list R)) (v : R) : list (list R) :=
  map (map (λ s, f32_mul s v)) rs.

(** Broadcasting of a [(t', c)] operand to the shape [(t, w)]: each axis
    must agree or be 1; [None] stands for numpy's [ValueError]. *)
Definition broadcast_to (t w : nat) (c : nat) (rs : list (list R))
  : option (list (list R)) :=
  if bool_decide (c = w ∨ c = 1%nat)
     && bool_decide (length rs = t ∨ length rs = 1%nat)
  then
    let widen r :=
      if bool_decide (c = w) then r else replicate w (default f32_zero (head r)) in
    let rs' := map widen rs in
    Some (if bool_decide (length rs' = t) then rs'
          else replicate t (default [] (head rs')))
  else None.

(** [mixed[:n] += chunk], where [chunk] has [c] columns. *)
Definition iadd_prefix (mixed : list (list R)) (n : Z)
           (c : nat) (chunk : list (list R)) : option (list (list R)) :=
  let target := slice mixed 0 n in
  match broadcast_to (length target) CHANNELS c chunk with
  | Some chunk' =>
      Some (zip_with (zip_with f32_add) target chunk'
            ++ drop (length target) mixed)
  | None => None
  end.
End Numpy.
Arguments ndarray2 R : clear implicits.
Arguments ndarray R : clear implicits.
End Numpy.
Import Numpy.

(** ** The audio engine *)

Module AudioPlayer.
Section AudioPlayer.
Context {R : Type} `{Float32 R}.

(** The decoder [sf.read(file_path, dtype='float32')]: the samples and the
    file's rate, or [None] when it raises. *)
Variable sf_read : string → option (ndarray R * Z).

(** [samplerate.resample(samples, ratio, 'sinc_best')], given the source
    rate that determines [ratio]; [None] when it raises.  It is a library
    outside the repository and stays a parameter. *)
Variable resample : ndarray2 R → Z → option (ndarray2 R).

(** One entry of [active_sounds]. *)
Record Voice := mkVoice {
  samples : ndarray2 R;
  position : Z;
  volume : R;
  file_path : string;
  paused : bool
}.

Record t := mk {
  active_sounds : list (Z * Voice);
  sound_id_counter : Z;
  master_volume : R;
  is_playing : bool;
  _audio_cache : gmap string (ndarray2 R)
}.

(** [AudioPlayer.__init__]. *)
Definition init : t := mk [] 0 f32_one false ∅.

(** *** The insertion-ordered dictionary [active_sounds] *)

Fixpoint dict_get (d : list (Z * Voice)) (k : Z) : option Voice :=
  match d with
  | [] => None
  | (k', v) :: d' => if bool_decide (k' = k) then Some v else dict_get d' k
  end.

(** [d[k] = v]: an existing key keeps its place, a new one goes last. *)
Fixpoint dict_set (d : list (Z * Voice)) (k : Z) (v : Voice) : list (Z * Voice) :=
  match d with
  | [] => [(k, v)]
  | (k', v') :: d' =>
      if bool_decide (k' = k) then (k, v) :: d' else (k', v') :: dict_set d' k v
  end.

(** [del d[k]] for a key known to be present; absent keys are guarded by
    the callers. *)
Fixpoint dict_del (d : list (Z * Voice)) (k : Z) : list (Z * Voice) :=
  match d with
  | [] => []
  | (k', v') :: d' =>
      if bool_decide (k' = k) then d' else (k', v') :: dict_del d' k
  end.

Definition dict_mem (d : list (Z * Voice)) (k : Z) : bool :=
  bool_decide (is_Some (dict_get d k)).

Definition set_active (self : t) (d : list (Z * Voice)) : t :=
  mk d (sound_id_counter self) (master_volume self) (is_playing self)
     (_audio_cache self).
Definition set_is_playing (self : t) (b : bool) : t :=
  mk (active_sounds self) (sound_id_counter self) (master_volume self) b
     (_audio_cache self).
Definition set_cache (self : t) (c : gmap string (ndarray2 R)) : t :=
  mk (active_sounds self) (sound_id_counter self) (master_volume self)
     (is_playing self) c.

(** *** [load_audio] *)

(** The "Ensure stereo" step: a 1-D array and a one-column array are
    stacked with themselves; anything else passes through. *)
Definition ensure_stereo (s : ndarray R) : ndarray2 R :=
  match s with
  | Arr1D xs => column_stack_1d xs
  | Arr2D a => if bool_decide (ncols a = 1%nat) then column_stack_2d a else a
  end.

(** The body of the [try] block up to the cache write; [None] is any
    exception, which the [except] clause turns into [return None]. *)
Definition decode (file_path : string) : option (ndarray2 R) :=
  match sf_read file_path with
  | None => None
  | Some (s, source_rate) =>
      let s := ensure_stereo s in
      if bool_decide (source_rate ≠ SAMPLE_RATE) then
        if bool_decide (source_rate = 0) then None   (* ZeroDivisionError *)
        else resample s source_rate
      else Some s
  end.

Definition load_audio (self : t) (file_path : string)
  : t * option (ndarray2 R) :=
  match _audio_cache self !! file_path with
  | Some s => (self, Some s)
  | None =>
      match decode file_path with
      | Some s => (set_cache self (<[file_path := s]> (_audio_cache self)), Some s)
      | None => (self, None)
      end
  end.

Definition clear_cache (self : t) : t := set_cache self ∅.

(** *** [_audio_callback] *)

(** The result of the [for] loop over [active_sounds.items()]. *)
Inductive mixing :=
| Mixed (mixed : list (list R)) (finished_ids : list Z)
| Raised.

(** The loop body, voice by voice.  The voices are mutated in place, so the
    updated table is returned even when a later voice raises. *)
Fixpoint mix_loop (frames : nat) (master : R) (todo : list (Z * Voice))
         (mixed : list (list R)) (finished_ids : list Z)
  : list (Z * Voice) * mixing :=
  match todo with
  | [] => ([], Mixed mixed finished_ids)
  | (sound_id, sound_data) :: todo' =>
      if paused sound_data then
        let '(d, r) := mix_loop frames master todo' mixed finished_ids in
        ((sound_id, sound_data) :: d, r)
      else
        let smp := samples sound_data in
        let pos := position sound_data in
        let len := Z.of_nat (length (rows smp)) in
        let remaining := len - pos in
        let to_copy := Z.min (Z.of_nat frames) remaining in
        let step :=
          if 0 <? to_copy then
            let chunk :=
              scale (scale (slice (rows smp) pos (pos + to_copy))
                           (volume sound_data)) master in
            match iadd_prefix mixed to_copy (ncols smp) chunk with
            | Some mixed' =>
                Some (mixed',
                      mkVoice smp (pos + to_copy) (volume sound_data)
                              (file_path sound_data) (paused sound_data))
            | None => None
            end
          else Some (mixed, sound_data) in
        match step with
        | None => ((sound_id, sound_data) :: todo', Raised)
        | Some (mixed', sound_data') =>
            let finished_ids' :=
              if len <=? position sound_data'
              then finished_ids ++ [sound_id] else finished_ids in
            let '(d, r) := mix_loop frames master todo' mixed' finished_ids' in
            ((sound_id, sound_data') :: d, r)
        end
  end.

(** The callback: the new engine state and what was written to [outdata]
    ([None] when the callback raised before writing). *)
Definition _audio_callback (self : t) (frames : nat)
  : t * option (list (list R)) :=
  let mixed0 := zeros frames CHANNELS in
  match mix_loop frames (master_volume self) (active_sounds self) mixed0 [] with
  | (d, Raised) => (set_active self d, None)
  | (d, Mixed mixed finished_ids) =>
      let d' := foldl dict_del d finished_ids in
      (set_is_playing (set_active self d') (bool_decide (0 < length d')%nat),
       Some mixed)
  end.

(** *** Transport *)

Definition play_sound (self : t) (file_path : string) (volume : R)
           (overlap : bool) : t * option Z :=
  match load_audio self file_path with
  | (self, None) => (self, None)
  | (self, Some s) =>
      let d := if overlap then active_sounds self else [] in
      let sound_id := sound_id_counter self + 1 in
      (mk (dict_set d sound_id (mkVoice s 0 volume file_path false))
          sound_id (master_volume self) true (_audio_cache self),
       Some sound_id)
  end.

Definition toggle_pause_sound (self : t) (sound_id : Z) : t * bool :=
  match dict_get (active_sounds self) sound_id with
  | Some v =>
      let current := paused v in
      (set_active self
         (dict_set (active_sounds self) sound_id
            (mkVoice (samples v) (position v) (volume v) (file_path v)
                     (negb current))),
       negb current)
  | None => (self, false)
  end.

Definition stop_sound (self : t) (sound_id : Z) : t :=
  let d := if dict_mem (active_sounds self) sound_id
           then dict_del (active_sounds self) sound_id
           else active_sounds self in
  set_is_playing (set_active self d) (bool_decide (0 < length d)%nat).

Definition set_sound_volume (self : t) (sound_id : Z) (vol : R) : t :=
  match dict_get (active_sounds self) sound_id with
  | Some v =>
      set_active self
        (dict_set (active_sounds self) sound_id
           (mkVoice (samples v) (position v) vol (file_path v) (paused v)))
  | None => self
  end.

Definition stop_all (self : t) : t :=
  set_is_playing (set_active self []) false.

(** Python's two-argument [min] and [max]: the second argument wins only
    when it compares strictly. *)
Definition py_min (a b : R) : R := if f32_ltb b a then b else a.
Definition py_max (a b : R) : R := if f32_ltb a b then b else a.

Definition set_master_volume (self : t) (vol : R) : t :=
  mk (active_sounds self) (sound_id_counter self)
     (py_max f32_zero (py_min f32_two vol)) (is_playing self)
     (_audio_cache self).

(** The calls a controller or the output stream can make, and a run of
    them that collects the identifiers [play_sound] hands out. *)
Inductive op :=
| Play (file_path : string) (volume : R) (overlap : bool)
| TogglePause (sound_id : Z)
| Stop (sound_id : Z)
| SetVolume (sound_id : Z) (volume : R)
| StopAll
| SetMaster (volume : R)
| ClearCache
| Callback (frames : nat).

Definition step (self : t) (o : op) : t * option Z :=
  match o with
  | Play f v ov => play_sound self f v ov
  | TogglePause i => (fst (toggle_pause_sound self i), None)
  | Stop i => (stop_sound self i, None)
  | SetVolume i v => (set_sound_volume self i v, None)
  | StopAll => (stop_all self, None)
  | SetMaster v => (set_master_volume self v, None)
  | ClearCache => (clear_cache self, None)
  | Callback n => (fst (_audio_callback self n), None)
  end.

Fixpoint run (self : t) (ops : list op) : t * list Z :=
  match ops with
  | [] => (self, [])
  | o :: ops' =>
      let '(self', r) := step self o in
      let '(self'', ids) := run self' ops' in
      (self'', option_list r ++ ids)
  end.
End AudioPlayer.
Arguments Voice R : clear implicits.
Arguments op R : clear implicits.
Arguments t R : clear implicits.
End AudioPlayer.

(** ** Two threads and one lock *)

Module Locking.
Section Locking.
Context {S : Type}.

(** Where a thread stands with respect to its [with self.lock:] block: not
    yet inside, inside with the listed updates still to run, or past it. *)
Inductive phase :=
| Waiting
| Holding (todo : list (S → S))
| Finished.

Definition holding (p : phase) : Prop :=
  match p with Holding _ => True | _ => False end.

(** The shared object and the two threads that use it: the controller
    thread and the audio-stream thread. *)
Record world := World { shared : S; controller : phase; audio : phase }.

(** The updates of a block, in program order. *)
Definition run_block (block : list (S → S)) (s : S) : S :=
  foldl (λ s f, f s) s block.

(** The locked blocks of the two threads. *)
Variable block_c block_a : list (S → S).

(** One scheduling step.  A thread enters its block only while the other is
    not inside one (the lock is free), runs its updates one at a time, and
    leaves when none is left. *)
Inductive sched : world → world → Prop :=
| controller_acquire s pa :
    ¬ holding pa →
    sched (World s Waiting pa) (World s (Holding block_c) pa)
| controller_update s f todo pa :
    sched (World s (Holding (f :: todo)) pa) (World (f s) (Holding todo) pa)
| controller_release s pa :
    sched (World s (Holding []) pa) (World s Finished pa)
| audio_acquire s pc :
    ¬ holding pc →
    sched (World s pc Waiting) (World s pc (Holding block_a))
| audio_update s f todo pc :
    sched (World s pc (Holding (f :: todo))) (World (f s) pc (Holding todo))
| audio_release s pc :
    sched (World s pc (Holding [])) (World s pc Finished).

(** What any schedule maintains, relative to the state [s0] both threads
    started from. *)
Definition serial (s0 : S) (w : world) : Prop :=
  match controller w, audio w with
  | Waiting, Waiting => shared w = s0
  | Holding tc, Waiting =>
      ∃ d, block_c = d ++ tc ∧ shared w = run_block d s0
  | Finished, Waiting => shared w = run_block block_c s0
  | Waiting, Holding ta =>
      ∃ d, block_a = d ++ ta ∧ shared w = run_block d s0
  | Waiting, Finished => shared w = run_block block_a s0
  | Finished, Holding ta =>
      ∃ d, block_a = d ++ ta ∧ shared w = run_block d (run_block block_c s0)
  | Holding tc, Finished =>
      ∃ d, block_c = d ++ tc ∧ shared w = run_block d (run_block block_a s0)
  | Finished, Finished =>
      shared w = run_block block_a (run_block block_c s0) ∨
      shared w = run_block block_c (run_block block_a s0)
  | Holding _, Holding _ => False
  end.
End Locking.
Arguments phase S : clear implicits.
Arguments world S : clear implicits.
End Locking.

(** ** A fragment of Python's [str] *)

Module PyStr.
Definition code (c : ascii) : N := N_of_ascii c.

(** [c.lower()] on one character: the letters A-Z move to a-z. *)
Definition lower_char (c : ascii) : ascii :=
  if ((65 <=? code c) && (code c <=? 90))%N
  then ascii_of_N (code c + 32) else c.

(** [s.lower()]. *)
Fixpoint lower (s : string) : string :=
  match s with
  | EmptyString => EmptyString
  | String c s' => String (lower_char c) (lower s')
  end.

(** [c.isspace()]: tab, line feed, vertical tab, form feed, carriage
    return, the four separators 28-31, and the space. *)
Definition isspace (c : ascii) : bool :=
  (((9 <=? code c) && (code c <=? 13))
   || ((28 <=? code c) && (code c <=? 32)))%N.

Fixpoint lstrip (s : string) : string :=
  match s with
  | EmptyString => EmptyString
  | String c s' => if isspace c then lstrip s' else s
  end.

Fixpoint rstrip (s : string) : string :=
  match s with
  | EmptyString => EmptyString
  | String c s' =>
      match rstrip s' with
      | EmptyString => if isspace c then EmptyString else String c EmptyString
      | r => String c r
      end
  end.

(** [s.strip()]. *)
Definition strip (s : string) : string := rstrip (lstrip s).

(** [s.split(sep)] for a one-character separator: never an empty list. *)
Fixpoint split (sep : ascii) (s : string) : list string :=
  match s with
  | EmptyString => [EmptyString]
  | String c s' =>
      if bool_decide (c = sep) then EmptyString :: split sep s'
      else match split sep s' with
           | p :: ps => String c p :: ps
           | [] => [String c EmptyString]
           end
  end.

(** [sep.join(l)]. *)
Definition join (sep : string) (l : list string) : string :=
  String.concat sep l.

(** [s.startswith(p)]. *)
Definition startswith (s p : string) : bool := String.prefix p s.

(** [s.replace(old, new)] for a non-empty [old]: occurrences are replaced
    left to right without overlap; [skip] counts the characters of a
    match still to be dropped. *)
Fixpoint replace_go (old new : string) (skip : nat) (s : string) : string :=
  match s with
  | EmptyString => EmptyString
  | String c s' =>
      match skip with
      | S k => replace_go old new k s'
      | O =>
          if String.prefix old s
          then new +:+ replace_go old new (String.length old - 1) s'
          else String c (replace_go old new 0 s')
      end
  end.
Definition replace (s old new : string) : string := replace_go old new 0 s.

(** [sorted(l)] on strings, which Python compares by code point. *)
Definition sorted (l : list string) : list string := merge_sort String.le l.

(** [chr(n)] as a one-character string. *)
Definition chr (n : Z) : string := String (ascii_of_N (Z.to_N n)) EmptyString.

(** [str(n)] for an integer. *)
Definition str_int (n : Z) : string := DecimalString.NilZero.string_of_int (Z.to_int n).
End PyStr.

(** ** The hotkey chord detector *)

Module HotkeyManager.
Import PyStr.

(** What the pynput listener hands to the callbacks.  A [KeyCode] built by
    the listener has a character, or else a virtual-key code. *)
Inductive key :=
| Key (name : string)                        (* a member of keyboard.Key *)
| KeyCode_char (char : string) (vk : option Z) (* KeyCode, char not None *)
| KeyCode_vk (vk : Z)                        (* KeyCode, char None *)
| Other (str : string).                      (* any other object, by its str() *)

(** The signals [hotkey_triggered] and [recording_finished]. *)
Inductive event :=
| hotkey_triggered (hotkey : string)
| recording_finished (hotkey : string).

Record t := mk {
  hotkeys : gset string;
  current_keys : gset string;
  triggered_hotkeys : gset string;
  recording : bool;
  recorded_keys : list string
}.

(** [HotkeyManager.__init__]. *)
Definition init : t := mk ∅ ∅ ∅ false [].

Definition modifiers : list string := ["ctrl"; "alt"; "shift"; "cmd"; "win"].

(** The loop [for mod in [...]: if p.startswith(mod): ...] shared by both
    normalisations: the first modifier that prefixes [p], else [p]. *)
Definition standardize_modifier (p : string) : string :=
  default p (List.find (startswith p) modifiers).

Definition shift_map : list (string * string) :=
  [("!", "1"); ("@", "2"); ("#", "3"); ("$", "4"); ("%", "5");
   ("^", "6"); ("&", "7"); ("*", "8"); ("(", "9"); (")", "0");
   ("_", "-"); ("+", "="); ("{", "["); ("}", "]"); ("|", String (ascii_of_N 92) "");
   (":", ";"); (String (ascii_of_N 34) "", "'"); ("<", ","); (">", ".");
   ("?", "/")].

(** [shift_map.get(char, char)]. *)
Definition shift_map_get (char : string) : string :=
  default char (snd <$> List.find (λ kv, bool_decide (fst kv = char)) shift_map).

(** [str(key)] where the fallback branch needs it: a [KeyCode] whose
    character is the empty string prints as its [repr]. *)
Definition fallback_str (k : key) : string :=
  match k with
  | Key name => "Key." +:+ name
  | KeyCode_char _ _ => "''"
  | KeyCode_vk vk => "<" +:+ str_int vk +:+ ">"
  | Other s => s
  end.

Definition _normalize_key (k : key) : string :=
  match k with
  | Key name => standardize_modifier (lower name)
  | _ =>
      let char := match k with KeyCode_char c _ => Some c | _ => None end in
      let vk := match k with
                | KeyCode_char _ v => v | KeyCode_vk v => Some v | _ => None
                end in
      match char, vk with
      | Some (String a c), _ => shift_map_get (lower (String a c))
      | _, Some vk =>
          if bool_decide (48 ≤ vk ≤ 57) then chr vk
          else if bool_decide (65 ≤ vk ≤ 90) then chr (vk + 32)
          else "<" +:+ str_int vk +:+ ">"
      | _, None =>
          default "" (head (split "_" (replace (lower (fallback_str k)) "key." "")))
      end
  end.

Definition _normalize_hotkey_string (hotkey : string) : string :=
  let parts := split "+" (lower hotkey) in
  let normalized := map (λ p, standardize_modifier (strip p)) parts in
  join "+" (sorted normalized).

(** [set(hotkey.split('+'))]. *)
Definition hotkey_parts (hotkey : string) : gset string :=
  list_to_set (split "+" hotkey).

(** One iteration of the matching loop of [_on_press]. *)
Definition match_step (current : gset string)
           (acc : gset string * list event) (hotkey : string)
  : gset string * list event :=
  let '(triggered, emitted) := acc in
  if bool_decide (hotkey ∈ triggered) then acc
  else if bool_decide (hotkey_parts hotkey ⊆ current)
       then (triggered ∪ {[hotkey]}, emitted ++ [hotkey_triggered hotkey])
       else acc.

Definition _on_press (self : t) (k : key) : t * list event :=
  let key_str := _normalize_key k in
  let current :=
    if bool_decide (key_str ∉ current_keys self)
    then current_keys self ∪ {[key_str]} else current_keys self in
  if recording self then
    let recorded :=
      if bool_decide (key_str ∉ recorded_keys self)
      then recorded_keys self ++ [key_str] else recorded_keys self in
    (mk (hotkeys self) current (triggered_hotkeys self) true recorded, [])
  else
    let '(triggered, emitted) :=
      foldl (match_step current) (triggered_hotkeys self, [])
            (elements (hotkeys self)) in
    (mk (hotkeys self) current triggered false (recorded_keys self), emitted).

Definition _on_release (self : t) (k : key) : t * list event :=
  let key_str := _normalize_key k in
  let current :=
    if bool_decide (key_str ∈ current_keys self)
    then current_keys self ∖ {[key_str]} else current_keys self in
  let to_reset :=
    List.filter (λ hotkey, bool_decide (key_str ∈ split "+" hotkey))
                (elements (triggered_hotkeys self)) in
  let triggered := foldl (λ s h, s ∖ {[h]}) (triggered_hotkeys self) to_reset in
  if recording self && bool_decide (current = ∅) then
    (mk (hotkeys self) current triggered false [],
     [recording_finished (join "+" (recorded_keys self))])
  else
    (mk (hotkeys self) current triggered (recording self) (recorded_keys self), []).

Definition register (self : t) (hotkey : string) : t :=
  if bool_decide (hotkey = "") then self
  else mk (hotkeys self ∪ {[_normalize_hotkey_string hotkey]})
          (current_keys self) (triggered_hotkeys self)
          (recording self) (recorded_keys self).

Definition unregister (self : t) (hotkey : string) : t :=
  if bool_decide (hotkey = "") then self
  else mk (hotkeys self ∖ {[_normalize_hotkey_string hotkey]})
          (current_keys self) (triggered_hotkeys self)
          (recording self) (recorded_keys self).

Definition clear_all (self : t) : t :=
  mk ∅ (current_keys self) (triggered_hotkeys self)
     (recording self) (recorded_keys self).

Definition start_recording (self : t) : t :=
  mk (hotkeys self) ∅ (triggered_hotkeys self) true [].

(** The operations a caller or the listener can perform, and a run of
    them with the events it emits. *)
Inductive op :=
| OnPress (k : key)
| OnRelease (k : key)
| Register (hotkey : string)
| Unregister (hotkey : string)
| ClearAll
| StartRecording.

Definition step (self : t) (o : op) : t * list event :=
  match o with
  | OnPress k => _on_press self k
  | OnRelease k => _on_release self k
  | Register h => (register self h, [])
  | Unregister h => (unregister self h, [])
  | ClearAll => (clear_all self, [])
  | StartRecording => (start_recording self, [])
  end.

Fixpoint run (self : t) (ops : list op) : t * list event :=
  match ops with
  | [] => (self, [])
  | o :: ops' =>
      let '(self', e1) := step self o in
      let '(self'', e2) := run self' ops' in
      (self'', e1 ++ e2)
  end.

#[export] Instance event_eq_dec : EqDecision event.
Proof. solve_decision. Defined.
End HotkeyManager.

(** ** The device manager: [PipeWireManager]

    What the manager computes from the text [pactl] prints.  A call of
    [subprocess.run] is an input: the text it printed, or [None] when it
    raised; the commands the manager issues are returned as a log. *)

Module PipeWireManager.
Import PyStr.

(** [needle in s] on strings. *)
Fixpoint contains (needle s : string) : bool :=
  String.prefix needle s
  || match s with
     | EmptyString => false
     | String _ s' => contains needle s'
     end.

(** The line boundaries of [str.splitlines]: line feed, vertical tab, form
    feed, carriage return and the separators 28-30. *)
Definition linebreak (c : ascii) : bool :=
  (((10 <=? code c) && (code c <=? 13))
   || ((28 <=? code c) && (code c <=? 30)))%N.

(** [s.splitlines()]: a carriage return followed by a line feed is one
    boundary, and a boundary at the very end opens no further line. *)
Fixpoint splitlines (s : string) : list string :=
  match s with
  | EmptyString => []
  | String c s' =>
      if linebreak c then
        match s' with
        | String d s'' =>
            if bool_decide (code c = 13%N) && bool_decide (code d = 10%N)
            then EmptyString :: splitlines s''
            else EmptyString :: splitlines s'
        | EmptyString => [EmptyString]
        end
      else match splitlines s' with
           | l :: ls => String c l :: ls
           | [] => [String c EmptyString]
           end
  end.

(** The pieces between single white-space characters. *)
Fixpoint fields (s : string) : list string :=
  match s with
  | EmptyString => [EmptyString]
  | String c s' =>
      if isspace c then EmptyString :: fields s'
      else match fields s' with
           | p :: ps => String c p :: ps
           | [] => [String c EmptyString]
           end
  end.

(** [s.split()]: runs of white space separate, and no piece is empty. *)
Definition split_ws (s : string) : list string :=
  List.filter (λ p, negb (bool_decide (p = EmptyString))) (fields s).

Record t := mk {
  sink_name : string;
  module_id : option string;
  null_sink_id : option string
}.

(** A [pactl] command that changes the audio graph. *)
Inductive command :=
| set_source_mute (source_name action : string)
| move_source_output (output_id target_source : string).

Definition get_sink_monitor_name (self : t) : string :=
  sink_name self +:+ ".monitor".

(** [get_real_mic_sources], given what [pactl list sources short] printed. *)
Definition get_real_mic_sources (self : t) (listed : option string)
  : list string :=
  match listed with
  | None => []
  | Some stdout =>
      foldl (λ sources line,
               match split_ws line with
               | _ :: name :: _ =>
                   if negb (contains ".monitor" name)
                      && negb (contains (sink_name self) name)
                   then sources ++ [name] else sources
               | _ => sources
               end)
            [] (splitlines stdout)
  end.

(** [mute_source] and [mute_all_real_mics]. *)
Definition mute_source (source_name : string) (mute : bool) : command :=
  set_source_mute source_name (if mute then "1" else "0").

Definition mute_all_real_mics (self : t) (listed : option string) (mute : bool)
  : list command :=
  map (λ source, mute_source source mute) (get_real_mic_sources self listed).

(** [get_default_source], given the return code and the text of
    [pactl get-default-source]. *)
Definition get_default_source (answer : option (Z * string)) : option string :=
  match answer with
  | Some (returncode, stdout) =>
      if bool_decide (returncode = 0) then Some (strip stdout) else None
  | None => None
  end.

(** The microphone [reset_app_routing] moves a stream back to. *)
Definition target_source (self : t) (listed : option string)
           (answer : option (Z * string)) : option string :=
  let real_mics := get_real_mic_sources self listed in
  match real_mics with
  | first :: _ =>
      match get_default_source answer with
      | Some default_source =>
          if negb (bool_decide (default_source = ""))
             && bool_decide (default_source ∈ real_mics)
          then Some default_source else Some first
      | None => Some first
      end
  | [] => get_default_source answer
  end.

(** [reset_app_routing]: the command issued, if any, and the result, given
    the return code of the move ([None] when it raised). *)
Definition reset_app_routing (self : t) (listed : option string)
           (answer : option (Z * string)) (moved : option Z)
           (output_id : string) : list command * bool :=
  match target_source self listed answer with
  | Some target =>
      if bool_decide (target = "") then ([], false)
      else ([move_source_output output_id target],
            match moved with
            | Some returncode => bool_decide (returncode = 0)
            | None => false
            end)
  | None => ([], false)
  end.

End PipeWireManager.

(** ** The controller: [SoundButton] and [SoundboardWindow]

    The part of the window that drives the engine and the detector.  A
    button is its [SoundEntry]; the window's button list is a list of
    entries and a button is named by its index in it.  Widget texts, styles
    and the status bar are not modelled, nor is [save_config]; a call to the
    device manager's [mute_all_real_mics] is logged as an effect. *)

Module Window.
Section Window.
Context {R : Type} `{Float32 R}.
Variable sf_read : string → option (ndarray R * Z).
Variable resample : ndarray2 R → Z → option (ndarray2 R).

(** [SoundEntry] of [settings.py]. *)
Record SoundEntry := mkSound {
  file_path : string;
  name : string;
  hotkey : string;
  volume : R;
  sound_id : option Z;
  is_paused : bool
}.

(** A call of [self.pw_manager.mute_all_real_mics(mute)]. *)
Inductive effect := mute_all_real_mics (mute : bool).

Record t := mk {
  overlap_audio : bool;              (* self.config.overlap_audio *)
  mute_mic_while_playing : bool;     (* self.config.mute_mic_while_playing *)
  mic_muted : bool;
  sound_buttons : list SoundEntry;
  recording_button : option nat;
  audio_player : AudioPlayer.t R;
  hotkey_manager : HotkeyManager.t
}.

Definition set_buttons (self : t) (bs : list SoundEntry) : t :=
  mk (overlap_audio self) (mute_mic_while_playing self) (mic_muted self) bs
     (recording_button self) (audio_player self) (hotkey_manager self).
Definition set_player (self : t) (p : AudioPlayer.t R) : t :=
  mk (overlap_audio self) (mute_mic_while_playing self) (mic_muted self)
     (sound_buttons self) (recording_button self) p (hotkey_manager self).
Definition set_manager (self : t) (m : HotkeyManager.t) : t :=
  mk (overlap_audio self) (mute_mic_while_playing self) (mic_muted self)
     (sound_buttons self) (recording_button self) (audio_player self) m.
Definition set_mic_muted (self : t) (b : bool) : t :=
  mk (overlap_audio self) (mute_mic_while_playing self) b
     (sound_buttons self) (recording_button self) (audio_player self)
     (hotkey_manager self).
Definition set_recording_button (self : t) (b : option nat) : t :=
  mk (overlap_audio self) (mute_mic_while_playing self) (mic_muted self)
     (sound_buttons self) b (audio_player self) (hotkey_manager self).

(** [SoundButton.set_playing(sound_id, playing)]. *)
Definition set_playing (b : SoundEntry) (id : option Z) (playing : bool)
  : SoundEntry :=
  if playing
  then mkSound (file_path b) (name b) (hotkey b) (volume b) id false
  else mkSound (file_path b) (name b) (hotkey b) (volume b) None false.

Definition with_hotkey (b : SoundEntry) (h : string) : SoundEntry :=
  mkSound (file_path b) (name b) h (volume b) (sound_id b) (is_paused b).

(** [SoundboardWindow.play_sound(button)]. *)
Definition play_sound (self : t) (i : nat) : t * list effect :=
  match sound_buttons self !! i with
  | None => (self, [])
  | Some b =>
      let '(self, eff) :=
        if mute_mic_while_playing self && negb (mic_muted self)
        then (set_mic_muted self true, [mute_all_real_mics true])
        else (self, []) in
      let '(player, r) :=
        AudioPlayer.play_sound sf_read resample (audio_player self)
          (file_path b) (volume b) (overlap_audio self) in
      let self := set_player self player in
      match r with
      | Some id =>
          if bool_decide (id ≠ 0)        (* if sound_id: *)
          then (set_buttons self
                  (<[i := set_playing b (Some id) true]> (sound_buttons self)), eff)
          else (self, eff)
      | None => (self, eff)
      end
  end.

(** [SoundboardWindow.stop_sound(button)]. *)
Definition stop_sound (self : t) (i : nat) : t :=
  match sound_buttons self !! i with
  | Some b =>
      match sound_id b with
      | Some id =>
          set_buttons
            (set_player self (AudioPlayer.stop_sound (audio_player self) id))
            (<[i := set_playing b None false]> (sound_buttons self))
      | None => self
      end
  | None => self
  end.

(** [SoundboardWindow.stop_all_sounds]. *)
Definition stop_all_sounds (self : t) : t * list effect :=
  let self := set_player self (AudioPlayer.stop_all (audio_player self)) in
  let self := set_buttons self
                ((λ b, set_playing b None false) <$> sound_buttons self) in
  if mic_muted self
  then (set_mic_muted self false, [mute_all_real_mics false])
  else (self, []).

(** [SoundboardWindow.update_status], run by the status timer. *)
Definition update_status (self : t) : t * list effect :=
  let active_ids := (AudioPlayer.active_sounds (audio_player self)).*1 in
  let self :=
    set_buttons self
      ((λ b, match sound_id b with
             | Some id =>
                 if bool_decide (id ∉ active_ids) then set_playing b None false
                 else b
             | None => b
             end) <$> sound_buttons self) in
  if AudioPlayer.is_playing (audio_player self) then
    if mic_muted self && negb (AudioPlayer.is_playing (audio_player self))
    then (set_mic_muted self false, [mute_all_real_mics false])
    else (self, [])
  else
    if mic_muted self
    then (set_mic_muted self false, [mute_all_real_mics false])
    else (self, []).

(** [SoundboardWindow.setup_hotkeys]. *)
Definition setup_hotkeys (self : t) : t :=
  set_manager self
    (foldl (λ m b, if bool_decide (hotkey b ≠ "")
                   then HotkeyManager.register m (hotkey b) else m)
           (HotkeyManager.clear_all (hotkey_manager self))
           (sound_buttons self)).

(** [SoundboardWindow.on_hotkey_changed(old_hotkey, new_hotkey)]. *)
Definition on_hotkey_changed (self : t) (old_hotkey new_hotkey : string) : t :=
  let m := hotkey_manager self in
  let m := if bool_decide (old_hotkey ≠ "")
           then HotkeyManager.unregister m old_hotkey else m in
  let m := if bool_decide (new_hotkey ≠ "")
           then HotkeyManager.register m new_hotkey else m in
  set_manager self m.

(** The loop of [on_hotkey_triggered] over the buttons still to visit. *)
Fixpoint trigger_loop (self : t) (normalized_trigger : string) (todo : list nat)
  : t * list effect :=
  match todo with
  | [] => (self, [])
  | i :: todo' =>
      match sound_buttons self !! i with
      | Some b =>
          if bool_decide (hotkey b ≠ "")
             && bool_decide (HotkeyManager._normalize_hotkey_string (hotkey b)
                             = normalized_trigger)
          then
            let '(self, e1) := play_sound self i in
            if negb (overlap_audio self) then (self, e1)          (* break *)
            else let '(self, e2) := trigger_loop self normalized_trigger todo' in
                 (self, e1 ++ e2)
          else trigger_loop self normalized_trigger todo'
      | None => trigger_loop self normalized_trigger todo'
      end
  end.

(** [SoundboardWindow.on_hotkey_triggered(hotkey)]. *)
Definition on_hotkey_triggered (self : t) (hotkey : string) : t * list effect :=
  trigger_loop self (HotkeyManager._normalize_hotkey_string hotkey)
               (seq 0 (length (sound_buttons self))).

(** [SoundButton.set_hotkey] and [clear_hotkey]: the button takes the new
    string and its [hotkey_changed] signal runs [on_hotkey_changed]. *)
Definition set_hotkey (self : t) (i : nat) (h : string) : t :=
  match sound_buttons self !! i with
  | Some b =>
      on_hotkey_changed
        (set_buttons self (<[i := with_hotkey b h]> (sound_buttons self)))
        (hotkey b) h
  | None => self
  end.
Definition clear_hotkey (self : t) (i : nat) : t := set_hotkey self i "".

(** [SoundboardWindow.start_hotkey_recording(button)]. *)
Definition start_hotkey_recording (self : t) (i : nat) : t :=
  set_manager (set_recording_button self (Some i))
              (HotkeyManager.start_recording (hotkey_manager self)).

(** [SoundboardWindow.finish_hotkey_recording(hotkey)]. *)
Definition finish_hotkey_recording (self : t) (h : string) : t :=
  match recording_button self with
  | Some rec =>
      let self :=
        foldl (λ w i,
                 match sound_buttons w !! i with
                 | Some b =>
                     if bool_decide (i ≠ rec) && bool_decide (hotkey b = h)
                     then clear_hotkey w i else w
                 | None => w
                 end)
              self (seq 0 (length (sound_buttons self))) in
      set_recording_button (set_hotkey self rec h) None
  | None => self
  end.

(** [SoundButton.on_play_clicked]: stop when the button holds a handle,
    else the [play_requested] signal runs [play_sound]. *)
Definition on_play_clicked (self : t) (i : nat) : t * list effect :=
  match sound_buttons self !! i with
  | Some b =>
      match sound_id b with
      | Some _ => (stop_sound self i, [])
      | None => play_sound self i
      end
  | None => (self, [])
  end.

(** [SoundButton.on_pause_clicked]. *)
Definition on_pause_clicked (self : t) (i : nat) : t :=
  match sound_buttons self !! i with
  | Some b =>
      match sound_id b with
      | Some id =>
          let '(player, paused) :=
            AudioPlayer.toggle_pause_sound (audio_player self) id in
          set_buttons (set_player self player)
            (<[i := mkSound (file_path b) (name b) (hotkey b) (volume b)
                            (sound_id b) paused]> (sound_buttons self))
      | None => self
      end
  | None => self
  end.

(** [SoundButton.on_volume_changed(value)], with [volume] for
    [value / 100.0]. *)
Definition on_volume_changed (self : t) (i : nat) (volume : R) : t :=
  match sound_buttons self !! i with
  | Some b =>
      let self :=
        set_buttons self
          (<[i := mkSound (file_path b) (name b) (hotkey b) volume
                          (sound_id b) (is_paused b)]> (sound_buttons self)) in
      match sound_id b with
      | Some id =>
          set_player self
            (AudioPlayer.set_sound_volume (audio_player self) id volume)
      | None => self
      end
  | None => self
  end.

(** [SoundboardWindow.on_master_volume_changed(value)], with [volume] for
    [value / 100.0]. *)
Definition on_master_volume_changed (self : t) (volume : R) : t :=
  set_player self (AudioPlayer.set_master_volume (audio_player self) volume).

(** [SoundboardWindow.closeEvent] up to the exit of the process, when none
    of its clean-up steps raises: playback is stopped and muted microphones
    are restored. *)
Definition closeEvent (self : t) : t * list effect :=
  let self := set_player self (AudioPlayer.stop_all (audio_player self)) in
  (self, if mic_muted self then [mute_all_real_mics false] else []).

(** [SoundboardWindow.add_sound_button(sound)]. *)
Definition add_sound_button (self : t) (sound : SoundEntry) : t :=
  set_buttons self (sound_buttons self ++ [sound]).

(** [on_overlap_changed] and [on_mute_mic_changed]. *)
Definition on_overlap_changed (self : t) (checked : bool) : t :=
  mk checked (mute_mic_while_playing self) (mic_muted self)
     (sound_buttons self) (recording_button self) (audio_player self)
     (hotkey_manager self).
Definition on_mute_mic_changed (self : t) (checked : bool) : t :=
  mk (overlap_audio self) checked (mic_muted self)
     (sound_buttons self) (recording_button self) (audio_player self)
     (hotkey_manager self).

(** What can happen to a running window: the user's clicks on the buttons
    that exist and on the menu, the sliders, a file added, the slots of the
    detector's two signals (with whatever chord string they carry), the
    status timer, and the two other threads, the key listener and the audio callback, which touch only the
    detector and the engine.  Buttons are added at the end and none is
    removed, so a position names the same button throughout a run. *)
Inductive op :=
| PlayClicked (i : nat)
| PauseClicked (i : nat)
| ClearHotkeyClicked (i : nat)
| RecordHotkeyClicked (i : nat)
| AddSoundFile (file_path name : string)
| StopAllClicked
| OverlapToggled (checked : bool)
| MuteMicToggled (checked : bool)
| HotkeyTriggered (hotkey : string)
| RecordingFinished (hotkey : string)
| StatusTimer
| KeyPressed (k : HotkeyManager.key)
| KeyReleased (k : HotkeyManager.key)
| AudioCallback (frames : nat)
| VolumeChanged (i : nat) (volume : R)
| MasterVolumeChanged (volume : R)
| ClearCacheClicked.

Definition step (self : t) (o : op) : t * list effect :=
  match o with
  | PlayClicked i => on_play_clicked self i
  | PauseClicked i => (on_pause_clicked self i, [])
  | ClearHotkeyClicked i => (clear_hotkey self i, [])
  | RecordHotkeyClicked i =>
      (if bool_decide (i < length (sound_buttons self))%nat
       then start_hotkey_recording self i else self, [])
  | AddSoundFile f n =>
      (add_sound_button self (mkSound f n "" f32_one None false), [])
  | StopAllClicked => stop_all_sounds self
  | OverlapToggled c => (on_overlap_changed self c, [])
  | MuteMicToggled c => (on_mute_mic_changed self c, [])
  | HotkeyTriggered h => on_hotkey_triggered self h
  | RecordingFinished h => (finish_hotkey_recording self h, [])
  | StatusTimer => update_status self
  | KeyPressed k =>
      (set_manager self (HotkeyManager._on_press (hotkey_manager self) k).1, [])
  | KeyReleased k =>
      (set_manager self (HotkeyManager._on_release (hotkey_manager self) k).1, [])
  | AudioCallback n =>
      (set_player self (AudioPlayer._audio_callback (audio_player self) n).1, [])
  | VolumeChanged i v => (on_volume_changed self i v, [])
  | MasterVolumeChanged v => (on_master_volume_changed self v, [])
  | ClearCacheClicked =>
      (set_player self (AudioPlayer.clear_cache (audio_player self)), [])
  end.

Fixpoint run (self : t) (ops : list op) : t * list effect :=
  match ops with
  | [] => (self, [])
  | o :: ops' =>
      let '(self', e1) := step self o in
      let '(self'', e2) := run self' ops' in
      (self'', e1 ++ e2)
  end.

(** [SoundboardWindow.__init__] for a configuration with the given options
    and sounds (those whose files exist): a fresh engine and detector, the
    buttons of [load_sounds], the chords of [setup_hotkeys].  [master] is
    the configured master volume when [setup_audio] gets as far as setting
    it, and [None] when it returns early. *)
Definition init (overlap mute : bool) (master : option R)
           (sounds : list SoundEntry) : t :=
  setup_hotkeys
    (foldl add_sound_button
           (mk overlap mute false [] None
               (match master with
                | Some volume =>
                    AudioPlayer.set_master_volume AudioPlayer.init volume
                | None => AudioPlayer.init
                end)
               HotkeyManager.init)
           sounds).
End Window.
Arguments SoundEntry R : clear implicits.
Arguments t R : clear implicits.
Arguments op R : clear implicits.
End Window.

(** * Notions used by the statements *)

(** ** Sample files to run the engine on *)

(** A decoder to run the engine on: four files of known contents, all at
    the engine rate, and a resampler that is never reached. *)
Definition demo_read (path : string) : option (ndarray Z * Z) :=
  if bool_decide (path = "mono.wav") then Some (Arr1D [10; 20; 30], 48000)
  else if bool_decide (path = "stereo.wav")
       then Some (Arr2D (Arr2 2 [[1; 2]; [3; 4]]), 48000)
  else if bool_decide (path = "empty.wav") then Some (Arr1D [], 48000)
  else if bool_decide (path = "surround.wav")
       then Some (Arr2D (Arr2 3 [[1; 2; 3]; [4; 5; 6]]), 48000)
  else None.

Definition demo_resample (a : ndarray2 Z) (source_rate : Z)
  : option (ndarray2 Z) := Some a.

Definition demo_run := AudioPlayer.run demo_read demo_resample AudioPlayer.init.

(** ** The mix the specification describes *)

Section MixerNotions.
Context {R : Type} `{Float32 R}.
Import AudioPlayer.

(** [len(samples)] of a voice. *)
Definition voice_len (v : Voice R) : Z := Z.of_nat (length (rows (samples v))).

(** The data model's shape of a voice: a two-column buffer and a cursor
    inside it. *)
Definition stereo_voice (v : Voice R) : Prop :=
  ncols (samples v) = CHANNELS ∧ 0 ≤ position v ≤ voice_len v.

(** [min(frames_requested, frames_remaining_in_voice)]. *)
Definition copied (frames : nat) (v : Voice R) : nat :=
  Z.to_nat (Z.min (Z.of_nat frames) (voice_len v - position v)).

(** The rows a voice contributes to a block: [copied] rows from its cursor,
    each sample scaled by the voice gain and then by the master gain. *)
Definition contribution (frames : nat) (master : R) (v : Voice R)
  : list (list R) :=
  map (map (λ s, f32_mul (f32_mul s (volume v)) master))
      (take (copied frames v) (drop (Z.to_nat (position v)) (rows (samples v)))).

(** Adding a chunk onto the head of a block, sample by sample. *)
Definition accumulate (mixed chunk : list (list R)) : list (list R) :=
  zip_with (zip_with f32_add) (take (length chunk) mixed) chunk
  ++ drop (length chunk) mixed.

(** The block the specification describes: silence, plus the contribution
    of every voice that is not paused, in table order. *)
Definition mix_of (frames : nat) (master : R) (d : list (Z * Voice R))
  : list (list R) :=
  foldl (λ mixed kv,
           if paused kv.2 then mixed
           else accumulate mixed (contribution frames master kv.2))
        (zeros frames CHANNELS) d.

(** A voice after one block: a paused voice is untouched, any other has its
    cursor moved by the copied length. *)
Definition advance (frames : nat) (v : Voice R) : Voice R :=
  if paused v then v
  else mkVoice (samples v) (position v + Z.of_nat (copied frames v))
               (volume v) (file_path v) (paused v).

(** A voice the callback drops: not paused, cursor at the end. *)
Definition finished (v : Voice R) : bool :=
  negb (paused v) && (voice_len v <=? position v).

Definition table_after (frames : nat) (d : list (Z * Voice R))
  : list (Z * Voice R) :=
  List.filter (λ kv, negb (finished kv.2))
              (map (λ kv, (kv.1, advance frames kv.2)) d).
End MixerNotions.

(** ** The locked blocks of the two threads *)

Section PlayBlock.
Context {R : Type} `{Float32 R}.
Import AudioPlayer.

(** The statements inside the lock of [play_sound], one update each. *)
Definition play_block (s : ndarray2 R) (volume : R) (file_path : string)
           (overlap : bool) : list (t R → t R) :=
  [ (* if not overlap: self.active_sounds.clear() *)
    (λ self, if overlap then self else set_active self []);
    (* self.sound_id_counter += 1 *)
    (λ self, mk (active_sounds self) (sound_id_counter self + 1)
                (master_volume self) (is_playing self) (_audio_cache self));
    (* sound_id = self.sound_id_counter; self.active_sounds[sound_id] = {...} *)
    (λ self, set_active self
               (dict_set (active_sounds self) (sound_id_counter self)
                         (mkVoice s 0 volume file_path false)));
    (* self.is_playing = True *)
    (λ self, set_is_playing self true) ].

(** The locked region of [_audio_callback]. *)
Definition callback_block (frames : nat) : list (t R → t R) :=
  [ λ self, (_audio_callback self frames).1 ].
End PlayBlock.

Section EngineNotions.
Context {R : Type} `{Float32 R}.
Import AudioPlayer.

(** Distinct identifiers, none beyond the counter, every cursor inside its
    buffer. *)
Definition table_ok (self : t R) : Prop :=
  NoDup (active_sounds self).*1 ∧
  Forall (λ kv, kv.1 ≤ sound_id_counter self ∧
                0 ≤ position kv.2 ≤ voice_len kv.2) (active_sounds self).
End EngineNotions.

(** ** Chords, latches and emitted events *)

Section ChordNotions.
Import PyStr HotkeyManager.

(** Every latched chord has all of its tokens among the pressed keys. *)
Definition latched_held (s : t) : Prop :=
  ∀ h, h ∈ triggered_hotkeys s → hotkey_parts h ⊆ current_keys s.

(** How often the trigger event of chord [h] occurs among emitted events. *)
Definition fires (h : string) (evs : list event) : nat :=
  length (filter (λ e, e = hotkey_triggered h) evs).

(** A press or a release, as opposed to a call from the controller. *)
Definition key_event (o : op) : Prop :=
  match o with OnPress _ | OnRelease _ => True | _ => False end.

(** A key event that releases one of the tokens of chord [h]. *)
Definition releases_part (h : string) (o : op) : Prop :=
  match o with
  | OnRelease k => _normalize_key k ∈ split "+" h
  | _ => False
  end.

(** A key event about a key outside chord [h]. *)
Definition outside (h : string) (o : op) : Prop :=
  match o with
  | OnPress k | OnRelease k => _normalize_key k ∉ split "+" h
  | _ => False
  end.

(** The chords a press fires: registered, not latched, all tokens held. *)
Definition firing (current triggered : gset string) (l : list string)
  : list string :=
  filter (λ h, (h ∉ triggered) ∧ (hotkey_parts h ⊆ current)) l.

(** The pressed-key set after a key event: a press adds the key's token, a
    release removes it. *)
Definition pressed_after (pressed : gset string) (o : op) : gset string :=
  match o with
  | OnPress k => pressed ∪ {[_normalize_key k]}
  | OnRelease k => pressed ∖ {[_normalize_key k]}
  | _ => pressed
  end.

(** A press that makes the token set of chord [h] a subset of the pressed
    keys when it was not one before. *)
Definition completes (h : string) (pressed : gset string) (o : op) : bool :=
  match o with
  | OnPress k =>
      bool_decide (¬ hotkey_parts h ⊆ pressed)
      && bool_decide (hotkey_parts h ⊆ pressed ∪ {[_normalize_key k]})
  | _ => false
  end.

(** How often a sequence of key events completes chord [h], starting from
    the given pressed keys. *)
Fixpoint completions (h : string) (pressed : gset string) (evs : list op)
  : nat :=
  match evs with
  | [] => 0
  | o :: evs' =>
      ((if completes h pressed o then 1 else 0)
       + completions h (pressed_after pressed o) evs')%nat
  end.

(** The latch of chord [h] agrees with the pressed keys: the chord is
    latched exactly when all of its tokens are pressed. *)
Definition latch_agrees (h : string) (s : t) : Prop :=
  h ∈ triggered_hotkeys s ↔ hotkey_parts h ⊆ current_keys s.
End ChordNotions.

(** ** Normal forms of chord strings *)

Section NormalNotions.
Import PyStr HotkeyManager.

(** Every character of a string satisfies [Q]. *)
Fixpoint all_chars (Q : ascii → Prop) (s : string) : Prop :=
  match s with
  | EmptyString => True
  | String a s' => Q a ∧ all_chars Q s'
  end.

(** A character that may occur in a normalised token: not the delimiter
    and not an upper-case letter. *)
Definition token_char (a : ascii) : Prop := a ≠ "+"%char ∧ lower_char a = a.

(** The per-token step of [_normalize_hotkey_string]. *)
Definition normalize_part (p : string) : string := standardize_modifier (strip p).

(** A string that does not begin with white space. *)
Definition no_leading_space (s : string) : Prop :=
  match s with EmptyString => True | String a _ => isspace a = false end.
End NormalNotions.

(** ** Notions of the further properties *)

Section PlaybackNotions.
Context {R : Type} `{Float32 R}.
Import AudioPlayer.

(** [k] consecutive mix callbacks of [frames] frames each. *)
Definition callbacks (frames : nat) (k : nat) (self : t R) : t R :=
  Nat.iter k (λ s, (_audio_callback s frames).1) self.

(** A voice with its cursor moved to [pos]. *)
Definition at_position (v : Voice R) (pos : Z) : Voice R :=
  mkVoice (samples v) pos (volume v) (file_path v) (paused v).

(** Every row of a voice's buffer has one sample per channel. *)
Definition rows_stereo (v : Voice R) : Prop :=
  Forall (λ r, length r = CHANNELS) (rows (samples v)).
End PlaybackNotions.

Section TokenNotions.
Import PyStr HotkeyManager.

(** A token that [_normalize_hotkey_string] leaves alone: no delimiter, no
    upper case, no surrounding white space, modifier names already
    collapsed. *)
Definition clean_token (t : string) : Prop :=
  all_chars token_char t ∧ normalize_part t = t.
End TokenNotions.

(** What [pactl list sources short] prints on a machine with one
    microphone and the virtual sink loaded: tab-separated fields, one
    source per line. *)
Definition demo_sources : string :=
  let tab := String (ascii_of_N 9) EmptyString in
  let newline := String (ascii_of_N 10) EmptyString in
  PyStr.join newline
    [PyStr.join tab ["52"; "alsa_input.usb-mic"; "PipeWire s16le 2ch RUNNING"];
     PyStr.join tab ["53"; "alsa_output.pci.monitor"; "PipeWire s32le 2ch IDLE"];
     PyStr.join tab ["77"; "soundboard_virtual_mic.monitor"; "PipeWire IDLE"];
     EmptyString].

Definition demo_manager : PipeWireManager.t :=
  PipeWireManager.mk "soundboard_virtual_mic" None None.

(** A window to run the controller on: two buttons that name the same chord
    in two spellings and one whose file does not decode. *)
Definition demo_sounds : list (Window.SoundEntry Z) :=
  [Window.mkSound "mono.wav" "mono" "ctrl+a" 1 None false;
   Window.mkSound "stereo.wav" "stereo" "a+ctrl" 1 None false;
   Window.mkSound "missing.wav" "missing" "" 1 None false].

Definition demo_window : Window.t Z :=
  Window.init true true (Some 1) demo_sounds.

Section WindowNotions.
Context {R : Type} `{Float32 R}.
Import Window.
Variable sf_read : string → option (ndarray R * Z).
Variable resample : ndarray2 R → Z → option (ndarray2 R).

(** The chord a button's hotkey string names. *)
Definition chord_of (b : SoundEntry R) : string :=
  HotkeyManager._normalize_hotkey_string (hotkey b).

(** The test [on_hotkey_triggered] applies to a button. *)
Definition answers (trigger : string) (b : SoundEntry R) : bool :=
  bool_decide (hotkey b ≠ "")
  && bool_decide (chord_of b = HotkeyManager._normalize_hotkey_string trigger).

(** The buttons that answer a trigger, by position, in grid order. *)
Definition matching (self : t R) (trigger : string) : list nat :=
  List.filter (λ i, match sound_buttons self !! i with
                    | Some b => answers trigger b
                    | None => false
                    end)
              (seq 0 (length (sound_buttons self))).

(** [play_sound] on each of the given buttons in turn. *)
Fixpoint play_each (self : t R) (l : list nat) : t R * list effect :=
  match l with
  | [] => (self, [])
  | i :: l' =>
      let '(self, e1) := play_sound sf_read resample self i in
      let '(self, e2) := play_each self l' in
      (self, e1 ++ e2)
  end.

(** Every registered chord is the chord of some button. *)
Definition registry_has_buttons (self : t R) : Prop :=
  ∀ h, h ∈ HotkeyManager.hotkeys (hotkey_manager self) →
       ∃ b, b ∈ sound_buttons self ∧ hotkey b ≠ "" ∧ chord_of b = h.

(** The handles the buttons hold were issued by the engine, no two buttons
    hold the same one, and a handle that is still in the table names a
    voice of the button's own file. *)
Definition handles_ok (self : t R) : Prop :=
  (∀ i b id, sound_buttons self !! i = Some b → sound_id b = Some id →
             id ≤ AudioPlayer.sound_id_counter (audio_player self)) ∧
  (∀ i j b b' id, sound_buttons self !! i = Some b →
                  sound_buttons self !! j = Some b' →
                  sound_id b = Some id → sound_id b' = Some id → i = j) ∧
  (∀ i b id v, sound_buttons self !! i = Some b → sound_id b = Some id →
               AudioPlayer.dict_get
                 (AudioPlayer.active_sounds (audio_player self)) id = Some v →
               AudioPlayer.file_path v = file_path b).

(** The hotkey strings of the buttons and the registered chords of [self']
    are those of [self]. *)
Definition keeps_hotkeys (self self' : t R) : Prop :=
  hotkey <$> sound_buttons self' = hotkey <$> sound_buttons self ∧
  HotkeyManager.hotkeys (hotkey_manager self')
  = HotkeyManager.hotkeys (hotkey_manager self).

(** The same with the table read as a list of entries. *)
Definition handles_ok_in (self : t R) : Prop :=
  (∀ i b id, sound_buttons self !! i = Some b → sound_id b = Some id →
             id ≤ AudioPlayer.sound_id_counter (audio_player self)) ∧
  (∀ i j b b' id, sound_buttons self !! i = Some b →
                  sound_buttons self !! j = Some b' →
                  sound_id b = Some id → sound_id b' = Some id → i = j) ∧
  (∀ i b id v, sound_buttons self !! i = Some b → sound_id b = Some id →
               (id, v) ∈ AudioPlayer.active_sounds (audio_player self) →
               AudioPlayer.file_path v = file_path b).

(** Engine [p'] has issued no fewer identifiers than [p], and each of its
    voices is a voice of [p] under the same identifier, of the same file. *)
Definition voices_kept (p p' : AudioPlayer.t R) : Prop :=
  AudioPlayer.sound_id_counter p ≤ AudioPlayer.sound_id_counter p' ∧
  ∀ k v', (k, v') ∈ AudioPlayer.active_sounds p' →
          ∃ v, (k, v) ∈ AudioPlayer.active_sounds p ∧
               AudioPlayer.file_path v' = AudioPlayer.file_path v.

(** Each button of [bs'] holds no handle, or is at the position of a button
    of [bs] with the same file and the same handle. *)
Definition handles_sub (bs bs' : list (SoundEntry R)) : Prop :=
  ∀ i b', bs' !! i = Some b' →
          sound_id b' = None ∨
          ∃ b, bs !! i = Some b ∧ file_path b' = file_path b ∧
               sound_id b' = sound_id b.

(** The microphones' mute state after a log of device calls. *)
Definition mic_after (muted : bool) (log : list effect) : bool :=
  foldl (λ _ e, match e with mute_all_real_mics m => m end) muted log.

(** Each device call of the log changes the mute state. *)
Fixpoint alternating (muted : bool) (log : list effect) : Prop :=
  match log with
  | [] => True
  | mute_all_real_mics m :: log' => m = negb muted ∧ alternating m log'
  end.

(** The flag follows the log, and the log never repeats a call. *)
Definition tracks (self : t R) (r : t R * list effect) : Prop :=
  alternating (mic_muted self) r.2 ∧
  mic_muted r.1 = mic_after (mic_muted self) r.2.
End WindowNotions.

(** * The mixing engine *)

#[export] Instance Z_Float32Laws : Float32Laws Z.
Proof. split; simpl; intros; lia. Qed.

Section MixerProofs.
Context {R : Type} `{Float32 R}.
Import AudioPlayer.

Lemma slice_index_nonneg (len : nat) (i : Z) :
  0 ≤ i ≤ Z.of_nat len → slice_index len i = Z.to_nat i.
Proof.
  intros Hi. unfold slice_index.
  destruct (Z.ltb_spec i 0); [lia|]. f_equal. lia.
Qed.

Lemma slice_take_drop {A} (l : list A) (a n : Z) :
  0 ≤ a → 0 ≤ n → a + n ≤ Z.of_nat (length l) →
  slice l a (a + n) = take (Z.to_nat n) (drop (Z.to_nat a) l).
Proof.
  intros Ha Hn Hlen. unfold slice.
  rewrite !slice_index_nonneg by lia. f_equal. lia.
Qed.

Lemma broadcast_to_same (t w : nat) (rs : list (list R)) :
  length rs = t → broadcast_to t w w rs = Some rs.
Proof.
  intros Ht. unfold broadcast_to.
  rewrite (bool_decide_eq_true_2 (w = w ∨ w = 1%nat)) by auto.
  rewrite (bool_decide_eq_true_2 (length rs = t ∨ _)) by auto.
  simpl. rewrite (bool_decide_eq_true_2 (w = w)) by done.
  rewrite map_id. by rewrite bool_decide_eq_true_2.
Qed.

Lemma iadd_prefix_accumulate (mixed chunk : list (list R)) (n : Z) :
  Z.of_nat (length chunk) = n → n ≤ Z.of_nat (length mixed) →
  iadd_prefix mixed n CHANNELS chunk = Some (accumulate mixed chunk).
Proof.
  intros <- Hle. unfold iadd_prefix, accumulate.
  pose proof (slice_take_drop mixed 0 (Z.of_nat (length chunk))) as Hs.
  rewrite Z.add_0_l in Hs. rewrite Hs by lia. clear Hs.
  change (Z.to_nat 0) with 0%nat. rewrite drop_0, Nat2Z.id.
  rewrite broadcast_to_same; [|rewrite length_take; lia].
  rewrite length_take. by rewrite Nat.min_l by lia.
Qed.

Lemma length_accumulate (mixed chunk : list (list R)) :
  (length chunk ≤ length mixed)%nat →
  length (accumulate mixed chunk) = length mixed.
Proof.
  intros Hle. unfold accumulate.
  rewrite length_app, length_zip_with, length_take, length_drop. lia.
Qed.

Lemma length_contribution (frames : nat) (master : R) (v : Voice R) :
  0 ≤ position v ≤ voice_len v →
  length (contribution frames master v) = copied frames v.
Proof.
  intros Hp. unfold contribution, copied, voice_len in *.
  rewrite length_map, length_take, length_drop. lia.
Qed.

Lemma copied_le_frames (frames : nat) (v : Voice R) :
  (copied frames v ≤ frames)%nat.
Proof. unfold copied. lia. Qed.

Lemma voice_eta (v : Voice R) :
  mkVoice (samples v) (position v) (volume v) (file_path v) (paused v) = v.
Proof. by destruct v. Qed.

(** The loop of the callback computes the specified block and moves the
    cursors; it never raises on stereo voices. *)
Lemma mix_loop_stereo (frames : nat) (master : R) (todo : list (Z * Voice R)) :
  ∀ (mixed : list (list R)) (fin : list Z),
  Forall (λ kv, stereo_voice kv.2) todo →
  length mixed = frames →
  mix_loop frames master todo mixed fin =
    (map (λ kv, (kv.1, advance frames kv.2)) todo,
     Mixed (foldl (λ mixed kv,
                     if paused kv.2 then mixed
                     else accumulate mixed (contribution frames master kv.2))
                  mixed todo)
           (fin ++ map fst (List.filter (λ kv, finished kv.2)
                       (map (λ kv, (kv.1, advance frames kv.2)) todo)))).
Proof.
  induction todo as [|[id v] todo IH]; intros mixed fin Hall Hlen.
  { simpl. by rewrite app_nil_r. }
  apply Forall_cons in Hall as [[Hc Hp] Hall]. simpl in Hc, Hp.
  cbn [mix_loop map foldl List.filter fst snd].
  unfold advance at 1 3, finished at 1. 
  destruct (paused v) eqn:Hpa.
  { rewrite Hpa. cbn [negb andb]. by rewrite IH. }
  cbn [paused negb andb].
  pose proof (copied_le_frames frames v) as Hcf.
  pose proof (length_contribution frames master v Hp) as Hlc.
  fold (voice_len v).
  destruct (Z.ltb_spec 0 (Z.min (Z.of_nat frames) (voice_len v - position v)))
    as [Hpos|Hpos].
  - rewrite slice_take_drop; [|lia|lia|unfold voice_len in *; lia].
    assert (scale (scale
              (take (Z.to_nat (Z.min (Z.of_nat frames) (voice_len v - position v)))
                    (drop (Z.to_nat (position v)) (rows (samples v))))
              (volume v)) master = contribution frames master v) as ->.
    { unfold scale, contribution, copied. rewrite map_map.
      apply map_ext. intros r. by rewrite map_map. }
    rewrite Hc, iadd_prefix_accumulate; [|unfold copied in *; lia|lia].
    cbn [position].
    assert (position v + Z.min (Z.of_nat frames) (voice_len v - position v)
            = position v + Z.of_nat (copied frames v)) as ->
        by (unfold copied; lia).
    change (voice_len (mkVoice (samples v) _ _ _ _)) with (voice_len v).
    destruct (voice_len v <=? position v + Z.of_nat (copied frames v)) eqn:Hfin.
    + rewrite IH; [|done|rewrite length_accumulate; lia].
      cbn [map fst]. by rewrite <- app_assoc.
    + rewrite IH; [|done|rewrite length_accumulate; lia]. done.
  - assert (copied frames v = 0%nat) as Hz by (unfold copied; lia).
    assert (contribution frames master v = []) as Hnil.
    { apply length_zero_iff_nil. lia. }
    rewrite Hnil, Hz, Z.add_0_r.
    assert (accumulate mixed [] = mixed) as -> by (unfold accumulate; simpl; by rewrite drop_0).
    assert (mkVoice (samples v) (position v) (volume v) (file_path v) false = v)
      as -> by (rewrite <- Hpa; apply voice_eta).
    destruct (voice_len v <=? position v) eqn:Hfin.
    + rewrite IH by done. cbn [map fst]. by rewrite <- app_assoc.
    + by rewrite IH.
Qed.

Lemma foldl_dict_del_cons (ks : list Z) :
  ∀ (d : list (Z * Voice R)) (k : Z) (v : Voice R),
  k ∉ ks → foldl dict_del ((k, v) :: d) ks = (k, v) :: foldl dict_del d ks.
Proof.
  induction ks as [|k' ks IH]; intros d k v Hk; [done|].
  apply not_elem_of_cons in Hk as [Hne Hk]. cbn [foldl dict_del].
  rewrite bool_decide_eq_false_2 by done. by apply IH.
Qed.

(** Deleting the keys of the entries that satisfy [P] leaves the others, in
    order: the second loop of the callback is a filter. *)
Lemma foldl_dict_del_filter (P : Z * Voice R → bool) (d : list (Z * Voice R)) :
  NoDup d.*1 →
  foldl dict_del d (map fst (List.filter P d)) = List.filter (λ kv, negb (P kv)) d.
Proof.
  induction d as [|[k v] d IH]; intros Hnd; [done|].
  apply NoDup_cons in Hnd as [Hk Hnd]. cbn [List.filter].
  destruct (P (k, v)); cbn [negb map fst foldl dict_del].
  - rewrite bool_decide_eq_true_2 by done. by apply IH.
  - rewrite foldl_dict_del_cons, IH; [done..|].
    intros Hin. apply Hk. apply list_elem_of_fmap in Hin as [kv [-> Hin]].
    apply list_elem_of_fmap. exists kv. split; [done|].
    apply list_elem_of_In, filter_In in Hin as [Hin _]. by apply list_elem_of_In.
Qed.

Lemma advance_keys (frames : nat) (d : list (Z * Voice R)) :
  (map (λ kv, (kv.1, advance frames kv.2)) d).*1 = d.*1.
Proof. induction d as [|[k v] d IH]; [done|]. simpl. by f_equal. Qed.

(** The callback on a table of stereo voices: the block is the specified
    mix, the table is the specified one. *)
Lemma audio_callback_stereo (self : t R) (frames : nat) :
  NoDup (active_sounds self).*1 →
  Forall (λ kv, stereo_voice kv.2) (active_sounds self) →
  _audio_callback self frames =
    (mk (table_after frames (active_sounds self)) (sound_id_counter self)
        (master_volume self)
        (bool_decide (0 < length (table_after frames (active_sounds self)))%nat)
        (_audio_cache self),
     Some (mix_of frames (master_volume self) (active_sounds self))).
Proof.
  intros Hnd Hall. unfold _audio_callback.
  rewrite mix_loop_stereo; [|done|unfold zeros; by rewrite length_replicate].
  cbn [app]. rewrite foldl_dict_del_filter by (by rewrite advance_keys).
  done.
Qed.

Lemma lookup_accumulate (mixed chunk : list (list R)) (i : nat) (x y : list R) :
  mixed !! i = Some y → chunk !! i = Some x →
  accumulate mixed chunk !! i = Some (zip_with f32_add y x).
Proof.
  intros Hm Hc. unfold accumulate.
  pose proof (lookup_lt_Some _ _ _ Hm). pose proof (lookup_lt_Some _ _ _ Hc).
  rewrite lookup_app_l by (rewrite length_zip_with, length_take; lia).
  rewrite lookup_zip_with, lookup_take_lt, Hm by lia. simpl. by rewrite Hc.
Qed.

Lemma lookup_contribution (frames : nat) (master : R) (v : Voice R)
      (i : nat) (r : list R) :
  (i < frames)%nat → 0 ≤ position v →
  rows (samples v) !! (Z.to_nat (position v) + i)%nat = Some r →
  contribution frames master v !! i
  = Some (map (λ s, f32_mul (f32_mul s (volume v)) master) r).
Proof.
  intros Hi Hp Hr. unfold contribution.
  pose proof (lookup_lt_Some _ _ _ Hr) as Hlt.
  rewrite list_lookup_fmap, lookup_take_lt, lookup_drop, Hr; [done|].
  unfold copied, voice_len. lia.
Qed.
End MixerProofs.

Section TwoVoices.
Context {R : Type} `{Float32Laws R}.
Import AudioPlayer.

(** Two unpaused stereo voices under master gain 1: a frame both still
    cover carries [g1*s1 + g2*s2] in every channel. *)
Lemma two_voices_sum (self : t R) (frames : nat) (i1 i2 : Z) (v1 v2 : Voice R)
      (i c : nat) (r1 r2 : list R) (s1 s2 : R) :
  active_sounds self = [(i1, v1); (i2, v2)] → i1 ≠ i2 →
  master_volume self = f32_one →
  paused v1 = false → paused v2 = false →
  stereo_voice v1 → stereo_voice v2 →
  (i < frames)%nat → (c < CHANNELS)%nat →
  rows (samples v1) !! (Z.to_nat (position v1) + i)%nat = Some r1 →
  r1 !! c = Some s1 →
  rows (samples v2) !! (Z.to_nat (position v2) + i)%nat = Some r2 →
  r2 !! c = Some s2 →
  ∃ out row,
    (_audio_callback self frames).2 = Some out ∧ out !! i = Some row ∧
    row !! c = Some (f32_add (f32_mul (volume v1) s1) (f32_mul (volume v2) s2)).
Proof.
  intros Hd Hne Hm Hp1 Hp2 Hs1 Hs2 Hi Hc Hr1 Hx1 Hr2 Hx2.
  rewrite audio_callback_stereo; cycle 1.
  { rewrite Hd. simpl. apply NoDup_cons. split; [|apply NoDup_singleton].
    by intros ?%list_elem_of_singleton. }
  { rewrite Hd. by repeat (apply Forall_cons; split; [done|]). }
  rewrite Hd, Hm. unfold mix_of. cbn [foldl snd]. rewrite Hp1, Hp2.
  eexists _, _. split; [done|]. split.
  - eapply lookup_accumulate; [eapply lookup_accumulate|].
    + unfold zeros. by apply lookup_replicate_2.
    + apply lookup_contribution; [done|apply Hs1|done].
    + apply lookup_contribution; [done|apply Hs2|done].
  - rewrite !lookup_zip_with, !list_lookup_fmap, Hx1, Hx2.
    rewrite lookup_replicate_2 by done. simpl.
    by rewrite f32_add_0_l, !f32_mul_1_r, (f32_mul_comm s1), (f32_mul_comm s2).
Qed.
End TwoVoices.

Section LockProofs.
Import Locking.
Context {S : Type} (block_c block_a : list (S → S)).

Lemma run_block_app (d1 d2 : list (S → S)) (s : S) :
  run_block (d1 ++ d2) s = run_block d2 (run_block d1 s).
Proof. unfold run_block. apply foldl_app. Qed.

Lemma sched_serial (s0 : S) (w w' : world S) :
  serial block_c block_a s0 w → sched block_c block_a w w' →
  serial block_c block_a s0 w'.
Proof.
  intros Hinv Hstep. destruct Hstep as [s pa Hpa|s f todo pa|s pa|s pc Hpc|s f todo pc|s pc];
    unfold serial in *; simpl in *.
  - destruct pa as [|ta|]; [|by destruct Hpa|]; subst; by exists [].
  - destruct pa as [|ta|]; [|done|]; destruct Hinv as (d & -> & ->);
      exists (d ++ [f]); by rewrite <- app_assoc, run_block_app.
  - destruct pa as [|ta|]; [|done|]; destruct Hinv as (d & -> & ->);
      rewrite app_nil_r; auto.
  - destruct pc as [|tc|]; [|by destruct Hpc|]; subst; by exists [].
  - destruct pc as [|tc|]; [|done|]; destruct Hinv as (d & -> & ->);
      exists (d ++ [f]); by rewrite <- app_assoc, run_block_app.
  - destruct pc as [|tc|]; [|done|]; destruct Hinv as (d & -> & ->);
      rewrite app_nil_r; auto.
Qed.

(** Every schedule of the two locked blocks is one of the two serial
    orders, at every point of the run. *)
Lemma schedule_serial (s0 : S) (w : world S) :
  rtc (sched block_c block_a) (World s0 Waiting Waiting) w →
  serial block_c block_a s0 w.
Proof.
  intros Hrun.
  revert w Hrun. apply (rtc_ind_r (R:=sched block_c block_a)); [done|].
  intros y z _ Hstep IH. by eapply sched_serial.
Qed.
End LockProofs.

Section EngineProofs.
Context {R : Type} `{Float32 R}.
Import AudioPlayer.
Variable sf_read : string → option (ndarray R * Z).
Variable resample : ndarray2 R → Z → option (ndarray2 R).

(** *** Lookups in the voice table *)

Lemma dict_get_set_eq (d : list (Z * Voice R)) (k : Z) (v : Voice R) :
  dict_get (dict_set d k v) k = Some v.
Proof.
  induction d as [|[k' v'] d IH]; simpl.
  - by rewrite bool_decide_eq_true_2.
  - destruct (bool_decide (k' = k)) eqn:Hk; simpl.
    + by rewrite bool_decide_eq_true_2.
    + by rewrite Hk.
Qed.

Lemma dict_get_set_ne (d : list (Z * Voice R)) (k k' : Z) (v : Voice R) :
  k ≠ k' → dict_get (dict_set d k v) k' = dict_get d k'.
Proof.
  intros Hne. induction d as [|[k0 v0] d IH]; simpl.
  - by rewrite bool_decide_eq_false_2.
  - destruct (bool_decide (k0 = k)) eqn:Hk; simpl.
    + apply bool_decide_eq_true_1 in Hk as ->.
      by rewrite !bool_decide_eq_false_2.
    + by rewrite IH.
Qed.

Lemma dict_set_present_keys (d : list (Z * Voice R)) (k : Z) (v : Voice R) :
  is_Some (dict_get d k) → (dict_set d k v).*1 = d.*1.
Proof.
  induction d as [|[k' v'] d IH]; simpl; intros Hs.
  - by destruct Hs.
  - destruct (bool_decide (k' = k)) eqn:Hk; simpl.
    + by apply bool_decide_eq_true_1 in Hk as ->.
    + f_equal. by apply IH.
Qed.

Lemma dict_set_absent (d : list (Z * Voice R)) (k : Z) (v : Voice R) :
  k ∉ d.*1 → dict_set d k v = d ++ [(k, v)].
Proof.
  induction d as [|[k' v'] d IH]; simpl; intros Hk; [done|].
  apply not_elem_of_cons in Hk as [Hne Hk].
  rewrite bool_decide_eq_false_2 by done. by rewrite IH.
Qed.

Lemma dict_get_Some_elem (d : list (Z * Voice R)) (k : Z) (v : Voice R) :
  dict_get d k = Some v → (k, v) ∈ d.
Proof.
  induction d as [|[k' v'] d IH]; simpl; [done|].
  destruct (bool_decide (k' = k)) eqn:Hk.
  - apply bool_decide_eq_true_1 in Hk as ->. intros [= ->]. left.
  - intros Hg. right. by apply IH.
Qed.

Lemma Forall_dict_set (P : Z * Voice R → Prop) (d : list (Z * Voice R))
      (k : Z) (v : Voice R) :
  Forall P d → P (k, v) → Forall P (dict_set d k v).
Proof.
  intros Hd Hv. induction Hd as [|[k' v'] d Hx Hd IH]; simpl.
  - by constructor.
  - destruct (bool_decide (k' = k)); constructor; done.
Qed.

Lemma NoDup_dict_del (d : list (Z * Voice R)) (k : Z) :
  NoDup d.*1 → NoDup (dict_del d k).*1.
Proof.
  induction d as [|[k' v'] d IH]; simpl; [done|].
  intros [Hk Hnd]%NoDup_cons. destruct (bool_decide (k' = k)); [done|].
  simpl. apply NoDup_cons. split; [|by apply IH].
  intros Hin. apply Hk. clear -Hin.
  induction d as [|[k0 v0] d IH]; simpl in *; [done|].
  destruct (bool_decide (k0 = k)); [by right|].
  apply elem_of_cons in Hin as [->|Hin]; [left|right; by apply IH].
Qed.

Lemma Forall_dict_del (P : Z * Voice R → Prop) (d : list (Z * Voice R)) (k : Z) :
  Forall P d → Forall P (dict_del d k).
Proof.
  induction 1 as [|[k' v'] d Hx Hd IH]; simpl; [done|].
  destruct (bool_decide (k' = k)); [done|by constructor].
Qed.

Lemma foldl_dict_del_ok (P : Z * Voice R → Prop) (ks : list Z) :
  ∀ d : list (Z * Voice R),
  NoDup d.*1 → Forall P d →
  NoDup (foldl dict_del d ks).*1 ∧ Forall P (foldl dict_del d ks).
Proof.
  induction ks as [|k ks IH]; intros d Hnd Hall; simpl; [done|].
  apply IH; [by apply NoDup_dict_del|by apply Forall_dict_del].
Qed.

(** *** What holds of every table the engine can hold *)

(** The mixing loop keeps the identifiers and the cursor bounds, whatever
    the shapes of the buffers and whether or not it raises. *)
Lemma mix_loop_ok (c : Z) (frames : nat) (master : R) (todo : list (Z * Voice R)) :
  ∀ (mixed : list (list R)) (fin : list Z),
  Forall (λ kv, kv.1 ≤ c ∧ 0 ≤ position kv.2 ≤ voice_len kv.2) todo →
  (mix_loop frames master todo mixed fin).1.*1 = todo.*1 ∧
  Forall (λ kv, kv.1 ≤ c ∧ 0 ≤ position kv.2 ≤ voice_len kv.2)
         (mix_loop frames master todo mixed fin).1.
Proof.
  induction todo as [|[id v] todo IH]; intros mixed fin Hall; [done|].
  apply Forall_cons in Hall as [[Hid Hp] Hall]. simpl in Hid, Hp.
  cbn [mix_loop]. destruct (paused v).
  { destruct (IH mixed fin Hall) as [Hk Hf].
    destruct (mix_loop frames master todo mixed fin) as [d r]. simpl in *.
    split; [by f_equal|by constructor]. }
  fold (voice_len v).
  destruct (0 <? Z.min (Z.of_nat frames) (voice_len v - position v)) eqn:Hc.
  - destruct (iadd_prefix _ _ _ _) as [mixed'|].
    + match goal with |- context [mix_loop frames master todo ?m ?f] =>
        destruct (IH m f Hall) as [Hk Hf];
        destruct (mix_loop frames master todo m f) as [d r] end.
      simpl in *. split; [by f_equal|]. constructor; [|done].
      simpl. unfold voice_len in *. simpl. lia.
    + simpl. split; [done|]. by constructor.
  - match goal with |- context [mix_loop frames master todo ?m ?f] =>
      destruct (IH m f Hall) as [Hk Hf];
      destruct (mix_loop frames master todo m f) as [d r] end.
    simpl in *. split; [by f_equal|by constructor].
Qed.

Lemma load_audio_table (self : t R) (path : string) :
  active_sounds (load_audio sf_read resample self path).1 = active_sounds self ∧
  sound_id_counter (load_audio sf_read resample self path).1 = sound_id_counter self ∧
  master_volume (load_audio sf_read resample self path).1 = master_volume self.
Proof.
  unfold load_audio. destruct (_audio_cache self !! path); [done|].
  by destruct (decode _ _ _).
Qed.

Lemma Forall_counter_mono (c c' : Z) (d : list (Z * Voice R)) :
  c ≤ c' →
  Forall (λ kv, kv.1 ≤ c ∧ 0 ≤ position kv.2 ≤ voice_len kv.2) d →
  Forall (λ kv, kv.1 ≤ c' ∧ 0 ≤ position kv.2 ≤ voice_len kv.2) d.
Proof.
  intros Hc Hall. eapply Forall_impl; [done|].
  intros kv [? ?]. split; [lia|done].
Qed.

Lemma step_table_ok (self : t R) (o : op R) :
  table_ok self → table_ok (step sf_read resample self o).1.
Proof.
  intros [Hnd Hall]. destruct o as [path vol ov|i|i|i vol| |vol| |n]; simpl.
  - unfold play_sound.
    destruct (load_audio_table self path) as (Ha & Hc & _).
    destruct (load_audio sf_read resample self path) as [s' [buf|]];
      simpl in *; [|unfold table_ok; by rewrite Ha, Hc].
    unfold table_ok. cbn [active_sounds sound_id_counter].
    rewrite Ha, Hc. destruct ov.
    + rewrite dict_set_absent.
      2:{ intros Hin. apply list_elem_of_fmap in Hin as [kv [Hk Hin]].
          rewrite Forall_forall in Hall. apply Hall in Hin as [Hle _]. lia. }
      split.
      * rewrite fmap_app. apply NoDup_app. split; [done|]. split.
        -- intros k Hin ->%list_elem_of_singleton.
           apply list_elem_of_fmap in Hin as [kv [Hk Hin]].
           rewrite Forall_forall in Hall. apply Hall in Hin as [Hle _].
           simpl in Hk. lia.
        -- apply NoDup_singleton.
      * apply Forall_app. split.
        -- eapply Forall_counter_mono; [|done]. lia.
        -- constructor; [|done]. simpl. unfold voice_len. simpl. lia.
    + simpl. split; [apply NoDup_singleton|].
      constructor; [|done]. simpl. unfold voice_len. simpl. lia.
  - unfold toggle_pause_sound.
    destruct (dict_get (active_sounds self) i) as [v|] eqn:Hg; [|by split].
    split; simpl.
    + by rewrite dict_set_present_keys by (by rewrite Hg).
    + apply Forall_dict_set; [done|].
      apply dict_get_Some_elem in Hg. rewrite Forall_forall in Hall.
      by apply Hall in Hg.
  - unfold stop_sound, table_ok. simpl.
    destruct (dict_mem (active_sounds self) i); [|by split].
    split; [by apply NoDup_dict_del|by apply Forall_dict_del].
  - unfold set_sound_volume.
    destruct (dict_get (active_sounds self) i) as [v|] eqn:Hg; [|by split].
    split; simpl.
    + by rewrite dict_set_present_keys by (by rewrite Hg).
    + apply Forall_dict_set; [done|].
      apply dict_get_Some_elem in Hg. rewrite Forall_forall in Hall.
      by apply Hall in Hg.
  - split; simpl; [apply NoDup_nil_2|done].
  - by split.
  - by split.
  - unfold _audio_callback.
    destruct (mix_loop_ok (sound_id_counter self) n (master_volume self)
                (active_sounds self) (zeros n CHANNELS) [] Hall) as [Hk Hf].
    destruct (mix_loop _ _ _ _ _) as [d [mixed fin|]]; simpl in *.
    + apply foldl_dict_del_ok; [by rewrite Hk|done].
    + split; simpl; [by rewrite Hk|done].
Qed.

Lemma init_table_ok : table_ok (init (R:=R)).
Proof. split; simpl; [apply NoDup_nil_2|done]. Qed.

Lemma run_table_ok (ops : list (op R)) :
  ∀ self : t R, table_ok self → table_ok (run sf_read resample self ops).1.
Proof.
  induction ops as [|o ops IH]; intros self Hok; [done|].
  cbn [run]. pose proof (step_table_ok self o Hok) as Hs.
  destruct (step sf_read resample self o) as [s' r]. simpl in Hs.
  specialize (IH s' Hs).
  by destruct (run sf_read resample s' ops) as [s'' ids].
Qed.

(** *** Identifiers handed out by [play_sound] *)

Lemma step_counter (self : t R) (o : op R) :
  sound_id_counter self ≤ sound_id_counter (step sf_read resample self o).1 ∧
  ∀ id, (step sf_read resample self o).2 = Some id →
        sound_id_counter self < id ≤ sound_id_counter (step sf_read resample self o).1.
Proof.
  destruct o as [path vol ov|i|i|i vol| |vol| |n]; simpl;
    try (split; [try lia|done]).
  - unfold play_sound. destruct (load_audio_table self path) as (_ & Hc & _).
    destruct (load_audio sf_read resample self path) as [s' [buf|]]; simpl in *.
    + split; [lia|]. intros id [= <-]. lia.
    + split; [lia|done].
  - unfold toggle_pause_sound. by destruct (dict_get _ _).
  - unfold set_sound_volume. by destruct (dict_get _ _).
  - unfold _audio_callback. by destruct (mix_loop _ _ _ _ _) as [d [mixed fin|]].
Qed.

Lemma run_ids_bounded (ops : list (op R)) :
  ∀ self : t R,
  sound_id_counter self ≤ sound_id_counter (run sf_read resample self ops).1 ∧
  Forall (λ id, sound_id_counter self < id
                ≤ sound_id_counter (run sf_read resample self ops).1)
         (run sf_read resample self ops).2.
Proof.
  induction ops as [|o ops IH]; intros self; [by split|].
  cbn [run]. destruct (step_counter self o) as [Hle Hid].
  destruct (step sf_read resample self o) as [s' r]. simpl in Hle, Hid.
  destruct (IH s') as [Hle' Hall].
  destruct (run sf_read resample s' ops) as [s'' ids]. simpl in *.
  split; [lia|]. apply Forall_app. split.
  - destruct r as [id|]; [|done]. constructor; [|done].
    specialize (Hid id eq_refl). lia.
  - eapply Forall_impl; [done|]. simpl. lia.
Qed.
(** *** The locked block of [play_sound] *)

(** [play_sound] is [load_audio] followed by its locked block. *)
Lemma play_sound_block (self : t R) (path : string) (vol : R) (overlap : bool) :
  play_sound sf_read resample self path vol overlap =
    match load_audio sf_read resample self path with
    | (s1, Some buf) =>
        (Locking.run_block (play_block buf vol path overlap) s1,
         Some (sound_id_counter s1 + 1))
    | (s1, None) => (s1, None)
    end.
Proof.
  unfold play_sound.
  destruct (load_audio sf_read resample self path) as [s1 [buf|]]; [|done].
  by destruct overlap.
Qed.

(** Under any schedule of a [play_sound] block against a callback block,
    the state the callback starts from is the one before the whole block
    or the one after it. *)
Lemma callback_sees_whole_block (s1 : t R) (buf : ndarray2 R) (vol : R)
      (path : string) (overlap : bool) (frames : nat) (w : Locking.world (t R)) :
  rtc (Locking.sched (play_block buf vol path overlap) (callback_block frames))
      (Locking.World s1 Locking.Waiting Locking.Waiting) w →
  Locking.audio w = Locking.Holding (callback_block frames) →
  Locking.shared w = s1 ∨
  Locking.shared w = Locking.run_block (play_block buf vol path overlap) s1.
Proof.
  intros Hrun Ha. apply schedule_serial in Hrun.
  unfold Locking.serial in Hrun. rewrite Ha in Hrun.
  destruct (Locking.controller w) as [|tc|]; [|done|];
    destruct Hrun as (d & Hd & ->);
    (destruct d as [|f d]; [by auto|]);
    exfalso; apply (f_equal length) in Hd; simpl in Hd;
    rewrite length_app in Hd; simpl in Hd; lia.
Qed.
End EngineProofs.

Section EngineClaims.
Context {R : Type} `{Float32 R}.
Import AudioPlayer.
Variable sf_read : string → option (ndarray R * Z).
Variable resample : ndarray2 R → Z → option (ndarray2 R).

(** C1 (as amended).  On a table of stereo voices with distinct identifiers
    and cursors inside their buffers, one callback writes the silent block
    plus, for each voice that is not paused and in table order,
    [min(frames, remaining)] rows from the cursor, each sample multiplied by
    the voice gain and then by the master gain, with no clamping; such a
    voice's cursor advances by the copied length; the voices dropped are
    exactly the unpaused ones whose cursor has reached the end, and a paused
    voice is kept as it is.  Under the laws of exact arithmetic, with master
    gain 1 and two unpaused voices, every frame both still cover holds
    [g1*s1 + g2*s2] in each channel. *)
Theorem audio_callback_mix (self : t R) (frames : nat) :
  NoDup (active_sounds self).*1 →
  Forall (λ kv, stereo_voice kv.2) (active_sounds self) →
  _audio_callback self frames =
    (mk (table_after frames (active_sounds self)) (sound_id_counter self)
        (master_volume self)
        (bool_decide (0 < length (table_after frames (active_sounds self)))%nat)
        (_audio_cache self),
     Some (mix_of frames (master_volume self) (active_sounds self)))
  ∧ (Float32Laws R →
     ∀ (i1 i2 : Z) (v1 v2 : Voice R) (i c : nat) (r1 r2 : list R) (s1 s2 : R),
     active_sounds self = [(i1, v1); (i2, v2)] →
     master_volume self = f32_one →
     paused v1 = false → paused v2 = false →
     (i < frames)%nat → (c < CHANNELS)%nat →
     rows (samples v1) !! (Z.to_nat (position v1) + i)%nat = Some r1 →
     r1 !! c = Some s1 →
     rows (samples v2) !! (Z.to_nat (position v2) + i)%nat = Some r2 →
     r2 !! c = Some s2 →
     ∃ out row,
       (_audio_callback self frames).2 = Some out ∧ out !! i = Some row ∧
       row !! c = Some (f32_add (f32_mul (volume v1) s1) (f32_mul (volume v2) s2))).
Proof.
  intros Hnd Hall. split; [by apply audio_callback_stereo|].
  intros Hlaws i1 i2 v1 v2 i c r1 r2 s1 s2 Hd Hm Hp1 Hp2 Hi Hc Hr1 Hx1 Hr2 Hx2.
  rewrite Hd in Hnd, Hall.
  apply NoDup_cons in Hnd as [Hne _].
  apply Forall_cons in Hall as [Hs1 [Hs2 _]%Forall_cons].
  eapply two_voices_sum; eauto.
  intros ->. apply Hne. left.
Qed.

(** The stereo conversion does what its comment says for one-channel
    input, in either layout, and lets every other array through. *)
Lemma ensure_stereo_cases (xs : list R) (a : ndarray2 R) :
  ncols (ensure_stereo (Arr1D xs)) = CHANNELS ∧
  (ncols a = 1%nat → ncols (ensure_stereo (Arr2D a)) = CHANNELS) ∧
  (ncols a ≠ 1%nat → ensure_stereo (Arr2D a) = a).
Proof.
  split; [done|]. unfold ensure_stereo. split; intros Ha.
  - rewrite bool_decide_eq_true_2 by done. simpl. by rewrite Ha.
  - by rewrite bool_decide_eq_false_2.
Qed.


(** C7.  For an identifier that is not in the table, [toggle_pause_sound]
    returns [False] and changes nothing, [set_sound_volume] changes nothing
    and [stop_sound] leaves the table as it is; for one that is,
    [toggle_pause_sound] flips that voice's flag, returns the new flag and
    touches no other entry. *)
Theorem transport_by_identifier (self : t R) (sound_id : Z) (vol : R) :
  (dict_get (active_sounds self) sound_id = None →
   toggle_pause_sound self sound_id = (self, false) ∧
   set_sound_volume self sound_id vol = self ∧
   active_sounds (stop_sound self sound_id) = active_sounds self)
  ∧ (∀ v, dict_get (active_sounds self) sound_id = Some v →
     (toggle_pause_sound self sound_id).2 = negb (paused v) ∧
     dict_get (active_sounds (toggle_pause_sound self sound_id).1) sound_id
       = Some (mkVoice (samples v) (position v) (volume v) (file_path v)
                       (negb (paused v))) ∧
     (active_sounds (toggle_pause_sound self sound_id).1).*1
       = (active_sounds self).*1 ∧
     ∀ id', id' ≠ sound_id →
       dict_get (active_sounds (toggle_pause_sound self sound_id).1) id'
       = dict_get (active_sounds self) id').
Proof.
  split.
  - intros Hg. unfold toggle_pause_sound, set_sound_volume, stop_sound, dict_mem.
    rewrite Hg. rewrite bool_decide_eq_false_2 by (by intros [? ?]). done.
  - intros v Hg. unfold toggle_pause_sound. rewrite Hg. simpl.
    split; [done|]. split; [apply dict_get_set_eq|]. split.
    + apply dict_set_present_keys. by rewrite Hg.
    + intros id' Hne. by apply dict_get_set_ne.
Qed.

(** C10.  When the file is not cached and decoding it fails, [play_sound]
    returns [None] and the engine is exactly as before: table, counter,
    [is_playing] and cache, whatever [overlap] is. *)
Theorem play_sound_decode_failure (self : t R) (path : string) (vol : R)
        (overlap : bool) :
  _audio_cache self !! path = None →
  decode sf_read resample path = None →
  play_sound sf_read resample self path vol overlap = (self, None).
Proof.
  intros Hcache Hdec. unfold play_sound, load_audio. by rewrite Hcache, Hdec.
Qed.
End EngineClaims.

(** [audio_callback_mix] on two voices of three and two frames, gains 2 and
    3, for a block of two frames. *)
Lemma audio_callback_mix_witness :
  let self := (demo_run [AudioPlayer.Play "mono.wav" 2 true;
                         AudioPlayer.Play "stereo.wav" 3 true]).1 in
  NoDup (AudioPlayer.active_sounds self).*1 ∧
  Forall (λ kv, stereo_voice kv.2) (AudioPlayer.active_sounds self) ∧
  (AudioPlayer._audio_callback self 2).2 = Some [[23; 26]; [49; 52]] ∧
  ∃ out row, (AudioPlayer._audio_callback self 2).2 = Some out ∧
             out !! 1%nat = Some row ∧ row !! 1%nat = Some (2 * 20 + 3 * 4).
Proof.
  intros self.
  assert (NoDup (AudioPlayer.active_sounds self).*1) as Hnd.
  { apply (bool_decide_unpack _). vm_compute. exact I. }
  assert (Forall (λ kv, stereo_voice kv.2) (AudioPlayer.active_sounds self)) as Hall.
  { repeat constructor; vm_compute; congruence. }
  split; [exact Hnd|]. split; [exact Hall|].
  destruct (audio_callback_mix self 2 Hnd Hall) as [Heq Hsum]. split.
  - rewrite Heq. vm_compute. reflexivity.
  - refine (Hsum Z_Float32Laws 1 2
              (AudioPlayer.mkVoice (Arr2 2 [[10; 10]; [20; 20]; [30; 30]]) 0 2
                                   "mono.wav" false)
              (AudioPlayer.mkVoice (Arr2 2 [[1; 2]; [3; 4]]) 0 3
                                   "stereo.wav" false)
              1%nat 1%nat [20; 20] [3; 4] 20 4 _ _ _ _ _ _ _ _ _ _);
      first [unfold CHANNELS; lia | vm_compute; reflexivity].
Defined.

(** C1, the claim as written fails: a voice over an empty buffer that was
    paused before the first block stays in the table with its cursor at the
    end of its buffer. *)
Lemma paused_voice_at_end_is_kept :
  let self := (demo_run [AudioPlayer.Play "empty.wav" 1 true;
                         AudioPlayer.TogglePause 1]).1 in
  ∃ v, AudioPlayer.dict_get
         (AudioPlayer.active_sounds (AudioPlayer._audio_callback self BLOCKSIZE).1) 1
       = Some v
       ∧ AudioPlayer.paused v = true
       ∧ voice_len v ≤ AudioPlayer.position v.
Proof. vm_compute. eexists. split; [reflexivity|]. split; [reflexivity|]. discriminate. Qed.

(** C2, at the failing input: a three-channel file at the engine rate is
    loaded with its three channels, and the first mix callback that plays
    it raises on the shape mismatch instead of writing a block. *)
Lemma load_audio_keeps_three_channels :
  (∃ buf, (AudioPlayer.load_audio demo_read demo_resample AudioPlayer.init
             "surround.wav").2 = Some buf ∧ ncols buf = 3%nat)
  ∧ (AudioPlayer._audio_callback
       (demo_run [AudioPlayer.Play "surround.wav" 1 true]).1 BLOCKSIZE).2 = None.
Proof. split; [eexists; split|]; vm_compute; reflexivity. Qed.


(** [transport_by_identifier] on a table holding voice 1 only: identifier 7
    is stale, identifier 1 is live. *)
Lemma transport_by_identifier_witness :
  let self := (demo_run [AudioPlayer.Play "mono.wav" 1 true]).1 in
  let v := AudioPlayer.mkVoice (Arr2 2 [[10; 10]; [20; 20]; [30; 30]]) 0 1
                               "mono.wav" false in
  (AudioPlayer.toggle_pause_sound self 7 = (self, false) ∧
   AudioPlayer.set_sound_volume self 7 2 = self ∧
   AudioPlayer.active_sounds (AudioPlayer.stop_sound self 7)
     = AudioPlayer.active_sounds self)
  ∧ (AudioPlayer.toggle_pause_sound self 1).2 = negb (AudioPlayer.paused v).
Proof.
  intros self v. split.
  - apply (proj1 (transport_by_identifier self 7 2)). vm_compute. reflexivity.
  - refine (proj1 (proj2 (transport_by_identifier self 1 2) v _)).
    vm_compute. reflexivity.
Defined.

(** [play_sound_decode_failure] on a file the decoder rejects, while a
    voice is playing. *)
Lemma play_sound_decode_failure_witness :
  let self := (demo_run [AudioPlayer.Play "mono.wav" 1 true]).1 in
  AudioPlayer.play_sound demo_read demo_resample self "missing.wav" 1 false
  = (self, None).
Proof.
  intros self.
  apply (play_sound_decode_failure demo_read demo_resample self "missing.wav" 1 false).
  - vm_compute. reflexivity.
  - vm_compute. reflexivity.
Defined.

(** * The chord detector *)

Section ChordProofs.
Import PyStr HotkeyManager.

Lemma hotkey_parts_subseteq (h : string) (X : gset string) :
  hotkey_parts h ⊆ X ↔ ∀ p, p ∈ split "+" h → p ∈ X.
Proof.
  unfold hotkey_parts. split.
  - intros Hs p Hp. apply Hs. by apply elem_of_list_to_set.
  - intros Hs p Hp. apply Hs. by apply elem_of_list_to_set in Hp.
Qed.

Lemma match_loop_firing (current : gset string) (l : list string) :
  NoDup l →
  ∀ (triggered : gset string) (emitted : list event),
  foldl (match_step current) (triggered, emitted) l =
    (triggered ∪ list_to_set (firing current triggered l),
     emitted ++ (hotkey_triggered <$> firing current triggered l)).
Proof.
  unfold firing.
  induction 1 as [|x l Hx Hnd IH]; intros triggered emitted.
  { simpl. rewrite app_nil_r. f_equal. set_solver. }
  cbn [foldl match_step].
  destruct (decide (x ∈ triggered)) as [Hin|Hin].
  { rewrite bool_decide_eq_true_2 by done.
    rewrite filter_cons_False by naive_solver. apply IH. }
  rewrite bool_decide_eq_false_2 by done.
  destruct (decide (hotkey_parts x ⊆ current)) as [Hsub|Hsub].
  - rewrite bool_decide_eq_true_2 by done.
    rewrite filter_cons_True by done. rewrite IH.
    assert (filter (λ h, (h ∉ triggered ∪ {[x]}) ∧ (hotkey_parts h ⊆ current)) l
            = filter (λ h, (h ∉ triggered) ∧ (hotkey_parts h ⊆ current)) l) as ->.
    { clear IH. induction l as [|y l IHl]; [done|].
      apply not_elem_of_cons in Hx as [Hxy Hx].
      apply NoDup_cons in Hnd as [_ Hnd].
      rewrite !filter_cons. rewrite IHl by done.
      destruct (decide ((y ∉ triggered ∪ {[x]}) ∧ _)) as [Hy|Hy],
               (decide ((y ∉ triggered) ∧ _)) as [Hy'|Hy']; try done.
      - exfalso. apply Hy'. set_solver.
      - exfalso. apply Hy. set_solver. }
    f_equal.
    + set_solver.
    + rewrite fmap_cons. by rewrite <- app_assoc.
  - rewrite bool_decide_eq_false_2 by done.
    rewrite filter_cons_False by naive_solver. apply IH.
Qed.

(** [_on_press] outside a recording session. *)
Lemma on_press_matching (s : t) (k : key) :
  recording s = false →
  let current := current_keys s ∪ {[_normalize_key k]} in
  let fired := firing current (triggered_hotkeys s) (elements (hotkeys s)) in
  _on_press s k =
    (mk (hotkeys s) current (triggered_hotkeys s ∪ list_to_set fired)
        false (recorded_keys s),
     hotkey_triggered <$> fired).
Proof.
  intros Hrec. simpl. unfold _on_press. rewrite Hrec.
  assert ((if bool_decide (_normalize_key k ∉ current_keys s)
           then current_keys s ∪ {[_normalize_key k]} else current_keys s)
          = current_keys s ∪ {[_normalize_key k]}) as ->.
  { case_bool_decide as Hk; [done|]. set_solver. }
  rewrite match_loop_firing by apply NoDup_elements. done.
Qed.

Lemma fires_app (h : string) (e1 e2 : list event) :
  fires h (e1 ++ e2) = (fires h e1 + fires h e2)%nat.
Proof. unfold fires. by rewrite filter_app, length_app. Qed.

Lemma fires_fmap_not_elem (h : string) (l : list string) :
  h ∉ l → fires h (hotkey_triggered <$> l) = 0%nat.
Proof.
  unfold fires. induction l as [|x l IH]; intros Hh; [done|].
  apply not_elem_of_cons in Hh as [Hne Hh].
  rewrite fmap_cons, filter_cons_False by congruence. by apply IH.
Qed.

Lemma fires_fmap_elem (h : string) (l : list string) :
  NoDup l → h ∈ l → fires h (hotkey_triggered <$> l) = 1%nat.
Proof.
  induction 1 as [|x l Hx Hnd IH]; intros Hh; [by apply elem_of_nil in Hh|].
  apply elem_of_cons in Hh as [->|Hh].
  - change (hotkey_triggered <$> x :: l)
      with ([hotkey_triggered x] ++ (hotkey_triggered <$> l)).
    rewrite fires_app, fires_fmap_not_elem by done.
    unfold fires. by rewrite filter_cons_True.
  - change (hotkey_triggered <$> x :: l)
      with ([hotkey_triggered x] ++ (hotkey_triggered <$> l)).
    rewrite fires_app, IH by done.
    unfold fires. rewrite filter_cons_False; [done|].
    intros [= ->]. done.
Qed.

Lemma unlatch_loop (l : list string) :
  ∀ (X : gset string) (h : string),
  h ∈ foldl (λ s x, s ∖ {[x]}) X l ↔ h ∈ X ∧ h ∉ l.
Proof.
  induction l as [|x l IH]; intros X h; simpl.
  - split; [intros ?; split; [done|apply not_elem_of_nil]|by intros [? _]].
  - rewrite IH, not_elem_of_cons. set_solver.
Qed.

(** [_on_release]: the key leaves the pressed set and every latched chord
    that contains it is re-armed. *)
Lemma on_release_state (s : t) (k : key) :
  let s' := (_on_release s k).1 in
  hotkeys s' = hotkeys s ∧
  current_keys s' = current_keys s ∖ {[_normalize_key k]} ∧
  (∀ h, h ∈ triggered_hotkeys s' ↔
        h ∈ triggered_hotkeys s ∧ _normalize_key k ∉ split "+" h) ∧
  (recording s = false → recording s' = false ∧ (_on_release s k).2 = []).
Proof.
  simpl. unfold _on_release.
  set (key_str := _normalize_key k).
  assert ((if bool_decide (key_str ∈ current_keys s)
           then current_keys s ∖ {[key_str]} else current_keys s)
          = current_keys s ∖ {[key_str]}) as ->.
  { case_bool_decide; [done|]. set_solver. }
  assert (∀ h, h ∈ foldl (λ s0 h0, s0 ∖ {[h0]}) (triggered_hotkeys s)
                 (List.filter (λ hotkey, bool_decide (key_str ∈ split "+" hotkey))
                              (elements (triggered_hotkeys s)))
               ↔ h ∈ triggered_hotkeys s ∧ key_str ∉ split "+" h) as Htr.
  { intros h. rewrite unlatch_loop, list_elem_of_In, filter_In.
    rewrite <- list_elem_of_In, elem_of_elements, bool_decide_eq_true.
    naive_solver. }
  destruct (recording s) eqn:Hrec; simpl.
  - destruct (bool_decide (current_keys s ∖ {[key_str]} = ∅)); simpl;
      (split; [done|]; split; [done|]; split; [apply Htr|done]).
  - split; [done|]. split; [done|]. split; [apply Htr|done].
Qed.

(** The latch invariant survives every operation except the start of a
    recording session. *)
Lemma step_latched_held (s : t) (o : op) :
  o ≠ StartRecording → latched_held s → latched_held (step s o).1.
Proof.
  intros Ho Hinv. destruct o as [k|k|h|h| |]; simpl; [| | | | |done].
  - destruct (recording s) eqn:Hrec.
    + unfold _on_press. rewrite Hrec. intros h Hh. simpl in *.
      apply Hinv in Hh. case_bool_decide; set_solver.
    + rewrite on_press_matching by done. intros h Hh. simpl in *.
      apply elem_of_union in Hh as [Hh|Hh].
      * apply Hinv in Hh. set_solver.
      * apply elem_of_list_to_set in Hh. unfold firing in Hh.
        apply list_elem_of_filter in Hh as [[_ Hsub] _]. done.
  - destruct (on_release_state s k) as (_ & Hcur & Htr & _).
    intros h Hh. apply Htr in Hh as [Hh Hk]. rewrite Hcur.
    apply Hinv in Hh. apply hotkey_parts_subseteq. intros p Hp.
    rewrite hotkey_parts_subseteq in Hh.
    apply elem_of_difference. split; [by apply Hh|].
    intros ->%elem_of_singleton. done.
  - unfold register. by case_bool_decide.
  - unfold unregister. by case_bool_decide.
  - done.
Qed.

Lemma run_app (ops1 ops2 : list op) :
  ∀ s, run s (ops1 ++ ops2) =
       ((run (run s ops1).1 ops2).1, (run s ops1).2 ++ (run (run s ops1).1 ops2).2).
Proof.
  induction ops1 as [|o ops1 IH]; intros s; simpl.
  - by destruct (run s ops2).
  - destruct (step s o) as [s1 e1]. rewrite IH.
    destruct (run s1 ops1) as [s2 e2]. simpl.
    destruct (run s2 ops2) as [s3 e3]. simpl. by rewrite app_assoc.
Qed.

Lemma press_keeps (s : t) (k : key) :
  recording s = false →
  hotkeys (_on_press s k).1 = hotkeys s ∧ recording (_on_press s k).1 = false ∧
  current_keys (_on_press s k).1 = current_keys s ∪ {[_normalize_key k]}.
Proof. intros Hrec. by rewrite on_press_matching. Qed.

(** While no key of a latched chord is released, key events neither fire it
    nor unlatch it. *)
Lemma held_chord_silent (h : string) (evs : list op) :
  ∀ s, recording s = false → h ∈ triggered_hotkeys s →
  Forall key_event evs → Forall (λ o, ¬ releases_part h o) evs →
  fires h (run s evs).2 = 0%nat ∧ h ∈ triggered_hotkeys (run s evs).1 ∧
  recording (run s evs).1 = false.
Proof.
  induction evs as [|o evs IH]; intros s Hrec Hlat Hkey Hrel; [done|].
  apply Forall_cons in Hkey as [Ho Hkey]. apply Forall_cons in Hrel as [Hr Hrel].
  cbn [run]. destruct o as [k|k| | | |]; try done; simpl in Hr.
  - simpl. pose proof (on_press_matching s k Hrec) as Hp. simpl in Hp.
    destruct (_on_press s k) as [s1 e1]. injection Hp as -> ->.
    match goal with |- context [run ?s1 evs] =>
      destruct (IH s1) as (Hf & Hl & Hr'); [done|simpl; set_solver|done|done|];
      destruct (run s1 evs) as [s2 e2] end.
    simpl in *. rewrite fires_app, Hf. split; [|done].
    rewrite fires_fmap_not_elem; [done|].
    unfold firing. rewrite list_elem_of_filter. naive_solver.
  - simpl. destruct (on_release_state s k) as (_ & _ & Htr & Hrc).
    destruct (Hrc Hrec) as [Hrec' Hev].
    destruct (_on_release s k) as [s1 e1]. simpl in *. subst e1.
    destruct (IH s1) as (Hf & Hl & Hr'); [done|by apply Htr|done|done|].
    destruct (run s1 evs) as [s2 e2]. simpl in *. done.
Qed.

(** Key events about other keys leave an unlatched, incomplete chord
    silent and its held tokens held. *)
Lemma outside_events_silent (h : string) (evs : list op) :
  ∀ s, recording s = false → h ∉ triggered_hotkeys s →
  ¬ hotkey_parts h ⊆ current_keys s →
  Forall (outside h) evs →
  fires h (run s evs).2 = 0%nat ∧ (h ∉ triggered_hotkeys (run s evs).1) ∧
  recording (run s evs).1 = false ∧ hotkeys (run s evs).1 = hotkeys s ∧
  ∀ p, p ∈ split "+" h → (p ∈ current_keys (run s evs).1 ↔ p ∈ current_keys s).
Proof.
  induction evs as [|o evs IH]; intros s Hrec Hlat Hsub Hout; [done|].
  apply Forall_cons in Hout as [Ho Hout].
  cbn [run]. destruct o as [k|k| | | |]; try done; simpl in Ho.
  - simpl. pose proof (on_press_matching s k Hrec) as Hp. simpl in Hp.
    destruct (_on_press s k) as [s1 e1]. injection Hp as -> ->.
    assert (¬ hotkey_parts h ⊆ current_keys s ∪ {[_normalize_key k]}) as Hsub'.
    { intros Hs. apply Hsub. rewrite hotkey_parts_subseteq in *.
      intros p Hp. specialize (Hs p Hp). set_solver. }
    assert (h ∉ firing (current_keys s ∪ {[_normalize_key k]})
                       (triggered_hotkeys s) (elements (hotkeys s))) as Hnf.
    { unfold firing. rewrite list_elem_of_filter. naive_solver. }
    match goal with |- context [run ?s1 evs] =>
      destruct (IH s1) as (Hf & Hl & Hr' & Hh & Hc);
        [done|simpl; rewrite elem_of_union, elem_of_list_to_set; naive_solver
        |done|done|];
      destruct (run s1 evs) as [s2 e2] end.
    simpl in *. rewrite fires_app, Hf, fires_fmap_not_elem by done.
    repeat split; try done.
    + intros Hp2. apply Hc in Hp2; [|done]. set_solver.
    + intros Hp2. apply Hc; [done|]. set_solver.
  - simpl. destruct (on_release_state s k) as (Hhk & Hcur & Htr & Hrc).
    destruct (Hrc Hrec) as [Hrec' Hev].
    destruct (_on_release s k) as [s1 e1]. simpl in *. subst e1.
    destruct (IH s1) as (Hf & Hl & Hr' & Hh & Hc); [done| | |done|].
    { rewrite Htr. naive_solver. }
    { rewrite Hcur. intros Hs. apply Hsub. rewrite hotkey_parts_subseteq in *.
      intros p Hp. specialize (Hs p Hp). set_solver. }
    destruct (run s1 evs) as [s2 e2]. simpl in *.
    repeat split; try done; try congruence.
    + intros Hp2. apply Hc in Hp2; [|done]. set_solver.
    + intros Hp2. apply Hc; [done|]. rewrite Hcur. set_solver.
Qed.
End ChordProofs.

Section NormalProofs.
Import PyStr HotkeyManager.

Lemma lower_char_idem (a : ascii) : lower_char (lower_char a) = lower_char a.
Proof. by destruct a as [[] [] [] [] [] [] [] []]. Qed.

Lemma lower_char_plus (a : ascii) : lower_char a = "+"%char ↔ a = "+"%char.
Proof. destruct a as [[] [] [] [] [] [] [] []]; by vm_compute. Qed.

Lemma all_chars_impl (Q1 Q2 : ascii → Prop) (s : string) :
  (∀ a, Q1 a → Q2 a) → all_chars Q1 s → all_chars Q2 s.
Proof. intros HQ. induction s as [|a s IH]; simpl; [done|]. naive_solver. Qed.

Lemma all_chars_app (Q : ascii → Prop) (s1 s2 : string) :
  all_chars Q (s1 +:+ s2) ↔ all_chars Q s1 ∧ all_chars Q s2.
Proof. induction s1 as [|a s1 IH]; simpl; [naive_solver|]. rewrite IH. naive_solver. Qed.

Lemma lower_fixed (s : string) :
  all_chars (λ a, lower_char a = a) s → lower s = s.
Proof. induction s as [|a s IH]; simpl; [done|]. intros [-> ?]. by rewrite IH. Qed.

Lemma all_chars_lower (s : string) :
  all_chars (λ a, lower_char a = a) (lower s).
Proof.
  induction s as [|a s IH]; simpl; [done|]. split; [apply lower_char_idem|done].
Qed.

Lemma split_nonempty (sep : ascii) (s : string) : split sep s ≠ [].
Proof.
  destruct s as [|a s]; simpl; [done|].
  destruct (bool_decide (a = sep)); [done|]. by destruct (split sep s).
Qed.

(** The pieces of a split never contain the separator, and inherit what
    holds of every character. *)
Lemma split_parts (Q : ascii → Prop) (sep : ascii) (s : string) :
  all_chars Q s → Forall (all_chars (λ a, a ≠ sep ∧ Q a)) (split sep s).
Proof.
  induction s as [|a s IH]; simpl; intros Hs.
  - by repeat constructor.
  - destruct Hs as [Ha Hs]. specialize (IH Hs).
    case_bool_decide as Hsep.
    + by constructor.
    + destruct (split sep s) as [|p ps]; [by repeat constructor|].
      apply Forall_cons in IH as [Hp Hps]. by repeat constructor.
Qed.

Lemma split_no_sep (sep : ascii) (p : string) :
  all_chars (λ a, a ≠ sep) p → split sep p = [p].
Proof.
  induction p as [|a p IH]; simpl; [done|]. intros [Ha Hp].
  rewrite bool_decide_eq_false_2 by done. by rewrite IH.
Qed.

Lemma split_app_sep (sep : ascii) (p rest : string) :
  all_chars (λ a, a ≠ sep) p →
  split sep (p +:+ String sep rest) = p :: split sep rest.
Proof.
  induction p as [|a p IH]; simpl; intros Hp.
  - by rewrite bool_decide_eq_true_2.
  - destruct Hp as [Ha Hp]. rewrite bool_decide_eq_false_2 by done.
    change (String.append p (String sep rest)) with (p +:+ String sep rest).
    by rewrite IH.
Qed.

(** Splitting undoes joining when no piece contains the separator. *)
Lemma split_join (sep : ascii) (l : list string) :
  l ≠ [] → Forall (all_chars (λ a, a ≠ sep)) l →
  split sep (join (String sep EmptyString) l) = l.
Proof.
  induction l as [|p l IH]; [done|]. intros _ Hall.
  apply Forall_cons in Hall as [Hp Hl]. unfold join in *.
  destruct l as [|q l].
  - by apply split_no_sep.
  - change (String.concat (String sep "") (p :: q :: l))
      with (p +:+ String sep (String.concat (String sep "") (q :: l))).
    rewrite split_app_sep by done. f_equal. by apply IH.
Qed.

Lemma all_chars_join (Q : ascii → Prop) (sep : ascii) (l : list string) :
  Q sep → Forall (all_chars Q) l → all_chars Q (join (String sep EmptyString) l).
Proof.
  intros Hsep. induction 1 as [|p l Hp Hl IH]; [done|].
  unfold join in *. destruct l as [|q l]; [done|].
  change (String.concat (String sep "") (p :: q :: l))
    with (p +:+ String sep (String.concat (String sep "") (q :: l))).
  apply all_chars_app. split; [done|]. simpl. split; [done|]. apply IH.
Qed.

(** *** [strip] *)

Lemma all_chars_lstrip (Q : ascii → Prop) (s : string) :
  all_chars Q s → all_chars Q (lstrip s).
Proof.
  induction s as [|a s IH]; simpl; [done|]. intros [Ha Hs].
  destruct (isspace a); [by apply IH|done].
Qed.

Lemma all_chars_rstrip (Q : ascii → Prop) (s : string) :
  all_chars Q s → all_chars Q (rstrip s).
Proof.
  induction s as [|a s IH]; simpl; [done|]. intros [Ha Hs].
  specialize (IH Hs). destruct (rstrip s); [|done].
  by destruct (isspace a).
Qed.

Lemma all_chars_strip (Q : ascii → Prop) (s : string) :
  all_chars Q s → all_chars Q (strip s).
Proof. intros. by apply all_chars_rstrip, all_chars_lstrip. Qed.

Lemma lstrip_no_leading_space (s : string) : no_leading_space (lstrip s).
Proof.
  induction s as [|a s IH]; simpl; [done|].
  by destruct (isspace a) eqn:Ha.
Qed.

Lemma lstrip_fixed (s : string) : no_leading_space s → lstrip s = s.
Proof. destruct s as [|a s]; simpl; [done|]. by intros ->. Qed.

Lemma rstrip_no_leading_space (s : string) :
  no_leading_space s → no_leading_space (rstrip s).
Proof.
  destruct s as [|a s]; simpl; [done|]. intros Ha.
  destruct (rstrip s); [by rewrite Ha|done].
Qed.

Lemma rstrip_idem (s : string) : rstrip (rstrip s) = rstrip s.
Proof.
  induction s as [|a s IH]; simpl; [done|].
  destruct (rstrip s) as [|b r] eqn:Hr.
  - destruct (isspace a) eqn:Ha; simpl; [done|]. by rewrite Ha.
  - change (rstrip (String a (String b r)))
      with (match rstrip (String b r) with
            | EmptyString => if isspace a then EmptyString else String a EmptyString
            | String _ _ as r' => String a r'
            end).
    by rewrite IH.
Qed.

Lemma strip_idem (s : string) : strip (strip s) = strip s.
Proof.
  unfold strip.
  rewrite (lstrip_fixed (rstrip (lstrip s)))
    by apply rstrip_no_leading_space, lstrip_no_leading_space.
  apply rstrip_idem.
Qed.

(** *** Modifier names *)

Lemma standardize_modifier_cases (p : string) :
  standardize_modifier p ∈ modifiers ∨
  (standardize_modifier p = p ∧ List.find (startswith p) modifiers = None).
Proof.
  unfold standardize_modifier.
  destruct (List.find (startswith p) modifiers) as [m|] eqn:Hf; [left|by right].
  apply find_some in Hf as [Hin _]. by apply list_elem_of_In.
Qed.

Lemma modifiers_normal (m : string) :
  m ∈ modifiers →
  normalize_part m = m ∧ all_chars token_char m.
Proof.
  unfold modifiers. rewrite !elem_of_cons, elem_of_nil.
  intros [->|[->|[->|[->|[->|[]]]]]]; (split; [by vm_compute|]);
    simpl; unfold token_char; repeat split; by vm_compute.
Qed.

Lemma normalize_part_idem (p : string) :
  normalize_part (normalize_part p) = normalize_part p.
Proof.
  unfold normalize_part at 2 3.
  destruct (standardize_modifier_cases (strip p)) as [Hm|[Heq Hnone]].
  - by apply modifiers_normal.
  - rewrite Heq. unfold normalize_part. rewrite strip_idem. done.
Qed.

Lemma normalize_part_chars (p : string) :
  all_chars token_char p → all_chars token_char (normalize_part p).
Proof.
  intros Hp. unfold normalize_part.
  destruct (standardize_modifier_cases (strip p)) as [Hm|[-> _]].
  - by apply modifiers_normal.
  - by apply all_chars_strip.
Qed.

(** *** Sorting *)

Lemma sorted_fixed (l : list string) :
  StronglySorted String.le l → sorted l = l.
Proof.
  intros Hl. unfold sorted. apply (StronglySorted_unique String.le); [|done|].
  - apply StronglySorted_merge_sort; apply _.
  - apply merge_sort_Permutation.
Qed.

Lemma sorted_idem (l : list string) : sorted (sorted l) = sorted l.
Proof. apply sorted_fixed. apply StronglySorted_merge_sort; apply _. Qed.

(** *** The normal form of a chord string *)

(** The tokens of a normalised chord string: sorted, free of the delimiter
    and of upper case, each a fixed point of the per-token step. *)
Lemma normalized_tokens (hotkey : string) :
  let l := sorted (map normalize_part (split "+" (lower hotkey))) in
  l ≠ [] ∧ StronglySorted String.le l ∧
  Forall (λ p, all_chars token_char p ∧ normalize_part p = p) l.
Proof.
  simpl. set (n := map normalize_part (split "+" (lower hotkey))).
  assert (sorted n ≡ₚ n) as Hperm by apply merge_sort_Permutation.
  split; [|split].
  - intros Hnil. rewrite Hnil in Hperm. symmetry in Hperm.
    apply Permutation_nil_r in Hperm. unfold n in Hperm.
    apply fmap_nil_inv in Hperm. by apply split_nonempty in Hperm.
  - apply StronglySorted_merge_sort; apply _.
  - rewrite Hperm. unfold n. apply Forall_fmap.
    eapply Forall_impl; [apply (split_parts _ _ _ (all_chars_lower hotkey))|].
    intros p Hp. simpl. split.
    + by apply normalize_part_chars.
    + apply normalize_part_idem.
Qed.

(** Normalising a chord string twice is normalising it once. *)
Lemma normalize_hotkey_string_idempotent (hotkey : string) :
  _normalize_hotkey_string (_normalize_hotkey_string hotkey)
  = _normalize_hotkey_string hotkey.
Proof.
  unfold _normalize_hotkey_string.
  change (map (λ p, standardize_modifier (strip p))) with (map normalize_part).
  destruct (normalized_tokens hotkey) as (Hne & Hsorted & Hall).
  set (l := sorted (map normalize_part (split "+" (lower hotkey)))) in *.
  rewrite lower_fixed.
  2:{ apply all_chars_join; [done|]. eapply Forall_impl; [done|].
      intros p [Hp _]. eapply all_chars_impl; [|done]. by intros a [_ ?]. }
  rewrite split_join; [|done|].
  2:{ eapply Forall_impl; [done|].
      intros p [Hp _]. eapply all_chars_impl; [|done]. by intros a [? _]. }
  assert (map normalize_part l = l) as ->.
  { clear -Hall. induction Hall as [|p l [_ Hp] _ IH]; simpl; [done|].
    by rewrite Hp, IH. }
  by rewrite sorted_fixed.
Qed.
End NormalProofs.

Section ChordClaims.
Import PyStr HotkeyManager.

(** C3 (as amended).  [clear_all] empties the registered set and leaves the
    latched set, the pressed-key set and the recording session as they
    were. *)
Theorem clear_all_registered_only (s : t) :
  hotkeys (clear_all s) = ∅ ∧
  triggered_hotkeys (clear_all s) = triggered_hotkeys s ∧
  current_keys (clear_all s) = current_keys s ∧
  recording (clear_all s) = recording s ∧
  recorded_keys (clear_all s) = recorded_keys s.
Proof. done. Qed.

(** C3, the claim as written fails: a chord latched by a press is still
    latched after [clear_all]. *)
Lemma clear_all_keeps_latched :
  let s := (run init [Register "a"; OnPress (KeyCode_char "a" None)]).1 in
  triggered_hotkeys (clear_all s) ≠ ∅.
Proof. vm_compute. discriminate. Qed.



(** C8.  During a recording session a press emits nothing, leaves the
    registered and latched sets alone and appends its token to the recorded
    sequence unless the token is already there; a release that leaves no
    key pressed ends the session, emits the recorded tokens joined by [+] in
    the order they were first pressed, and clears the sequence. *)
Theorem recording_session (s : t) (k : key) :
  recording s = true →
  ((_on_press s k).2 = [] ∧
   hotkeys (_on_press s k).1 = hotkeys s ∧
   triggered_hotkeys (_on_press s k).1 = triggered_hotkeys s ∧
   recording (_on_press s k).1 = true ∧
   (_normalize_key k ∈ recorded_keys s →
    recorded_keys (_on_press s k).1 = recorded_keys s) ∧
   (_normalize_key k ∉ recorded_keys s →
    recorded_keys (_on_press s k).1 = recorded_keys s ++ [_normalize_key k]))
  ∧ (current_keys (_on_release s k).1 = ∅ →
     (_on_release s k).2 = [recording_finished (join "+" (recorded_keys s))] ∧
     recording (_on_release s k).1 = false ∧
     recorded_keys (_on_release s k).1 = []).
Proof.
  intros Hrec. split.
  - unfold _on_press. rewrite Hrec. simpl.
    repeat split; intros Hk.
    + by rewrite bool_decide_eq_false_2 by (by intros ?).
    + by rewrite bool_decide_eq_true_2.
  - destruct (on_release_state s k) as (_ & Hcur & _ & _).
    rewrite Hcur. intros Hempty. unfold _on_release. rewrite Hrec.
    assert ((if bool_decide (_normalize_key k ∈ current_keys s)
             then current_keys s ∖ {[_normalize_key k]} else current_keys s)
            = ∅) as ->.
    { case_bool_decide; [done|]. set_solver. }
    by rewrite bool_decide_eq_true_2.
Qed.

(** A state with no key pressed and nothing latched: every latch agrees. *)
Lemma fresh_latch_agrees (h : string) (s : t) :
  current_keys s = ∅ → triggered_hotkeys s = ∅ → latch_agrees h s.
Proof.
  intros Hc Ht. unfold latch_agrees. rewrite Hc, Ht. split.
  - by intros ?%elem_of_empty.
  - intros Hsub. exfalso. rewrite hotkey_parts_subseteq in Hsub.
    pose proof (split_nonempty "+" h) as Hne.
    destruct (split "+" h) as [|p l]; [done|].
    specialize (Hsub p). apply (not_elem_of_empty (C:=gset string) p).
    apply Hsub. by left.
Qed.

(** One key event outside a recording session, for a chord whose latch
    agrees with the pressed keys: it fires if and only if the event is a
    press that completes it, and the latch still agrees afterwards. *)
Lemma key_event_fires (s : t) (h : string) (o : op) :
  recording s = false → h ∈ hotkeys s → latch_agrees h s → key_event o →
  fires h (step s o).2 = (if completes h (current_keys s) o then 1 else 0)%nat ∧
  current_keys (step s o).1 = pressed_after (current_keys s) o ∧
  latch_agrees h (step s o).1 ∧ recording (step s o).1 = false ∧
  hotkeys (step s o).1 = hotkeys s.
Proof.
  intros Hrec Hreg Hag Ho. destruct o as [k|k| | | |]; try done; simpl.
  - rewrite on_press_matching by done.
    cbn [fst snd current_keys triggered_hotkeys recording hotkeys].
    set (cur := current_keys s ∪ {[_normalize_key k]}).
    assert (h ∈ firing cur (triggered_hotkeys s) (elements (hotkeys s)) ↔
            ¬ hotkey_parts h ⊆ current_keys s ∧ hotkey_parts h ⊆ cur) as Hf.
    { unfold firing. rewrite list_elem_of_filter, elem_of_elements.
      unfold latch_agrees in Hag. naive_solver. }
    split; [|split; [done|split; [|done]]].
    + destruct (decide (¬ hotkey_parts h ⊆ current_keys s
                        ∧ hotkey_parts h ⊆ cur)) as [Hc|Hc].
      * rewrite !bool_decide_eq_true_2 by apply Hc. simpl.
        apply fires_fmap_elem; [apply NoDup_filter, NoDup_elements|by apply Hf].
      * rewrite fires_fmap_not_elem by (by rewrite Hf).
        destruct (bool_decide (¬ hotkey_parts h ⊆ current_keys s)) eqn:H1,
                 (bool_decide (hotkey_parts h ⊆ cur)) eqn:H2; try done.
        apply bool_decide_eq_true_1 in H1, H2. by destruct Hc.
    + unfold latch_agrees in *.
      cbn [fst snd current_keys triggered_hotkeys recording hotkeys].
      fold cur.
      rewrite elem_of_union, elem_of_list_to_set, Hf, Hag.
      destruct (decide (hotkey_parts h ⊆ current_keys s)) as [Hs|Hs].
      * split; [|by left]. intros _. unfold cur. set_solver.
      * naive_solver.
  - destruct (on_release_state s k) as (Hhk & Hcur & Htr & Hrc).
    destruct (Hrc Hrec) as [Hrec' Hev]. simpl in *.
    rewrite Hev. split; [done|]. split; [done|]. split; [|done].
    unfold latch_agrees in *. rewrite Htr, Hcur, Hag.
    rewrite !hotkey_parts_subseteq. split.
    + intros [Hs Hk] p Hp. apply elem_of_difference. split; [by apply Hs|].
      intros ->%elem_of_singleton. done.
    + intros Hs. split.
      * intros p Hp. specialize (Hs p Hp). set_solver.
      * intros Hk. specialize (Hs _ Hk). set_solver.
Qed.

Lemma key_events_fire (h : string) (evs : list op) :
  ∀ s, recording s = false → h ∈ hotkeys s → latch_agrees h s →
  Forall key_event evs →
  fires h (run s evs).2 = completions h (current_keys s) evs ∧
  current_keys (run s evs).1 = foldl pressed_after (current_keys s) evs ∧
  latch_agrees h (run s evs).1 ∧ recording (run s evs).1 = false ∧
  hotkeys (run s evs).1 = hotkeys s.
Proof.
  induction evs as [|o evs IH]; intros s Hrec Hreg Hag Hev; [done|].
  apply Forall_cons in Hev as [Ho Hev]. cbn [run completions foldl].
  destruct (key_event_fires s h o Hrec Hreg Hag Ho)
    as (Hf & Hc & Hag1 & Hrec1 & Hh1).
  destruct (step s o) as [s1 e1]. simpl in *.
  destruct (IH s1) as (Hf2 & Hc2 & Hag2 & Hrec2 & Hh2);
    [done|by rewrite Hh1|done|done|].
  destruct (run s1 evs) as [s2 e2]. simpl in *.
  rewrite fires_app, Hf, Hf2, Hc2, Hc, Hh2, Hh1. done.
Qed.

(** C9 (as amended).  Outside a recording session, for a registered chord
    [h] whose latch agrees with the pressed keys: along any sequence of key
    events the trigger of [h] fires exactly at the presses that take its
    token set from not contained to contained in the pressed keys, once
    each, and at no other event, and the pressed keys follow the events;
    so while all of its keys stay held it does not fire again, and after
    one of its keys is released and, with only other keys touched in
    between, pressed again, it fires exactly once, at that press. *)
Theorem chord_edge_triggered (s : t) (h : string) :
  recording s = false → h ∈ hotkeys s → latch_agrees h s →
  (∀ evs o, Forall key_event evs → key_event o →
            let s' := (run s evs).1 in
            fires h (step s' o).2
            = (if completes h (foldl pressed_after (current_keys s) evs) o
               then 1 else 0)%nat ∧
            current_keys (step s' o).1
            = pressed_after (foldl pressed_after (current_keys s) evs) o ∧
            latch_agrees h (step s' o).1)
  ∧ (∀ evs, Forall key_event evs →
            fires h (run s evs).2 = completions h (current_keys s) evs ∧
            latch_agrees h (run s evs).1)
  ∧ (∀ evs, hotkey_parts h ⊆ current_keys s →
            Forall key_event evs → Forall (λ o, ¬ releases_part h o) evs →
            fires h (run s evs).2 = 0%nat ∧ h ∈ triggered_hotkeys (run s evs).1)
  ∧ (∀ k evs, hotkey_parts h ⊆ current_keys s →
              _normalize_key k ∈ split "+" h →
              Forall (outside h) evs →
              let s' := (run s (OnRelease k :: evs)).1 in
              fires h (run s (OnRelease k :: evs)).2 = 0%nat ∧
              fires h (_on_press s' k).2 = 1%nat ∧
              h ∈ triggered_hotkeys (_on_press s' k).1).
Proof.
  intros Hrec Hreg Hag. split; [|split; [|split]].
  - intros evs o Hev Ho. cbv zeta.
    destruct (key_events_fire h evs s Hrec Hreg Hag Hev)
      as (_ & Hc & Hag1 & Hrec1 & Hh1).
    destruct (key_event_fires (run s evs).1 h o) as (Hf & Hc' & Hag2 & _);
      [done|by rewrite Hh1|done|done|].
    by rewrite Hf, Hc', Hc.
  - intros evs Hev.
    by destruct (key_events_fire h evs s Hrec Hreg Hag Hev) as (? & _ & ? & _).
  - intros evs Hsub Hkey Hrel.
    destruct (held_chord_silent h evs s Hrec) as (? & ? & _);
      [by apply Hag|done|done|done].
  - intros k evs Hsub Hk Hout. cbv zeta.
    assert (Forall key_event (OnRelease k :: evs)) as Hev.
    { constructor; [done|]. eapply Forall_impl; [done|].
      by intros [?|?| | | |]. }
    destruct (key_events_fire h _ s Hrec Hreg Hag Hev)
      as (_ & _ & _ & Hrec2 & Hh2).
    change (OnRelease k :: evs) with ([OnRelease k] ++ evs) in *.
    rewrite run_app in *. cbn [fst snd] in *.
    destruct (on_release_state s k) as (Hhk & Hcur & Htr & Hrc).
    destruct (Hrc Hrec) as [Hrec1 Hev1].
    assert (run s [OnRelease k] = ((_on_release s k).1, [])) as Hr1.
    { simpl. destruct (_on_release s k) as [s1 e1]. simpl in *. by subst. }
    rewrite Hr1 in *. cbn [fst snd app] in *.
    set (s1 := (_on_release s k).1) in *.
    destruct (outside_events_silent h evs s1) as (Hf & Hl & _ & _ & Hc2);
      [done| | |done|].
    { rewrite Htr. naive_solver. }
    { rewrite Hcur. intros Hs. rewrite hotkey_parts_subseteq in Hs.
      specialize (Hs _ Hk). set_solver. }
    set (s2 := (run s1 evs).1) in *.
    split; [done|].
    rewrite on_press_matching by done. cbn [fst snd triggered_hotkeys].
    assert (h ∈ firing (current_keys s2 ∪ {[_normalize_key k]})
                       (triggered_hotkeys s2) (elements (hotkeys s2))) as Hfire.
    { unfold firing. apply list_elem_of_filter. split; [split; [done|]|].
      - apply hotkey_parts_subseteq. intros p Hp.
        destruct (decide (p = _normalize_key k)) as [->|Hne]; [set_solver|].
        apply elem_of_union. left. apply Hc2; [done|]. rewrite Hcur.
        rewrite hotkey_parts_subseteq in Hsub. specialize (Hsub p Hp). set_solver.
      - apply elem_of_elements. by rewrite Hh2. }
    split.
    + rewrite fires_fmap_elem; [done| |done]. apply NoDup_filter, NoDup_elements.
    + apply elem_of_union. right. by apply elem_of_list_to_set.
Qed.

(** C9, the claim as written fails in states a detector reaches with no
    recording session active.  After a session was started while the chord
    was latched and ended by the release of another key, the pressed-key
    set is empty and the chord still latched: the press that completes the
    chord does not fire it.  And a chord registered while its keys are held
    is fired by the next press of any key. *)
Lemma stale_latch_blocks_chord :
  let ctrl := Key "ctrl" in
  let a := KeyCode_char "a" None in
  let b := KeyCode_char "b" None in
  let s := (run init [Register "ctrl+a"; OnPress ctrl; OnPress a;
                      StartRecording; OnRelease b]).1 in
  (recording s = false ∧ "a+ctrl" ∈ hotkeys s ∧ current_keys s = ∅ ∧
   (run s [OnPress ctrl; OnPress a]).2 = [] ∧
   hotkey_parts "a+ctrl" ⊆ current_keys (run s [OnPress ctrl; OnPress a]).1) ∧
  (run init [OnPress ctrl; OnPress a; Register "ctrl+a"; OnPress b]).2
  = [hotkey_triggered "a+ctrl"].
Proof.
  cbv zeta. split; [split; [|split; [|split; [|split]]]|].
  - vm_compute. reflexivity.
  - apply (bool_decide_unpack _). vm_compute. exact I.
  - vm_compute. reflexivity.
  - vm_compute. reflexivity.
  - apply (bool_decide_unpack _). vm_compute. exact I.
  - vm_compute. reflexivity.
Qed.
End ChordClaims.

Section NormalClaims.
Import PyStr HotkeyManager.

(** Where the two normalisations do agree: on the name of a special key
    that carries no delimiter and no surrounding white space. *)
Lemma key_name_agreement (name : string) :
  all_chars (λ a, a ≠ "+"%char) name → strip (lower name) = lower name →
  _normalize_hotkey_string name = _normalize_key (Key name).
Proof.
  intros Hplus Hstrip. unfold _normalize_hotkey_string, _normalize_key.
  rewrite split_no_sep.
  2:{ clear Hstrip. induction name as [|a name IH]; simpl in *; [done|].
      destruct Hplus as [Ha Hn]. split; [|by apply IH].
      by rewrite lower_char_plus. }
  cbn [map]. rewrite Hstrip, sorted_fixed by (by repeat constructor). done.
Qed.

(** C4, at the failing input: the chord string ["!"] is its own normal
    form, the live key whose character is ["!"] normalises to ["1"], and so
    the registered chord is not fired by the press of its own key. *)
Lemma shifted_symbol_chord_never_fires :
  _normalize_hotkey_string "!" = "!" ∧
  _normalize_key (KeyCode_char "!" None) = "1" ∧
  (run init [Register "!"; OnPress (Key "shift");
             OnPress (KeyCode_char "!" None)]).2 = [].
Proof. repeat split; vm_compute; reflexivity. Qed.

(** The example of the specification does hold: ["1"] is fired by the key
    that Shift+1 produces. *)
Lemma digit_chord_fired_by_shifted_symbol :
  (run init [Register "1"; OnPress (Key "shift");
             OnPress (KeyCode_char "!" None)]).2 = [hotkey_triggered "1"].
Proof. vm_compute. reflexivity. Qed.

(** A chord written in another order and casing is fired by the live
    presses of its keys. *)
Lemma reordered_chord_fires :
  (run init [Register "A + Ctrl"; OnPress (Key "ctrl_l");
             OnPress (KeyCode_char "a" None)]).2 = [hotkey_triggered "a+ctrl"].
Proof. vm_compute. reflexivity. Qed.
End NormalClaims.

Section ChordWitnesses.
Import HotkeyManager.

Ltac by_evaluation :=
  cbn beta; unfold key_event, releases_part, outside;
  lazymatch goal with
  | |- True => exact I
  | |- _ ≠ _ => discriminate
  | |- _ => apply (bool_decide_unpack _); vm_compute; exact I
  end.
Ltac each_event :=
  repeat (apply Forall_cons; split; [by_evaluation|]); apply Forall_nil_2.


(** [recording_session] in a session that has seen ctrl and then a, with a
    still pressed: the recorded chord keeps the press order. *)
Lemma recording_session_witness :
  let s := (run init [StartRecording; OnPress (Key "ctrl_l");
                      OnPress (KeyCode_char "a" None);
                      OnRelease (Key "ctrl_l")]).1 in
  recording s = true ∧
  (_on_press s (KeyCode_char "B" None)).2 = [] ∧
  (_on_release s (KeyCode_char "a" None)).2 = [recording_finished "ctrl+a"].
Proof.
  intros s.
  assert (recording s = true) as Hrec by (vm_compute; reflexivity).
  split; [exact Hrec|]. split.
  - exact (proj1 (proj1 (recording_session s (KeyCode_char "B" None) Hrec))).
  - assert (PyStr.join "+" (recorded_keys s) = "ctrl+a") as <-
      by (vm_compute; reflexivity).
    refine (proj1 (proj2 (recording_session s (KeyCode_char "a" None) Hrec) _)).
    vm_compute. reflexivity.
Defined.

(** [chord_edge_triggered] for the chord ctrl+a on a detector with no key
    pressed: over a run in which a completes the chord twice it fires
    twice, at the completing press of a and not at its repetition or at
    the presses of b; and with both keys held, releasing a, pressing b and
    pressing a again fires it at that last press only. *)
Lemma chord_edge_triggered_witness :
  let s := (run init [Register "Ctrl+A"]).1 in
  let ctrl := Key "ctrl" in
  let a := KeyCode_char "a" None in
  let b := KeyCode_char "b" None in
  let held := (run s [OnPress ctrl; OnPress a]).1 in
  recording s = false ∧ "a+ctrl" ∈ hotkeys s ∧ latch_agrees "a+ctrl" s ∧
  fires "a+ctrl" (run s [OnPress ctrl; OnPress b; OnPress a; OnPress a;
                         OnRelease b; OnRelease a; OnPress b; OnPress a]).2
  = 2%nat ∧
  fires "a+ctrl" (step (run s [OnPress ctrl; OnPress b]).1 (OnPress a)).2
  = 1%nat ∧
  fires "a+ctrl" (run held [OnPress a; OnPress b; OnRelease b]).2 = 0%nat ∧
  fires "a+ctrl" (run held [OnRelease a; OnPress b]).2 = 0%nat ∧
  fires "a+ctrl" (_on_press (run held [OnRelease a; OnPress b]).1 a).2 = 1%nat.
Proof.
  intros s ctrl a b held.
  assert (recording s = false) as Hrec by (vm_compute; reflexivity).
  assert ("a+ctrl" ∈ hotkeys s) as Hreg
    by (apply (bool_decide_unpack _); vm_compute; exact I).
  assert (latch_agrees "a+ctrl" s) as Hag
    by (apply fresh_latch_agrees; vm_compute; reflexivity).
  assert (recording held = false) as Hrec' by (vm_compute; reflexivity).
  assert ("a+ctrl" ∈ hotkeys held) as Hreg'
    by (apply (bool_decide_unpack _); vm_compute; exact I).
  assert (latch_agrees "a+ctrl" held) as Hag'.
  { refine (proj2 (proj1 (proj2 (chord_edge_triggered s "a+ctrl" Hrec Hreg Hag))
                         [OnPress ctrl; OnPress a] _)).
    each_event. }
  assert (hotkey_parts "a+ctrl" ⊆ current_keys held) as Hheld
    by (apply (bool_decide_unpack _); vm_compute; exact I).
  split; [exact Hrec|]. split; [exact Hreg|]. split; [exact Hag|].
  split; [|split; [|split; [|split]]].
  - refine (eq_trans
              (proj1 (proj1 (proj2 (chord_edge_triggered s "a+ctrl" Hrec Hreg Hag))
                            _ _)) _).
    + each_event.
    + vm_compute. reflexivity.
  - refine (eq_trans
              (proj1 (proj1 (chord_edge_triggered s "a+ctrl" Hrec Hreg Hag)
                            [OnPress ctrl; OnPress b] (OnPress a) _ _)) _).
    + each_event.
    + exact I.
    + vm_compute. reflexivity.
  - refine (proj1 (proj1 (proj2 (proj2
              (chord_edge_triggered held "a+ctrl" Hrec' Hreg' Hag')))
              _ Hheld _ _)).
    + each_event.
    + each_event.
  - refine (proj1 (proj2 (proj2 (proj2
              (chord_edge_triggered held "a+ctrl" Hrec' Hreg' Hag')))
              a [OnPress b] Hheld _ _)).
    + apply (bool_decide_unpack _). vm_compute. exact I.
    + each_event.
  - refine (proj1 (proj2 (proj2 (proj2 (proj2
              (chord_edge_triggered held "a+ctrl" Hrec' Hreg' Hag')))
              a [OnPress b] Hheld _ _))).
    + apply (bool_decide_unpack _). vm_compute. exact I.
    + each_event.
Defined.
End ChordWitnesses.

(** * Further properties of the code *)

Section PlaybackProofs.
Context {R : Type} `{Float32 R}.
Import AudioPlayer.
Variable sf_read : string → option (ndarray R * Z).
Variable resample : ndarray2 R → Z → option (ndarray2 R).

Lemma dict_get_del_ne (d : list (Z * Voice R)) (k k' : Z) :
  k ≠ k' → dict_get (dict_del d k) k' = dict_get d k'.
Proof.
  intros Hne. induction d as [|[k0 v0] d IH]; simpl; [done|].
  destruct (bool_decide (k0 = k)) eqn:Hk; simpl.
  - apply bool_decide_eq_true_1 in Hk as ->. by rewrite bool_decide_eq_false_2.
  - by rewrite IH.
Qed.

Lemma dict_get_None_keys (d : list (Z * Voice R)) (k : Z) :
  dict_get d k = None ↔ k ∉ d.*1.
Proof.
  induction d as [|[k0 v0] d IH]; simpl.
  - split; [intros _; apply not_elem_of_nil|done].
  - rewrite not_elem_of_cons. destruct (bool_decide (k0 = k)) eqn:Hk.
    + apply bool_decide_eq_true_1 in Hk as ->. naive_solver.
    + apply bool_decide_eq_false_1 in Hk. rewrite IH. naive_solver.
Qed.

Lemma dict_get_del_eq (d : list (Z * Voice R)) (k : Z) :
  NoDup d.*1 → dict_get (dict_del d k) k = None.
Proof.
  induction d as [|[k0 v0] d IH]; simpl; [done|].
  intros [Hk0 Hnd]%NoDup_cons.
  destruct (bool_decide (k0 = k)) eqn:Hk; simpl.
  - apply bool_decide_eq_true_1 in Hk as ->. by apply dict_get_None_keys.
  - rewrite Hk. by apply IH.
Qed.

Lemma dict_get_foldl_del (ks : list Z) :
  ∀ (d : list (Z * Voice R)) (k : Z),
  k ∉ ks → dict_get (foldl dict_del d ks) k = dict_get d k.
Proof.
  induction ks as [|k0 ks IH]; intros d k Hk; simpl; [done|].
  apply not_elem_of_cons in Hk as [Hne Hk].
  rewrite IH by done. by apply dict_get_del_ne.
Qed.

Lemma dict_get_elem (d : list (Z * Voice R)) (k : Z) (v : Voice R) :
  NoDup d.*1 → (k, v) ∈ d → dict_get d k = Some v.
Proof.
  induction d as [|[k0 v0] d IH]; simpl; intros Hnd Hin.
  - by apply elem_of_nil in Hin.
  - apply NoDup_cons in Hnd as [Hk0 Hnd].
    apply elem_of_cons in Hin as [Heq|Hin].
    + injection Heq as -> ->. by rewrite bool_decide_eq_true_2.
    + rewrite bool_decide_eq_false_2; [by apply IH|].
      intros ->. apply Hk0. apply list_elem_of_fmap. by exists (k, v).
Qed.

(** What the mixing loop does to the table, whatever the buffers hold:
    same identifiers in the same order, paused voices untouched, and only
    voices that are not paused are marked finished. *)
Lemma mix_loop_table (frames : nat) (master : R) (todo : list (Z * Voice R)) :
  ∀ (mixed : list (list R)) (fin : list Z),
  let d := (mix_loop frames master todo mixed fin).1 in
  d.*1 = todo.*1 ∧
  (∀ kv, kv ∈ todo → paused kv.2 = true → kv ∈ d) ∧
  match (mix_loop frames master todo mixed fin).2 with
  | Mixed _ fin' =>
      ∀ id, id ∈ fin' → id ∈ fin ∨ ∃ v, (id, v) ∈ d ∧ paused v = false
  | Raised => True
  end.
Proof.
  induction todo as [|[id v] todo IH]; intros mixed fin; simpl.
  { split; [done|]. split; [done|]. auto. }
  destruct (paused v) eqn:Hpa.
  { specialize (IH mixed fin).
    destruct (mix_loop frames master todo mixed fin) as [d r]. simpl in *.
    destruct IH as (Hk & Hp & Hf). split; [by f_equal|]. split.
    - intros kv [->|Hin]%elem_of_cons Hkv; [left|right; by apply Hp].
    - destruct r as [m f|]; [|done]. intros i Hi.
      destruct (Hf i Hi) as [?|(v' & Hin & Hv')]; [by left|right].
      exists v'. split; [by right|done]. }
  assert (∀ (m : list (list R)) (f : list Z) (v' : Voice R),
            paused v' = false →
            let d := (let '(d, r) := mix_loop frames master todo m
                        (if Z.of_nat (length (rows (samples v))) <=? position v'
                         then f ++ [id] else f) in ((id, v') :: d, r)).1 in
            d.*1 = id :: todo.*1 ∧
            (∀ kv, kv ∈ (id, v) :: todo → paused kv.2 = true → kv ∈ d) ∧
            match (let '(d, r) := mix_loop frames master todo m
                        (if Z.of_nat (length (rows (samples v))) <=? position v'
                         then f ++ [id] else f) in ((id, v') :: d, r)).2 with
            | Mixed _ fin' =>
                ∀ i, i ∈ fin' → i ∈ f ∨ ∃ w, (i, w) ∈ d ∧ paused w = false
            | Raised => True
            end) as Hstep.
  { intros m f v' Hv'.
    match goal with |- context [mix_loop frames master todo m ?f'] =>
      specialize (IH m f'); destruct (mix_loop frames master todo m f') as [d r] end.
    simpl in *. destruct IH as (Hk & Hp & Hf). split; [by f_equal|]. split.
    - intros kv [->|Hin]%elem_of_cons Hkv; [simpl in Hkv; congruence|].
      right. by apply Hp.
    - destruct r as [m' f'|]; [|done]. intros i Hi.
      destruct (Hf i Hi) as [Hif|(w & Hin & Hw)].
      + destruct (_ <=? _).
        * apply elem_of_app in Hif as [?|Hid]; [by left|].
          apply list_elem_of_singleton in Hid as ->.
          right. exists v'. split; [left|done].
        * by left.
      + right. exists w. split; [by right|done]. }
  destruct (0 <? _) eqn:Hc.
  - destruct (iadd_prefix _ _ _ _) as [mixed'|]; simpl.
    + exact (Hstep mixed' fin (mkVoice (samples v) _ (volume v) (file_path v) false)
                   eq_refl).
    + split; [done|]. split; [|done]. intros kv Hin _. done.
  - exact (Hstep mixed fin v Hpa).
Qed.

(** One callback leaves a paused voice exactly as it was. *)
Lemma callback_keeps_paused (self : t R) (frames : nat) (id : Z) (v : Voice R) :
  NoDup (active_sounds self).*1 →
  dict_get (active_sounds self) id = Some v → paused v = true →
  NoDup (active_sounds (_audio_callback self frames).1).*1 ∧
  dict_get (active_sounds (_audio_callback self frames).1) id = Some v.
Proof.
  intros Hnd Hg Hp. unfold _audio_callback.
  pose proof (mix_loop_table frames (master_volume self) (active_sounds self)
                (zeros frames CHANNELS) []) as Hl.
  simpl in Hl.
  destruct (mix_loop _ _ _ _ _) as [d [mixed fin|]]; simpl in *;
    destruct Hl as (Hk & Hpa & Hf).
  - assert (NoDup d.*1) as Hnd' by (by rewrite Hk).
    assert ((id, v) ∈ d) as Hin
      by (apply (Hpa (id, v)); [by apply dict_get_Some_elem|done]).
    split.
    + by apply (foldl_dict_del_ok (λ _, True)); [|apply Forall_true].
    + rewrite dict_get_foldl_del; [by apply dict_get_elem|].
      intros Hfin. destruct (Hf id Hfin) as [Hnil|(w & Hw & Hpw)].
      * by apply elem_of_nil in Hnil.
      * pose proof (dict_get_elem d id v Hnd' Hin) as H1.
        pose proof (dict_get_elem d id w Hnd' Hw) as H2. congruence.
  - assert (NoDup d.*1) as Hnd' by (by rewrite Hk). split; [done|].
    apply dict_get_elem; [done|].
    apply (Hpa (id, v)); [by apply dict_get_Some_elem|done].
Qed.

(** X1. A paused voice keeps its cursor through any number of mix callbacks
    of any sizes, and resuming it afterwards continues from that cursor. *)
Theorem paused_voice_keeps_cursor (self : t R) (sizes : list nat)
        (id : Z) (v : Voice R) :
  NoDup (active_sounds self).*1 →
  dict_get (active_sounds self) id = Some v → paused v = true →
  let self' := (run sf_read resample self (Callback <$> sizes)).1 in
  dict_get (active_sounds self') id = Some v ∧
  (toggle_pause_sound self' id).2 = false ∧
  dict_get (active_sounds (toggle_pause_sound self' id).1) id
    = Some (mkVoice (samples v) (position v) (volume v) (file_path v) false).
Proof.
  intros Hnd Hg Hp. simpl.
  assert (NoDup (active_sounds (run sf_read resample self (Callback <$> sizes)).1).*1 ∧
          dict_get (active_sounds (run sf_read resample self (Callback <$> sizes)).1) id
          = Some v) as [_ Hg'].
  { revert self Hnd Hg. induction sizes as [|n sizes IH]; intros self Hnd Hg; [done|].
    cbn [fmap list_fmap run step].
    destruct (callback_keeps_paused self n id v Hnd Hg Hp) as [Hnd1 Hg1].
    specialize (IH _ Hnd1 Hg1).
    by destruct (run sf_read resample (_audio_callback self n).1 (Callback <$> sizes)). }
  split; [done|]. unfold toggle_pause_sound. rewrite Hg'. simpl.
  rewrite Hp. split; [done|]. apply dict_get_set_eq.
Qed.

(** *** Draining *)

Lemma table_after_lookup (frames : nat) (d : list (Z * Voice R)) (id : Z) :
  NoDup d.*1 →
  dict_get (table_after frames d) id =
    match dict_get d id with
    | Some v => if finished (advance frames v) then None else Some (advance frames v)
    | None => None
    end.
Proof.
  unfold table_after.
  induction d as [|[k v] d IH]; simpl; [done|].
  intros [Hk Hnd]%NoDup_cons. specialize (IH Hnd).
  destruct (bool_decide (k = id)) eqn:Hkid.
  - apply bool_decide_eq_true_1 in Hkid as ->.
    destruct (finished (advance frames v)); simpl.
    + rewrite IH. apply dict_get_None_keys in Hk. by rewrite Hk.
    + by rewrite bool_decide_eq_true_2.
  - destruct (finished (advance frames v)); simpl; [done|]. by rewrite Hkid.
Qed.

Lemma table_after_stereo (frames : nat) (d : list (Z * Voice R)) :
  NoDup d.*1 → Forall (λ kv, stereo_voice kv.2) d →
  NoDup (table_after frames d).*1 ∧
  Forall (λ kv, stereo_voice kv.2) (table_after frames d).
Proof.
  unfold table_after.
  induction d as [|[k v] d IH]; simpl; [done|].
  intros [Hk Hnd]%NoDup_cons [Hv Hall]%Forall_cons.
  destruct (IH Hnd Hall) as [IH1 IH2].
  destruct (finished (advance frames v)); simpl; [done|]. split.
  - apply NoDup_cons. split; [|done]. intros Hin. apply Hk.
    apply list_elem_of_fmap in Hin as [kv [-> Hin]].
    apply list_elem_of_In, filter_In in Hin as [Hin _].
    apply in_map_iff in Hin as [kv' [<- Hin]]. simpl.
    apply list_elem_of_fmap. exists kv'. split; [done|by apply list_elem_of_In].
  - apply Forall_cons. split; [|done]. simpl in *.
    destruct Hv as [Hc Hp]. unfold advance. destruct (paused v); [done|].
    split; [done|]. simpl. unfold copied, voice_len in *. simpl. lia.
Qed.

Lemma callbacks_stereo (frames : nat) (k : nat) (self : t R) :
  NoDup (active_sounds self).*1 →
  Forall (λ kv, stereo_voice kv.2) (active_sounds self) →
  NoDup (active_sounds (callbacks frames k self)).*1 ∧
  Forall (λ kv, stereo_voice kv.2) (active_sounds (callbacks frames k self)).
Proof.
  intros Hnd Hall. induction k as [|k [IH1 IH2]]; [done|].
  unfold callbacks in *. simpl.
  rewrite audio_callback_stereo by done. simpl. by apply table_after_stereo.
Qed.

Lemma advance_at_position (frames : nat) (v : Voice R) (p : Z) :
  paused v = false → 0 ≤ p ≤ voice_len v →
  (if finished (advance frames (at_position v p)) then None
   else Some (advance frames (at_position v p)))
  = (if p + Z.of_nat frames <? voice_len v
     then Some (at_position v (p + Z.of_nat frames)) else None).
Proof.
  destruct v as [smp pos vol path pa]. simpl. intros -> Hp.
  unfold finished, advance, at_position, copied, voice_len in *. simpl in *.
  set (len := Z.of_nat (length (rows smp))) in *.
  destruct (Z.ltb_spec (p + Z.of_nat frames) len) as [Hlt|Hge].
  - rewrite (proj2 (Z.leb_gt _ _)) by lia. do 2 f_equal. lia.
  - by rewrite (proj2 (Z.leb_le _ _)) by lia.
Qed.

(** X2. An unpaused voice on a table of stereo voices moves by [frames] per
    callback while that stays inside its buffer, and is gone from the table
    after the first callback that reaches the end. *)
Theorem voice_drains (self : t R) (frames k : nat) (id : Z) (v : Voice R) :
  NoDup (active_sounds self).*1 →
  Forall (λ kv, stereo_voice kv.2) (active_sounds self) →
  dict_get (active_sounds self) id = Some v → paused v = false →
  dict_get (active_sounds (callbacks frames (S k) self)) id =
    if position v + Z.of_nat (S k) * Z.of_nat frames <? voice_len v
    then Some (at_position v (position v + Z.of_nat (S k) * Z.of_nat frames))
    else None.
Proof.
  intros Hnd Hall Hg Hp.
  assert (0 ≤ position v ≤ voice_len v) as Hpos.
  { apply dict_get_Some_elem in Hg. rewrite Forall_forall in Hall.
    by apply Hall in Hg as [_ ?]. }
  assert (∀ j, dict_get (active_sounds (callbacks frames j self)) id =
               if bool_decide (j = 0%nat)
                  || (position v + Z.of_nat j * Z.of_nat frames <? voice_len v)
               then Some (at_position v (position v + Z.of_nat j * Z.of_nat frames))
               else None) as Hgen.
  { induction j as [|j IH].
    - simpl. rewrite Hg. f_equal. clear. destruct v. unfold at_position.
      simpl. f_equal. lia.
    - destruct (callbacks_stereo frames j self Hnd Hall) as [Hndj Hallj].
      change (callbacks frames (S j) self)
        with ((_audio_callback (callbacks frames j self) frames).1).
      rewrite audio_callback_stereo by done. cbn [fst active_sounds].
      rewrite table_after_lookup by done. rewrite IH.
      rewrite (bool_decide_eq_false_2 (S j = 0%nat)) by done. cbn [orb].
      destruct (bool_decide (j = 0%nat)
                || (position v + Z.of_nat j * Z.of_nat frames <? voice_len v))
        eqn:Hj.
      + assert (position v + Z.of_nat j * Z.of_nat frames ≤ voice_len v) as Hle.
        { apply orb_true_iff in Hj as [Hj|Hj].
          - apply bool_decide_eq_true_1 in Hj as ->. lia.
          - apply Z.ltb_lt in Hj. lia. }
        rewrite advance_at_position by (done || lia).
        replace (position v + Z.of_nat (S j) * Z.of_nat frames)
          with (position v + Z.of_nat j * Z.of_nat frames + Z.of_nat frames)
          by lia.
        done.
      + apply orb_false_iff in Hj as [_ Hj]. apply Z.ltb_ge in Hj.
        rewrite (proj2 (Z.ltb_ge _ _)); [done|]. lia. }
  rewrite Hgen. by rewrite (bool_decide_eq_false_2 (S k = 0%nat)).
Qed.

(** *** Silence *)

Lemma mix_loop_all_paused (frames : nat) (master : R) (todo : list (Z * Voice R))
      (mixed : list (list R)) (fin : list Z) :
  Forall (λ kv, paused kv.2 = true) todo →
  mix_loop frames master todo mixed fin = (todo, Mixed mixed fin).
Proof.
  induction 1 as [|[id v] todo Hv Hall IH]; [done|].
  simpl in *. by rewrite Hv, IH.
Qed.

(** X3. When no voice is running (the table is empty or every voice is
    paused) the callback writes silence and keeps the table; in particular
    the block after [stop_all] is silent. *)
Theorem silence_when_nothing_runs (self : t R) (frames : nat) :
  Forall (λ kv, paused kv.2 = true) (active_sounds self) →
  (_audio_callback self frames).2 = Some (zeros frames CHANNELS) ∧
  active_sounds (_audio_callback self frames).1 = active_sounds self ∧
  _audio_callback (stop_all self) frames
    = (stop_all self, Some (zeros frames CHANNELS)).
Proof.
  intros Hall. unfold _audio_callback.
  rewrite mix_loop_all_paused by done. done.
Qed.

(** *** The shape of a block *)

Lemma zip_rows_shape (l c : list (list R)) :
  Forall (λ r, length r = CHANNELS) l →
  Forall (λ r, length r = CHANNELS) c →
  Forall (λ r, length r = CHANNELS) (zip_with (zip_with f32_add) l c).
Proof.
  intros Hl. revert c. induction Hl as [|r l Hr Hl IH]; intros [|x c] Hc;
    simpl; try done.
  apply Forall_cons in Hc as [Hx Hc]. constructor; [|by apply IH].
  rewrite length_zip_with. lia.
Qed.

Lemma accumulate_shape (frames : nat) (mixed chunk : list (list R)) :
  length mixed = frames → (length chunk ≤ frames)%nat →
  Forall (λ r, length r = CHANNELS) mixed →
  Forall (λ r, length r = CHANNELS) chunk →
  length (accumulate mixed chunk) = frames ∧
  Forall (λ r, length r = CHANNELS) (accumulate mixed chunk).
Proof.
  intros Hlen Hle Hm Hc. split; [rewrite length_accumulate; lia|].
  unfold accumulate. apply Forall_app. split; [|by apply Forall_drop].
  apply zip_rows_shape; [by apply Forall_take|done].
Qed.

(** X4. On stereo voices whose rows hold two samples each, the block the
    callback writes has exactly [frames] rows of two samples. *)
Theorem mixed_block_shape (self : t R) (frames : nat) :
  NoDup (active_sounds self).*1 →
  Forall (λ kv, stereo_voice kv.2 ∧ rows_stereo kv.2) (active_sounds self) →
  ∃ out, (_audio_callback self frames).2 = Some out ∧
         length out = frames ∧ Forall (λ r, length r = CHANNELS) out.
Proof.
  intros Hnd Hall.
  rewrite audio_callback_stereo; [|done|by eapply Forall_impl; [done|]; intros ? [? _]].
  eexists. split; [done|]. unfold mix_of.
  assert (length (zeros (R:=R) frames CHANNELS) = frames ∧
          Forall (λ r, length r = CHANNELS) (zeros (R:=R) frames CHANNELS))
    as Hz.
  { unfold zeros. rewrite length_replicate. split; [done|].
    apply Forall_replicate. by rewrite length_replicate. }
  revert Hz. generalize (zeros (R:=R) frames CHANNELS).
  clear Hnd. induction Hall as [|[id v] d [Hs Hr] Hall IH]; intros mixed Hm; [done|].
  cbn [foldl snd]. apply IH. destruct (paused v); [done|].
  destruct Hm as [Hlen Hw].
  apply accumulate_shape; [done| |done|].
  - rewrite length_contribution by apply Hs. apply copied_le_frames.
  - unfold contribution. apply Forall_fmap, Forall_take, Forall_drop.
    eapply Forall_impl; [exact Hr|]. intros r Hlr. simpl. by rewrite length_map.
Qed.

(** *** The cache *)

(** X5. Once a path has loaded, loading it again returns the same buffer and
    changes nothing, whatever the decoder would now say; the entries of
    other paths are as they were. *)
Theorem cache_hit_skips_decoder (self self' : t R) (path : string)
        (buf : ndarray2 R) :
  load_audio sf_read resample self path = (self', Some buf) →
  (∀ sf_read' resample', load_audio sf_read' resample' self' path = (self', Some buf)) ∧
  (∀ other, other ≠ path →
            _audio_cache self' !! other = _audio_cache self !! other) ∧
  active_sounds self' = active_sounds self.
Proof.
  unfold load_audio. intros Hload.
  destruct (_audio_cache self !! path) as [b|] eqn:Hc.
  - injection Hload as <- <-. split; [|done]. intros. by rewrite Hc.
  - destruct (decode sf_read resample path) as [b|]; [|done].
    injection Hload as <- <-. simpl. split; [|split; [|done]].
    + intros. by rewrite lookup_insert_eq.
    + intros other Hne. by rewrite lookup_insert_ne.
Qed.

(** X6. [clear_cache] forgets every buffer, so the next load of any path
    runs the decoder again, while the voices that are playing keep their
    own samples: the next block is the same with or without the clearing. *)
Theorem clear_cache_spares_voices (self : t R) (path : string) (frames : nat) :
  (load_audio sf_read resample (clear_cache self) path).2
    = decode sf_read resample path ∧
  active_sounds (clear_cache self) = active_sounds self ∧
  _audio_callback (clear_cache self) frames
    = (clear_cache (_audio_callback self frames).1, (_audio_callback self frames).2).
Proof.
  split; [|split; [done|]].
  - unfold load_audio, clear_cache. simpl. rewrite lookup_empty.
    by destruct (decode sf_read resample path).
  - unfold _audio_callback. simpl.
    by destruct (mix_loop _ _ _ _ _) as [d [mixed fin|]].
Qed.

(** *** Master gain *)

(** X7. For a gain type that [<] orders strictly and totally,
    [set_master_volume] stores the value clamped to the interval from 0.0
    to 2.0. *)
Theorem set_master_volume_clamps (self : t R) (vol : R) :
  (∀ x y : R, f32_ltb x y = true → f32_ltb y x = false) →
  (∀ x y z : R, f32_ltb x y = true → f32_ltb y z = true → f32_ltb x z = true) →
  (∀ x y : R, f32_ltb x y = false → f32_ltb y x = false → x = y) →
  f32_ltb (f32_zero : R) f32_two = true →
  let m := master_volume (set_master_volume self vol) in
  f32_ltb m f32_zero = false ∧ f32_ltb f32_two m = false ∧
  (f32_ltb vol f32_zero = true → m = f32_zero) ∧
  (f32_ltb f32_two vol = true → m = f32_two) ∧
  (f32_ltb vol f32_zero = false → f32_ltb f32_two vol = false → m = vol).
Proof.
  intros Hasym Htrans Htri H02. simpl. unfold py_max, py_min.
  assert (∀ x : R, f32_ltb x x = false) as Hirr.
  { intros x. destruct (f32_ltb x x) eqn:Hx; [|done]. by rewrite (Hasym x x Hx) in Hx. }
  destruct (f32_ltb vol f32_two) eqn:Hv2.
  - destruct (f32_ltb f32_zero vol) eqn:H0v.
    + split; [by apply Hasym|]. split; [by apply Hasym|]. split; [|split; [|done]].
      * intros Hc. by rewrite (Hasym _ _ H0v) in Hc.
      * intros Hc. by rewrite (Hasym _ _ Hv2) in Hc.
    + split; [done|]. split; [by apply Hasym|]. split; [done|]. split.
      * intros Hc. by rewrite (Hasym _ _ Hv2) in Hc.
      * intros Hc _. symmetry. by apply Htri.
  - rewrite H02. split; [by apply Hasym|]. split; [done|]. split; [|split; [done|]].
    + intros Hc. by rewrite (Htrans _ _ _ Hc H02) in Hv2.
    + intros _ Hc. symmetry. by apply Htri.
Qed.

(** *** Transport on reachable tables *)

(** X8. In every state the engine reaches from its initial one, the
    identifiers in the table are distinct and not above the counter, and
    every cursor is inside its buffer. *)
Theorem engine_tables_well_formed (ops : list (op R)) :
  let self := (run sf_read resample init ops).1 in
  NoDup (active_sounds self).*1 ∧
  Forall (λ kv, kv.1 ≤ sound_id_counter self ∧
                0 ≤ position kv.2 ≤ voice_len kv.2) (active_sounds self).
Proof. apply (run_table_ok sf_read resample ops init), init_table_ok. Qed.

(** X9. After any run, [play_sound] with [overlap=True] on a file that loads
    puts the new voice last under the next identifier and leaves every
    voice already in the table where and as it was. *)
Theorem play_with_overlap_appends (ops : list (op R)) (path : string)
        (vol : R) (buf : ndarray2 R) :
  let self := (run sf_read resample init ops).1 in
  (load_audio sf_read resample self path).2 = Some buf →
  ∃ self',
    play_sound sf_read resample self path vol true
      = (self', Some (sound_id_counter self + 1)) ∧
    active_sounds self'
      = active_sounds self
        ++ [(sound_id_counter self + 1, mkVoice buf 0 vol path false)] ∧
    is_playing self' = true.
Proof.
  simpl. intros Hload.
  pose proof (run_table_ok sf_read resample ops init init_table_ok) as [_ Hall].
  set (self := (run sf_read resample init ops).1) in *.
  unfold play_sound.
  destruct (load_audio_table sf_read resample self path) as (Ha & Hc & _).
  destruct (load_audio sf_read resample self path) as [s1 [b|]];
    simpl in *; [|done].
  injection Hload as ->. eexists. rewrite Hc. split; [done|]. simpl.
  split; [|done]. rewrite Ha. apply dict_set_absent.
  intros Hin. apply list_elem_of_fmap in Hin as [kv [Hk Hin]].
  rewrite Forall_forall in Hall. apply Hall in Hin as [Hle _]. lia.
Qed.

(** X10. After any run, [stop_sound] removes the voice with that identifier,
    leaves every other voice as it was and sets [is_playing] to whether a
    voice is left. *)
Theorem stop_sound_removes_voice (ops : list (op R)) (sound_id : Z) :
  let self := (run sf_read resample init ops).1 in
  dict_get (active_sounds (stop_sound self sound_id)) sound_id = None ∧
  (∀ id', id' ≠ sound_id →
          dict_get (active_sounds (stop_sound self sound_id)) id'
          = dict_get (active_sounds self) id') ∧
  (is_playing (stop_sound self sound_id) = true
   ↔ active_sounds (stop_sound self sound_id) ≠ []).
Proof.
  simpl.
  pose proof (run_table_ok sf_read resample ops init init_table_ok) as [Hnd _].
  set (self := (run sf_read resample init ops).1) in *.
  unfold stop_sound, dict_mem. simpl.
  destruct (dict_get (active_sounds self) sound_id) as [v|] eqn:Hg.
  - rewrite bool_decide_eq_true_2 by eauto. split; [by apply dict_get_del_eq|].
    split; [intros; by apply dict_get_del_ne|].
    rewrite bool_decide_eq_true. destruct (dict_del _ _); simpl; [|split; [done|lia]].
    split; [lia|done].
  - rewrite bool_decide_eq_false_2 by (by intros [? ?]). split; [done|].
    split; [done|].
    rewrite bool_decide_eq_true. destruct (active_sounds self); simpl; [|split; [done|lia]].
    split; [lia|done].
Qed.

Lemma dict_set_set (d : list (Z * Voice R)) (k : Z) (v1 v2 : Voice R) :
  dict_set (dict_set d k v1) k v2 = dict_set d k v2.
Proof.
  induction d as [|[k0 v0] d IH]; simpl.
  - by rewrite bool_decide_eq_true_2.
  - destruct (bool_decide (k0 = k)) eqn:Hk; simpl.
    + by rewrite bool_decide_eq_true_2.
    + by rewrite Hk, IH.
Qed.

Lemma dict_set_same (d : list (Z * Voice R)) (k : Z) (v : Voice R) :
  dict_get d k = Some v → dict_set d k v = d.
Proof.
  induction d as [|[k0 v0] d IH]; simpl; [done|].
  destruct (bool_decide (k0 = k)) eqn:Hk.
  - apply bool_decide_eq_true_1 in Hk as ->. by intros [= ->].
  - intros Hg. by rewrite IH.
Qed.

(** X11. Pausing and resuming is a round trip: two calls of
    [toggle_pause_sound] with the same identifier give back the state they
    started from, and the second returns the flag the voice had. *)
Theorem toggle_pause_twice (self : t R) (sound_id : Z) :
  (toggle_pause_sound (toggle_pause_sound self sound_id).1 sound_id).1 = self ∧
  (∀ v, dict_get (active_sounds self) sound_id = Some v →
        (toggle_pause_sound (toggle_pause_sound self sound_id).1 sound_id).2
        = paused v).
Proof.
  unfold toggle_pause_sound.
  destruct (dict_get (active_sounds self) sound_id) as [v|] eqn:Hg; simpl.
  - rewrite dict_get_set_eq. simpl. rewrite dict_set_set, negb_involutive.
    split; [|by intros ? [= ->]].
    rewrite voice_eta. rewrite (dict_set_same _ _ _ Hg). by destruct self.
  - rewrite Hg. done.
Qed.
End PlaybackProofs.

Section PlaybackWitnesses.
Import AudioPlayer.

Ltac by_computation := vm_compute; reflexivity.
Ltac nodup_by_computation := apply (bool_decide_unpack _); vm_compute; exact I.

(** [paused_voice_keeps_cursor]: voice 1 is paused after one block, voice 2
    plays on. *)
Lemma paused_voice_keeps_cursor_witness :
  let self := (demo_run [Play "mono.wav" 1 true; Play "stereo.wav" 1 true;
                         Callback 1; TogglePause 1]).1 in
  let v := mkVoice (Arr2 2 [[10; 10]; [20; 20]; [30; 30]]) 1 1 "mono.wav" true in
  dict_get (active_sounds
              (run demo_read demo_resample self (Callback <$> [1; 5; 2]%nat)).1) 1
  = Some v.
Proof.
  intros self v.
  refine (proj1 (paused_voice_keeps_cursor demo_read demo_resample self
                   [1; 5; 2]%nat 1 v _ _ _)).
  - nodup_by_computation.
  - by_computation.
  - reflexivity.
Defined.

(** [voice_drains]: three frames in blocks of two are gone after the second
    block. *)
Lemma voice_drains_witness :
  let self := (demo_run [Play "mono.wav" 1 true]).1 in
  dict_get (active_sounds (callbacks 2 1 self)) 1
    = Some (mkVoice (Arr2 2 [[10; 10]; [20; 20]; [30; 30]]) 2 1 "mono.wav" false)
  ∧ dict_get (active_sounds (callbacks 2 2 self)) 1 = None.
Proof.
  intros self.
  set (v := mkVoice (Arr2 2 [[10; 10]; [20; 20]; [30; 30]]) 0 1 "mono.wav" false).
  assert (NoDup (active_sounds self).*1) as Hnd by nodup_by_computation.
  assert (Forall (λ kv, stereo_voice kv.2) (active_sounds self)) as Hall.
  { repeat constructor; vm_compute; congruence. }
  assert (dict_get (active_sounds self) 1 = Some v) as Hg by by_computation.
  split.
  - exact (voice_drains self 2 0 1 v Hnd Hall Hg eq_refl).
  - exact (voice_drains self 2 1 1 v Hnd Hall Hg eq_refl).
Defined.

(** [silence_when_nothing_runs]: the only voice is paused. *)
Lemma silence_when_nothing_runs_witness :
  let self := (demo_run [Play "mono.wav" 1 true; TogglePause 1]).1 in
  (_audio_callback self 3).2 = Some [[0; 0]; [0; 0]; [0; 0]].
Proof.
  intros self. refine (proj1 (silence_when_nothing_runs self 3 _)).
  repeat constructor.
Defined.

(** [mixed_block_shape]: two voices, a block of four frames. *)
Lemma mixed_block_shape_witness :
  let self := (demo_run [Play "mono.wav" 2 true; Play "stereo.wav" 3 true]).1 in
  ∃ out, (_audio_callback self 4).2 = Some out ∧
         length out = 4%nat ∧ Forall (λ r, length r = CHANNELS) out.
Proof.
  intros self. apply (mixed_block_shape self 4).
  - nodup_by_computation.
  - repeat constructor; vm_compute; congruence.
Defined.

(** [cache_hit_skips_decoder]: a second load through a decoder that knows
    no file at all. *)
Lemma cache_hit_skips_decoder_witness :
  let self' := (load_audio demo_read demo_resample init "mono.wav").1 in
  load_audio (λ _, None) (λ _ _, None) self' "mono.wav"
  = (self', Some (Arr2 2 [[10; 10]; [20; 20]; [30; 30]])).
Proof.
  intros self'.
  refine (proj1 (cache_hit_skips_decoder demo_read demo_resample init self'
                   "mono.wav" _ _) _ _).
  by_computation.
Defined.

(** [set_master_volume_clamps] on integer gains: 5 is stored as 2. *)
Lemma set_master_volume_clamps_witness :
  master_volume (set_master_volume (init (R:=Z)) 5) = 2.
Proof.
  refine (proj1 (proj2 (proj2 (proj2
            (set_master_volume_clamps (init (R:=Z)) 5 _ _ _ _)))) _).
  - intros x y. simpl. rewrite Z.ltb_lt, Z.ltb_ge. lia.
  - intros x y z. simpl. rewrite !Z.ltb_lt. lia.
  - intros x y. simpl. rewrite !Z.ltb_ge. lia.
  - reflexivity.
  - reflexivity.
Defined.

(** [play_with_overlap_appends] while one voice is playing. *)
Lemma play_with_overlap_appends_witness :
  ∃ self',
    play_sound demo_read demo_resample
      (demo_run [Play "mono.wav" 1 true; Callback 1]).1 "stereo.wav" 3 true
    = (self', Some 2) ∧
    active_sounds self'
    = [(1, mkVoice (Arr2 2 [[10; 10]; [20; 20]; [30; 30]]) 1 1 "mono.wav" false);
       (2, mkVoice (Arr2 2 [[1; 2]; [3; 4]]) 0 3 "stereo.wav" false)].
Proof.
  destruct (play_with_overlap_appends demo_read demo_resample
              [Play "mono.wav" 1 true; Callback 1] "stereo.wav" 3
              (Arr2 2 [[1; 2]; [3; 4]])) as (self' & Hplay & Htable & _).
  { by_computation. }
  exists self'. split; [exact Hplay|]. rewrite Htable. by_computation.
Defined.
End PlaybackWitnesses.

Section DetectorProofs.
Import PyStr HotkeyManager.

Lemma fires_zero (h : string) (evs : list event) :
  hotkey_triggered h ∉ evs → fires h evs = 0%nat.
Proof.
  unfold fires. induction evs as [|e evs IH]; intros Hh; [done|].
  apply not_elem_of_cons in Hh as [Hne Hh].
  rewrite filter_cons_False by congruence. by apply IH.
Qed.

(** What a press can emit, in or out of a recording session. *)
Lemma press_events (s : t) (k : key) (e : event) :
  e ∈ (_on_press s k).2 →
  ∃ h, e = hotkey_triggered h ∧ recording s = false ∧ h ∈ hotkeys s ∧
       (h ∉ triggered_hotkeys s) ∧
       hotkey_parts h ⊆ current_keys s ∪ {[_normalize_key k]}.
Proof.
  destruct (recording s) eqn:Hrec.
  - unfold _on_press. rewrite Hrec. simpl. by intros ?%elem_of_nil.
  - rewrite on_press_matching by done. simpl.
    intros [h [-> Hh]]%list_elem_of_fmap. exists h. unfold firing in Hh.
    apply list_elem_of_filter in Hh as [[Hl Hsub] Hreg].
    apply elem_of_elements in Hreg. done.
Qed.

Lemma press_state (s : t) (k : key) :
  hotkeys (_on_press s k).1 = hotkeys s ∧
  recording (_on_press s k).1 = recording s ∧
  current_keys (_on_press s k).1 = current_keys s ∪ {[_normalize_key k]}.
Proof.
  destruct (recording s) eqn:Hrec.
  - unfold _on_press. rewrite Hrec. simpl. split; [done|]. split; [done|].
    case_bool_decide; [done|]. set_solver.
  - by rewrite on_press_matching.
Qed.

Lemma release_events (s : t) (k : key) (e : event) :
  e ∈ (_on_release s k).2 →
  e = recording_finished (join "+" (recorded_keys s)) ∧ recording s = true ∧
  current_keys s ∖ {[_normalize_key k]} = ∅.
Proof.
  unfold _on_release.
  assert ((if bool_decide (_normalize_key k ∈ current_keys s)
           then current_keys s ∖ {[_normalize_key k]} else current_keys s)
          = current_keys s ∖ {[_normalize_key k]}) as ->.
  { case_bool_decide; [done|]. set_solver. }
  destruct (recording s); simpl; [|by intros ?%elem_of_nil].
  case_bool_decide as He; simpl; [|by intros ?%elem_of_nil].
  by intros ->%list_elem_of_singleton.
Qed.

(** X12. A trigger event is emitted only by a press outside a recording
    session, and only for a registered chord that was not latched and whose
    tokens are all pressed once the key is counted in; a press emits
    nothing else, and a release never emits a trigger. *)
Theorem triggers_are_registered_chords (s : t) (k : key) :
  (∀ e, e ∈ (_on_press s k).2 →
        ∃ h, e = hotkey_triggered h ∧ recording s = false ∧ h ∈ hotkeys s ∧
             (h ∉ triggered_hotkeys s) ∧
             hotkey_parts h ⊆ current_keys (_on_press s k).1) ∧
  (∀ h, hotkey_triggered h ∉ (_on_release s k).2).
Proof.
  split.
  - intros e He. destruct (press_events s k e He) as (h & -> & ? & ? & ? & ?).
    exists h. destruct (press_state s k) as (_ & _ & ->). done.
  - intros h Hin. by apply release_events in Hin as [? _].
Qed.

Lemma key_events_keep_registry (evs : list op) :
  ∀ s, Forall key_event evs → hotkeys (run s evs).1 = hotkeys s.
Proof.
  induction evs as [|o evs IH]; intros s Hall; [done|].
  apply Forall_cons in Hall as [Ho Hall]. cbn [run].
  destruct o as [k|k| | | |]; try done; simpl.
  - destruct (press_state s k) as (Hh & _).
    destruct (_on_press s k) as [s1 e1]. simpl in *.
    specialize (IH s1 Hall). destruct (run s1 evs). simpl in *. congruence.
  - destruct (on_release_state s k) as (Hh & _).
    destruct (_on_release s k) as [s1 e1]. simpl in *.
    specialize (IH s1 Hall). destruct (run s1 evs). simpl in *. congruence.
Qed.

Lemma unregistered_silent (h : string) (evs : list op) :
  ∀ s, h ∉ hotkeys s → Forall key_event evs → fires h (run s evs).2 = 0%nat.
Proof.
  induction evs as [|o evs IH]; intros s Hreg Hall; [done|].
  apply Forall_cons in Hall as [Ho Hall]. cbn [run].
  destruct o as [k|k| | | |]; try done; simpl.
  - destruct (press_state s k) as (Hh & _).
    pose proof (press_events s k (hotkey_triggered h)) as Hev.
    destruct (_on_press s k) as [s1 e1]. simpl in *.
    specialize (IH s1). rewrite Hh in IH. specialize (IH Hreg Hall).
    destruct (run s1 evs). simpl in *. rewrite fires_app, IH, fires_zero; [done|].
    intros Hin. destruct (Hev Hin) as (h' & [= <-] & _ & ? & _). done.
  - destruct (on_release_state s k) as (Hh & _).
    pose proof (release_events s k (hotkey_triggered h)) as Hev.
    destruct (_on_release s k) as [s1 e1]. simpl in *.
    specialize (IH s1). rewrite Hh in IH. specialize (IH Hreg Hall).
    destruct (run s1 evs). simpl in *. rewrite fires_app, IH, fires_zero; [done|].
    intros Hin. by destruct (Hev Hin) as [? _].
Qed.

(** X13. After [unregister], no sequence of presses and releases fires that
    chord, in whatever casing or token order it is named. *)
Theorem unregistered_chord_is_silent (s : t) (hotkey : string) (evs : list op) :
  hotkey ≠ "" → Forall key_event evs →
  fires (_normalize_hotkey_string hotkey) (run (unregister s hotkey) evs).2 = 0%nat.
Proof.
  intros Hne Hall. apply unregistered_silent; [|done].
  unfold unregister. rewrite bool_decide_eq_false_2 by done. simpl. set_solver.
Qed.

(** *** Order of the tokens *)

Lemma lower_app (s1 s2 : string) : lower (s1 +:+ s2) = lower s1 +:+ lower s2.
Proof.
  induction s1 as [|a s1 IH]; [done|].
  change (String a s1 +:+ s2) with (String a (s1 +:+ s2)).
  change (lower (String a s1) +:+ lower s2)
    with (String (lower_char a) (lower s1 +:+ lower s2)).
  cbn [lower]. by rewrite IH.
Qed.

Lemma lower_join (l : list string) :
  lower (join "+" l) = join "+" (lower <$> l).
Proof.
  unfold join. induction l as [|p l IH]; [done|].
  destruct l as [|q l]; [done|].
  change (String.concat "+" (p :: q :: l))
    with (p +:+ String "+" (String.concat "+" (q :: l))).
  change (String.concat "+" (lower <$> p :: q :: l))
    with (lower p +:+ String "+" (String.concat "+" (lower <$> q :: l))).
  rewrite lower_app. cbn [lower]. by rewrite IH.
Qed.

Lemma lower_keeps_no_plus (p : string) :
  all_chars (λ a, a ≠ "+"%char) p → all_chars (λ a, a ≠ "+"%char) (lower p).
Proof.
  induction p as [|a p IH]; simpl; [done|]. intros [Ha Hp].
  split; [by rewrite lower_char_plus|by apply IH].
Qed.

Lemma sorted_perm (l1 l2 : list string) : l1 ≡ₚ l2 → sorted l1 = sorted l2.
Proof.
  intros Hp. unfold sorted. apply (StronglySorted_unique String.le).
  - apply StronglySorted_merge_sort; apply _.
  - apply StronglySorted_merge_sort; apply _.
  - by rewrite !merge_sort_Permutation.
Qed.

(** The normal form of a chord written as tokens joined by [+]. *)
Lemma normalize_joined (l : list string) :
  l ≠ [] → Forall (all_chars (λ a, a ≠ "+"%char)) l →
  _normalize_hotkey_string (join "+" l)
  = join "+" (sorted ((λ p, normalize_part (lower p)) <$> l)).
Proof.
  intros Hne Hall. unfold _normalize_hotkey_string.
  rewrite lower_join, split_join.
  - change (map (λ p, standardize_modifier (strip p)) (lower <$> l))
      with (normalize_part <$> (lower <$> l)).
    by rewrite <- list_fmap_compose.
  - by destruct l.
  - apply Forall_fmap. eapply Forall_impl; [done|].
    intros p Hp. by apply lower_keeps_no_plus.
Qed.

(** X14. The order in which the tokens of a chord string are written does
    not matter: two strings whose tokens are a permutation of each other
    have the same normal form, so they register the same chord. *)
Theorem normalize_order_insensitive (l1 l2 : list string) :
  l1 ≡ₚ l2 → l1 ≠ [] → Forall (all_chars (λ a, a ≠ "+"%char)) l1 →
  _normalize_hotkey_string (join "+" l1) = _normalize_hotkey_string (join "+" l2).
Proof.
  intros Hp Hne Hall.
  rewrite !normalize_joined; try done.
  - f_equal. apply sorted_perm. by apply fmap_Permutation.
  - intros ->. by apply Permutation_nil_r in Hp.
  - by rewrite <- Hp.
Qed.

(** *** Recorded chords *)

Lemma clean_token_lower (p : string) : clean_token p → lower p = p.
Proof.
  intros [Hc _]. apply lower_fixed. eapply all_chars_impl; [|done].
  by intros a [_ ?].
Qed.

(** The chord registered for a recorded string has exactly the recorded
    tokens as its parts. *)
Lemma recorded_chord_parts (tokens : list string) :
  tokens ≠ [] → Forall clean_token tokens →
  hotkey_parts (_normalize_hotkey_string (join "+" tokens)) = list_to_set tokens.
Proof.
  intros Hne Hall.
  assert (Forall (all_chars (λ a, a ≠ "+"%char)) tokens) as Hplus.
  { eapply Forall_impl; [done|]. intros p [Hp _].
    eapply all_chars_impl; [|done]. by intros a [? _]. }
  rewrite normalize_joined by done.
  assert ((λ p, normalize_part (lower p)) <$> tokens = tokens) as ->.
  { clear Hne Hplus. induction Hall as [|p l Hp _ IH]; [done|].
    rewrite fmap_cons, IH. f_equal. rewrite clean_token_lower by done. apply Hp. }
  unfold hotkey_parts. rewrite split_join.
  - apply set_eq. intros x. rewrite !elem_of_list_to_set.
    unfold sorted. by rewrite merge_sort_Permutation.
  - intros Hnil. apply Hne. apply Permutation_nil_r.
    rewrite <- Hnil. unfold sorted. by rewrite merge_sort_Permutation.
  - unfold sorted. by rewrite merge_sort_Permutation.
Qed.

(** Pressing keys that between them complete an unlatched registered chord
    fires it exactly once. *)
Lemma presses_fire_once (h : string) (ks : list key) :
  ∀ s, recording s = false → h ∈ hotkeys s → h ∉ triggered_hotkeys s →
  ks ≠ [] →
  (∀ p, p ∈ split "+" h → p ∈ current_keys s ∨ p ∈ _normalize_key <$> ks) →
  fires h (run s (OnPress <$> ks)).2 = 1%nat.
Proof.
  induction ks as [|k ks IH]; intros s Hrec Hreg Hlat Hne Hparts; [done|].
  cbn [fmap list_fmap run step].
  pose proof (on_press_matching s k Hrec) as Hp. simpl in Hp.
  destruct (_on_press s k) as [s1 e1]. injection Hp as -> ->.
  set (cur := current_keys s ∪ {[_normalize_key k]}).
  set (s1 := mk (hotkeys s) cur _ false (recorded_keys s)).
  destruct (decide (hotkey_parts h ⊆ cur)) as [Hsub|Hsub].
  - assert (h ∈ firing cur (triggered_hotkeys s) (elements (hotkeys s))) as Hf.
    { unfold firing. apply list_elem_of_filter. split; [done|].
      by apply elem_of_elements. }
    destruct (held_chord_silent h (OnPress <$> ks) s1) as (Hz & _).
    + done.
    + simpl. apply elem_of_union. right. by apply elem_of_list_to_set.
    + apply Forall_fmap. by apply Forall_true.
    + apply Forall_fmap. apply Forall_true. intros k'. simpl. tauto.
    + destruct (run s1 (OnPress <$> ks)) as [s2 e2]. simpl in *.
      rewrite fires_app, Hz, fires_fmap_elem; [done| |done].
      apply NoDup_filter, NoDup_elements.
  - assert (h ∉ firing cur (triggered_hotkeys s) (elements (hotkeys s))) as Hf.
    { unfold firing. rewrite list_elem_of_filter. naive_solver. }
    assert (ks ≠ []) as Hks.
    { intros ->. apply Hsub. apply hotkey_parts_subseteq. intros p Hp.
      destruct (Hparts p Hp) as [?|Hin]; [set_solver|].
      apply elem_of_cons in Hin as [->|Hin]; [set_solver|].
      by apply elem_of_nil in Hin. }
    specialize (IH s1). destruct (run s1 (OnPress <$> ks)) as [s2 e2].
    simpl in *. rewrite fires_app, fires_fmap_not_elem by done.
    rewrite IH; try done.
    + rewrite elem_of_union, elem_of_list_to_set. naive_solver.
    + intros p Hp. destruct (Hparts p Hp) as [?|Hin]; [left; set_solver|].
      apply elem_of_cons in Hin as [->|Hin]; [left; set_solver|by right].
Qed.

(** X15. A chord string made of live tokens joined by [+] (what a recording
    session emits), once registered, is fired exactly once by pressing the
    keys of those tokens, in whatever order they are pressed. *)
Theorem recorded_chord_fires (s : t) (ks ks' : list key) :
  let tokens := _normalize_key <$> ks in
  let h := _normalize_hotkey_string (join "+" tokens) in
  Forall clean_token tokens → join "+" tokens ≠ "" → ks' ≡ₚ ks →
  recording s = false → h ∉ triggered_hotkeys s →
  fires h (run (register s (join "+" tokens)) (OnPress <$> ks')).2 = 1%nat.
Proof.
  simpl. intros Hclean Hne Hperm Hrec Hlat.
  assert (ks ≠ []) as Hks by (by intros ->).
  apply presses_fire_once.
  - unfold register. by case_bool_decide.
  - unfold register. rewrite bool_decide_eq_false_2 by done. simpl. set_solver.
  - unfold register. by case_bool_decide.
  - intros ->. by apply Permutation_nil_l in Hperm.
  - intros p Hp. right.
    assert (p ∈ hotkey_parts (_normalize_hotkey_string
                                (join "+" (_normalize_key <$> ks)))) as Hin
      by (by apply elem_of_list_to_set).
    rewrite recorded_chord_parts in Hin; [|by destruct ks|done].
    apply elem_of_list_to_set in Hin. by rewrite Hperm.
Qed.
(** *** Recording sessions *)

Lemma step_recording_inv (s : t) (o : op) :
  NoDup (recorded_keys s) ∧ (recording s = false → recorded_keys s = []) →
  NoDup (recorded_keys (step s o).1) ∧
  (recording (step s o).1 = false → recorded_keys (step s o).1 = []).
Proof.
  intros [Hnd Hoff]. destruct o as [k|k|h|h| |]; simpl.
  - destruct (recording s) eqn:Hrec.
    + unfold _on_press. rewrite Hrec. simpl. split; [|done].
      case_bool_decide; [|done].
      apply NoDup_app. split; [done|]. split; [|apply NoDup_singleton].
      intros x Hx ->%list_elem_of_singleton. done.
    + rewrite on_press_matching by done. simpl. auto.
  - unfold _on_release. destruct (recording s) eqn:Hrec; simpl.
    + case_bool_decide; simpl; [|done]. split; [apply NoDup_nil_2|done].
    + auto.
  - unfold register. by case_bool_decide.
  - unfold unregister. by case_bool_decide.
  - done.
  - split; [apply NoDup_nil_2|done].
Qed.

(** X16. In every state the detector reaches, the recorded sequence holds no
    token twice, and it is empty whenever no recording session is active. *)
Theorem recorded_sequence_invariant (ops : list op) :
  NoDup (recorded_keys (run init ops).1) ∧
  (recording (run init ops).1 = false → recorded_keys (run init ops).1 = []).
Proof.
  assert (∀ s, NoDup (recorded_keys s) ∧ (recording s = false → recorded_keys s = []) →
               NoDup (recorded_keys (run s ops).1) ∧
               (recording (run s ops).1 = false → recorded_keys (run s ops).1 = []))
    as Hgen.
  { induction ops as [|o ops IH]; intros s Hs; [done|]. cbn [run].
    pose proof (step_recording_inv s o Hs) as H1.
    destruct (step s o) as [s1 e1]. specialize (IH s1 H1).
    by destruct (run s1 ops). }
  apply Hgen. split; [apply NoDup_nil_2|done].
Qed.

Lemma recording_presses (ks : list key) :
  ∀ s, recording s = true →
  NoDup (recorded_keys s ++ (_normalize_key <$> ks)) →
  run s (OnPress <$> ks) =
    (mk (hotkeys s) (current_keys s ∪ list_to_set (_normalize_key <$> ks))
        (triggered_hotkeys s) true
        (recorded_keys s ++ (_normalize_key <$> ks)), []).
Proof.
  induction ks as [|k ks IH]; intros s Hrec Hnd.
  - simpl. rewrite app_nil_r. destruct s. simpl in *. subst. f_equal. f_equal.
    set_solver.
  - cbn [fmap list_fmap run step]. unfold _on_press at 1. rewrite Hrec.
    rewrite fmap_cons in Hnd.
    assert (_normalize_key k ∉ recorded_keys s) as Hk.
    { apply NoDup_app in Hnd as (_ & Hd & _). intros Hin.
      apply (Hd _ Hin). left. }
    rewrite (bool_decide_eq_true_2 (_normalize_key k ∉ recorded_keys s)) by done.
    rewrite IH; simpl; [|done|by rewrite <- app_assoc].
    f_equal. rewrite <- app_assoc. f_equal.
    case_bool_decide; set_solver.
Qed.

Lemma idle_releases (rs : list key) :
  ∀ s, recording s = false →
  (run s (OnRelease <$> rs)).2 = [] ∧
  recording (run s (OnRelease <$> rs)).1 = false ∧
  recorded_keys (run s (OnRelease <$> rs)).1 = recorded_keys s.
Proof.
  induction rs as [|r rs IH]; intros s Hrec; [done|].
  cbn [fmap list_fmap run step].
  assert ((_on_release s r).2 = [] ∧ recording (_on_release s r).1 = false ∧
          recorded_keys (_on_release s r).1 = recorded_keys s) as (He & Hr & Hk).
  { unfold _on_release. rewrite Hrec. done. }
  destruct (_on_release s r) as [s1 e1]. simpl in *. subst e1.
  destruct (IH s1 Hr) as (He2 & Hr2 & Hk2).
  destruct (run s1 (OnRelease <$> rs)) as [s2 e2]. simpl in *. subst.
  split; [done|]. split; [done|]. congruence.
Qed.

Lemma on_release_cases (s : t) (k : key) :
  let cur := current_keys s ∖ {[_normalize_key k]} in
  let trig := triggered_hotkeys (_on_release s k).1 in
  _on_release s k =
    if recording s && bool_decide (cur = ∅)
    then (mk (hotkeys s) cur trig false [],
          [recording_finished (join "+" (recorded_keys s))])
    else (mk (hotkeys s) cur trig (recording s) (recorded_keys s), []).
Proof.
  simpl. unfold _on_release.
  assert ((if bool_decide (_normalize_key k ∈ current_keys s)
           then current_keys s ∖ {[_normalize_key k]} else current_keys s)
          = current_keys s ∖ {[_normalize_key k]}) as ->.
  { case_bool_decide; [done|]. set_solver. }
  by destruct (recording s && bool_decide (current_keys s ∖ {[_normalize_key k]} = ∅)).
Qed.

Lemma recording_releases (rs : list key) :
  ∀ s, recording s = true → current_keys s ≠ ∅ →
  current_keys s ⊆ list_to_set (_normalize_key <$> rs) →
  (run s (OnRelease <$> rs)).2 = [recording_finished (join "+" (recorded_keys s))] ∧
  recording (run s (OnRelease <$> rs)).1 = false ∧
  recorded_keys (run s (OnRelease <$> rs)).1 = [].
Proof.
  induction rs as [|r rs IH]; intros s Hrec Hne Hsub.
  { exfalso. apply Hne. simpl in Hsub. set_solver. }
  cbn [fmap list_fmap run step].
  pose proof (on_release_cases s r) as Hrel. simpl in Hrel. rewrite Hrec in Hrel.
  simpl in Hrel.
  destruct (decide (current_keys s ∖ {[_normalize_key r]} = ∅)) as [Hemp|Hnemp].
  - rewrite bool_decide_eq_true_2 in Hrel by done. rewrite Hrel.
    match goal with |- context [run ?s1 (OnRelease <$> rs)] =>
      destruct (idle_releases rs s1 eq_refl) as (He & Hr & Hk);
      destruct (run s1 (OnRelease <$> rs)) as [s2 e2] end.
    simpl in *. subst. done.
  - rewrite bool_decide_eq_false_2 in Hrel by done. rewrite Hrel.
    match goal with |- context [run ?s1 (OnRelease <$> rs)] =>
      destruct (IH s1) as (He2 & Hr2 & Hk2); [done|done| |];
      [|destruct (run s1 (OnRelease <$> rs)) as [s2 e2]] end.
    + simpl. set_solver.
    + simpl in *. by rewrite He2.
Qed.

(** X17. A whole recording session: after [start_recording], pressing keys
    with distinct tokens and then releasing them in any order emits exactly
    one event, the tokens joined by [+] in the order they were pressed, and
    ends the session with an empty sequence. *)
Theorem recording_round (s : t) (ks rs : list key) :
  ks ≠ [] → NoDup (_normalize_key <$> ks) → rs ≡ₚ ks →
  let r := run (start_recording s) ((OnPress <$> ks) ++ (OnRelease <$> rs)) in
  r.2 = [recording_finished (join "+" (_normalize_key <$> ks))] ∧
  recording r.1 = false ∧ recorded_keys r.1 = [] ∧ hotkeys r.1 = hotkeys s.
Proof.
  intros Hne Hnd Hperm. simpl. rewrite run_app.
  rewrite recording_presses; [|done|done]. cbn [fst snd app].
  match goal with |- context [run ?s1 (OnRelease <$> rs)] =>
    destruct (recording_releases rs s1) as (He & Hr & Hk); [done| | |];
    [..|pose proof (key_events_keep_registry (OnRelease <$> rs) s1) as Hh] end.
  - simpl. destruct ks as [|k ks]; [done|]. rewrite fmap_cons. set_solver.
  - simpl. rewrite Hperm. set_solver.
  - rewrite He, Hr, Hk. split; [done|]. split; [done|]. split; [done|].
    apply Hh. apply Forall_fmap. by apply Forall_true.
Qed.
End DetectorProofs.

Section DetectorWitnesses.
Import PyStr HotkeyManager.

Ltac clean_by_computation :=
  repeat (apply Forall_cons; split;
          [split; [repeat split; first [discriminate | reflexivity]
                  | vm_compute; reflexivity]|]);
  apply Forall_nil_2.
Ltac key_events_by_computation :=
  repeat (apply Forall_cons; split; [exact I|]); apply Forall_nil_2.

(** [unregistered_chord_is_silent]: the chord is unregistered under another
    spelling than it was registered with. *)
Lemma unregistered_chord_is_silent_witness :
  let s := (run init [Register "ctrl+a"]).1 in
  fires "a+ctrl"
        (run (unregister s "A+Ctrl")
             [OnPress (Key "ctrl"); OnPress (KeyCode_char "a" None);
              OnRelease (KeyCode_char "a" None)]).2 = 0%nat.
Proof.
  intros s.
  refine (unregistered_chord_is_silent s "A+Ctrl" _ _ _).
  - discriminate.
  - key_events_by_computation.
Defined.

(** [normalize_order_insensitive] on three tokens. *)
Lemma normalize_order_insensitive_witness :
  _normalize_hotkey_string "shift+B+ctrl" = _normalize_hotkey_string "ctrl+shift+B".
Proof.
  refine (normalize_order_insensitive ["shift"; "B"; "ctrl"] ["ctrl"; "shift"; "B"]
            _ _ _).
  - apply (bool_decide_unpack _). vm_compute. exact I.
  - discriminate.
  - repeat (apply Forall_cons; split; [repeat split; discriminate|]).
    apply Forall_nil_2.
Defined.

(** [recorded_chord_fires]: recorded as ctrl then a, fired by a then ctrl. *)
Lemma recorded_chord_fires_witness :
  fires "a+ctrl"
        (run (register init "ctrl+a")
             [OnPress (KeyCode_char "A" None); OnPress (Key "ctrl_l")]).2 = 1%nat.
Proof.
  refine (recorded_chord_fires init [Key "ctrl_l"; KeyCode_char "A" None]
            [KeyCode_char "A" None; Key "ctrl_l"] _ _ _ _ _).
  - clean_by_computation.
  - discriminate.
  - apply perm_swap.
  - reflexivity.
  - apply not_elem_of_empty.
Defined.

(** [recording_round]: ctrl and a pressed, released in the other order. *)
Lemma recording_round_witness :
  (run (start_recording init)
       [OnPress (Key "ctrl_l"); OnPress (KeyCode_char "a" None);
        OnRelease (KeyCode_char "a" None); OnRelease (Key "ctrl_l")]).2
  = [recording_finished "ctrl+a"].
Proof.
  refine (proj1 (recording_round init [Key "ctrl_l"; KeyCode_char "a" None]
                   [KeyCode_char "a" None; Key "ctrl_l"] _ _ _)).
  - discriminate.
  - apply (bool_decide_unpack _). vm_compute. exact I.
  - apply perm_swap.
Defined.
End DetectorWitnesses.

(** ** The device manager *)

Section PipeWireProofs.
Import PyStr PipeWireManager.

Lemma prefix_refl (s : string) : String.prefix s s = true.
Proof.
  induction s as [|a s IH]; simpl; [done|]. by destruct (ascii_dec a a).
Qed.

Lemma contains_refl (s : string) : contains s s = true.
Proof. destruct s; cbn [contains]; by rewrite prefix_refl. Qed.

Lemma contains_suffix (needle pre : string) :
  contains needle (pre +:+ needle) = true.
Proof.
  induction pre as [|a pre IH].
  - apply contains_refl.
  - change (String a pre +:+ needle) with (String a (pre +:+ needle)).
    cbn [contains]. rewrite IH. apply orb_true_r.
Qed.

Lemma split_ws_nonempty (line name : string) :
  name ∈ split_ws line → name ≠ "".
Proof.
  unfold split_ws. intros Hin%list_elem_of_In%List.filter_In.
  destruct Hin as [_ Hne]. apply negb_true_iff in Hne.
  by apply bool_decide_eq_false_1 in Hne.
Qed.

(** The loop of [get_real_mic_sources] only ever appends second fields that
    pass its two tests. *)
Lemma real_mic_loop (sink : string) (lines : list string) :
  ∀ (sources : list string) (name : string),
  name ∈ foldl (λ sources line,
                  match split_ws line with
                  | _ :: name :: _ =>
                      if negb (contains ".monitor" name)
                         && negb (contains sink name)
                      then sources ++ [name] else sources
                  | _ => sources
                  end) sources lines →
  name ∈ sources ∨
  (∃ line, line ∈ lines ∧ split_ws line !! 1%nat = Some name) ∧
  contains ".monitor" name = false ∧ contains sink name = false.
Proof.
  induction lines as [|line lines IH]; intros sources name; simpl; [by left|].
  intros Hin%IH. destruct Hin as [Hin|((l & Hl & Hf) & Hm & Hs)].
  - destruct (split_ws line) as [|id [|name' rest]] eqn:Hsp; [by left..|].
    destruct (negb (contains ".monitor" name') && negb (contains sink name'))
      eqn:Hc; [|by left].
    apply elem_of_app in Hin as [?|Heq]; [by left|].
    apply list_elem_of_singleton in Heq as ->. right.
    apply andb_true_iff in Hc as [Hm%negb_true_iff Hs%negb_true_iff].
    split; [|done]. exists line. split; [by left|]. by rewrite Hsp.
  - right. split; [|done]. exists l. split; [by right|done].
Qed.

Lemma real_mic_sources (self : t) (listed : option string) (name : string) :
  name ∈ get_real_mic_sources self listed →
  contains ".monitor" name = false ∧ contains (sink_name self) name = false ∧
  name ≠ "" ∧ name ≠ get_sink_monitor_name self ∧ name ≠ sink_name self ∧
  ∃ stdout line, listed = Some stdout ∧ line ∈ splitlines stdout ∧
                 split_ws line !! 1%nat = Some name.
Proof.
  unfold get_real_mic_sources. destruct listed as [stdout|];
    [|by intros ?%elem_of_nil].
  intros [Hin|((line & Hl & Hf) & Hm & Hs)]%real_mic_loop;
    [by apply elem_of_nil in Hin|].
  split; [done|]. split; [done|]. split; [|split; [|split]].
  - apply (split_ws_nonempty line). by eapply list_elem_of_lookup_2.
  - intros ->. unfold get_sink_monitor_name in Hm.
    by rewrite contains_suffix in Hm.
  - intros ->. by rewrite contains_refl in Hs.
  - by exists stdout, line.
Qed.

(** X18. Muting the real microphones never touches the soundboard's own
    virtual microphone: whatever [pactl] lists, every source that
    [mute_all_real_mics] mutes or unmutes is the second field of a listed
    line, has neither [.monitor] nor the sink name in its name, and so is
    neither the sink nor its monitor source; each gets the one action asked
    for. *)
Theorem mute_all_real_mics_spares_virtual_mic (self : t)
        (listed : option string) (mute : bool) (c : command) :
  c ∈ mute_all_real_mics self listed mute →
  ∃ name, c = set_source_mute name (if mute then "1" else "0") ∧
          contains ".monitor" name = false ∧
          contains (sink_name self) name = false ∧
          name ≠ get_sink_monitor_name self ∧ name ≠ sink_name self ∧
          ∃ stdout line, listed = Some stdout ∧ line ∈ splitlines stdout ∧
                         split_ws line !! 1%nat = Some name.
Proof.
  unfold mute_all_real_mics. intros (name & -> & Hin)%list_elem_of_fmap.
  apply real_mic_sources in Hin as (? & ? & ? & ? & ? & ?).
  exists name. done.
Qed.

(** X19. When [pactl] lists at least one real microphone,
    [reset_app_routing] moves the stream to one of them, never to a monitor
    source: to the default source when that is a listed real microphone,
    else to the first one listed; it reports success exactly when the move
    returned code 0. *)
Theorem reset_app_routing_picks_real_mic (self : t) (listed : option string)
        (answer : option (Z * string)) (moved : option Z) (output_id : string) :
  get_real_mic_sources self listed ≠ [] →
  ∃ target,
    (reset_app_routing self listed answer moved output_id).1
      = [move_source_output output_id target] ∧
    target ∈ get_real_mic_sources self listed ∧
    contains ".monitor" target = false ∧
    target ≠ get_sink_monitor_name self ∧
    (∀ d, get_default_source answer = Some d →
          d ∈ get_real_mic_sources self listed → target = d) ∧
    (get_default_source answer = None →
     head (get_real_mic_sources self listed) = Some target) ∧
    ((reset_app_routing self listed answer moved output_id).2 = true
     ↔ moved = Some 0).
Proof.
  intros Hne. unfold reset_app_routing, target_source.
  destruct (get_real_mic_sources self listed) as [|first rest] eqn:Hmics;
    [done|].
  assert (∀ target, target ∈ first :: rest →
            (if bool_decide (target = "") then ([], false)
             else ([move_source_output output_id target],
                   match moved with
                   | Some returncode => bool_decide (returncode = 0)
                   | None => false
                   end))
            = ([move_source_output output_id target],
               match moved with
               | Some returncode => bool_decide (returncode = 0)
               | None => false
               end) ∧
            contains ".monitor" target = false ∧
            target ≠ get_sink_monitor_name self) as Hreal.
  { intros target Hin. rewrite <- Hmics in Hin.
    apply real_mic_sources in Hin as (? & _ & ? & ? & _).
    by rewrite bool_decide_eq_false_2. }
  assert ((match moved with
           | Some returncode => bool_decide (returncode = 0)
           | None => false
           end = true) ↔ moved = Some 0) as Hres.
  { destruct moved as [rc|]; [|done]. rewrite bool_decide_eq_true.
    split; [by intros ->|by intros [= ->]]. }
  destruct (get_default_source answer) as [d|] eqn:Hd.
  - destruct (negb (bool_decide (d = "")) && bool_decide (d ∈ first :: rest))
      eqn:Hc.
    + apply andb_true_iff in Hc as [_ Hin%bool_decide_eq_true_1].
      destruct (Hreal d Hin) as (-> & ? & ?). exists d. simpl.
      split; [done|]. split; [done|]. split; [done|]. split; [done|].
      split; [by intros d' [= ->]|]. split; [done|apply Hres].
    + assert (first ∈ first :: rest) as Hin by left.
      destruct (Hreal first Hin) as (-> & ? & ?). exists first. simpl.
      split; [done|]. split; [done|]. split; [done|]. split; [done|].
      split; [|split; [done|apply Hres]].
      intros d' [= <-] Hd'. apply andb_false_iff in Hc as [Hc|Hc].
      * apply negb_false_iff, bool_decide_eq_true_1 in Hc. subst d.
        rewrite <- Hmics in Hd'. by apply real_mic_sources in Hd' as (_ & _ & ? & _).
      * by apply bool_decide_eq_false_1 in Hc.
  - assert (first ∈ first :: rest) as Hin by left.
    destruct (Hreal first Hin) as (-> & ? & ?). exists first. simpl.
    split; [done|]. split; [done|]. split; [done|]. split; [done|].
    split; [done|]. split; [done|apply Hres].
Qed.

(** [reset_app_routing_picks_real_mic]: the default source is the monitor,
    so the one real microphone is taken. *)
Lemma reset_app_routing_picks_real_mic_witness :
  ∃ target,
    (reset_app_routing demo_manager (Some demo_sources)
       (Some (0, "soundboard_virtual_mic.monitor")) (Some 0) "12").1
    = [move_source_output "12" target] ∧
    target ∈ get_real_mic_sources demo_manager (Some demo_sources).
Proof.
  destruct (reset_app_routing_picks_real_mic demo_manager (Some demo_sources)
              (Some (0, "soundboard_virtual_mic.monitor")) (Some 0) "12")
    as (target & Hcmd & Hin & _).
  - vm_compute. discriminate.
  - exists target. split; [exact Hcmd|exact Hin].
Defined.

(** [mute_all_real_mics_spares_virtual_mic]: the one call on the sample
    listing. *)
Lemma mute_all_real_mics_spares_virtual_mic_witness :
  ∃ name, set_source_mute "alsa_input.usb-mic" "1" = set_source_mute name "1" ∧
          name ≠ get_sink_monitor_name demo_manager.
Proof.
  destruct (mute_all_real_mics_spares_virtual_mic demo_manager
              (Some demo_sources) true
              (set_source_mute "alsa_input.usb-mic" "1"))
    as (name & Heq & _ & _ & Hne & _).
  - vm_compute. apply list_elem_of_here.
  - exists name. split; [exact Heq|exact Hne].
Defined.
End PipeWireProofs.

(** ** The controller *)

Section WindowHotkeyProofs.
Context {R : Type} `{Float32 R}.
Import Window.

Lemma matching_frame (self self' : t R) (trigger : string) (l : list nat) :
  hotkey <$> sound_buttons self' = hotkey <$> sound_buttons self →
  List.filter (λ i, match sound_buttons self' !! i with
                    | Some b => answers trigger b | None => false end) l
  = List.filter (λ i, match sound_buttons self !! i with
                      | Some b => answers trigger b | None => false end) l.
Proof.
  intros Hh. induction l as [|i l IH]; [done|]. simpl. rewrite IH.
  assert ((hotkey <$> sound_buttons self') !! i
          = (hotkey <$> sound_buttons self) !! i) as Hi by by rewrite Hh.
  rewrite !list_lookup_fmap in Hi.
  destruct (sound_buttons self' !! i) as [b'|], (sound_buttons self !! i) as [b|];
    simpl in Hi; try done.
  injection Hi as Hi. unfold answers, chord_of. by rewrite Hi.
Qed.

(** *** The registered chords and the buttons' hotkeys *)

Lemma register_hotkeys (m : HotkeyManager.t) (hotkey : string) (h : string) :
  h ∈ HotkeyManager.hotkeys (HotkeyManager.register m hotkey) ↔
  h ∈ HotkeyManager.hotkeys m ∨
  (hotkey ≠ "" ∧ h = HotkeyManager._normalize_hotkey_string hotkey).
Proof.
  unfold HotkeyManager.register. case_bool_decide as He; simpl.
  - split; [by left|]. by intros [?|[? _]].
  - rewrite elem_of_union, elem_of_singleton. naive_solver.
Qed.

Lemma unregister_hotkeys (m : HotkeyManager.t) (hotkey : string) (h : string) :
  h ∈ HotkeyManager.hotkeys (HotkeyManager.unregister m hotkey) ↔
  h ∈ HotkeyManager.hotkeys m ∧
  ¬ (hotkey ≠ "" ∧ h = HotkeyManager._normalize_hotkey_string hotkey).
Proof.
  unfold HotkeyManager.unregister. case_bool_decide as He; simpl.
  - split; [|by intros [? _]]. intros ?. split; [done|]. by intros [? _].
  - rewrite elem_of_difference, elem_of_singleton. naive_solver.
Qed.

(** The loop of [setup_hotkeys]. *)
Lemma setup_loop_hotkeys (bs : list (SoundEntry R)) (h : string) :
  ∀ m : HotkeyManager.t,
  h ∈ HotkeyManager.hotkeys
        (foldl (λ m b, if bool_decide (hotkey b ≠ "")
                       then HotkeyManager.register m (hotkey b) else m) m bs) ↔
  h ∈ HotkeyManager.hotkeys m ∨
  ∃ b, b ∈ bs ∧ hotkey b ≠ "" ∧ chord_of b = h.
Proof.
  induction bs as [|b bs IH]; intros m; simpl.
  { split; [by left|]. intros [?|(b & Hb & _)]; [done|]. by apply elem_of_nil in Hb. }
  rewrite IH. case_bool_decide as Hne.
  - rewrite register_hotkeys. split.
    + intros [[?|[_ ->]]|(b' & Hb' & ? & ?)]; [by left|right..].
      * exists b. split; [by left|done].
      * exists b'. split; [by right|done].
    + intros [?|(b' & Hb' & Hne' & Hch)]; [by left; left|].
      apply elem_of_cons in Hb' as [->|Hb'].
      * left. right. done.
      * right. by exists b'.
  - split.
    + intros [?|(b' & Hb' & ? & ?)]; [by left|right].
      exists b'. split; [by right|done].
    + intros [?|(b' & Hb' & Hne' & Hch)]; [by left|].
      apply elem_of_cons in Hb' as [->|Hb']; [done|].
      right. by exists b'.
Qed.

Lemma setup_loop_frame (bs : list (SoundEntry R)) :
  ∀ m : HotkeyManager.t,
  let m' := foldl (λ m b, if bool_decide (hotkey b ≠ "")
                          then HotkeyManager.register m (hotkey b) else m) m bs in
  HotkeyManager.current_keys m' = HotkeyManager.current_keys m ∧
  HotkeyManager.triggered_hotkeys m' = HotkeyManager.triggered_hotkeys m ∧
  HotkeyManager.recording m' = HotkeyManager.recording m ∧
  HotkeyManager.recorded_keys m' = HotkeyManager.recorded_keys m.
Proof.
  induction bs as [|b bs IH]; intros m; [done|]. simpl.
  destruct (IH (if bool_decide (hotkey b ≠ "")
                then HotkeyManager.register m (hotkey b) else m))
    as (-> & -> & -> & ->).
  case_bool_decide; [|done]. unfold HotkeyManager.register.
  by case_bool_decide.
Qed.


Lemma setup_hotkeys_frame (self : t R) :
  (∀ h, h ∈ HotkeyManager.hotkeys (hotkey_manager (setup_hotkeys self)) ↔
        ∃ b, b ∈ sound_buttons self ∧ hotkey b ≠ "" ∧ chord_of b = h) ∧
  sound_buttons (setup_hotkeys self) = sound_buttons self.
Proof.
  split; [|done]. intros h. unfold setup_hotkeys. simpl.
  rewrite setup_loop_hotkeys. simpl. split; [|by right].
  intros [Hin|?]; [|done]. by apply elem_of_empty in Hin.
Qed.

(** X20. [setup_hotkeys] makes the registered chords exactly the chords of
    the buttons that have a hotkey, whatever was registered before, and
    leaves the pressed keys, the latched chords, a recording session, the
    buttons and the engine as they were. *)
Theorem setup_hotkeys_registers_buttons (self : t R) :
  let self' := setup_hotkeys self in
  (∀ h, h ∈ HotkeyManager.hotkeys (hotkey_manager self') ↔
        ∃ b, b ∈ sound_buttons self ∧ hotkey b ≠ "" ∧ chord_of b = h) ∧
  HotkeyManager.current_keys (hotkey_manager self')
    = HotkeyManager.current_keys (hotkey_manager self) ∧
  HotkeyManager.triggered_hotkeys (hotkey_manager self')
    = HotkeyManager.triggered_hotkeys (hotkey_manager self) ∧
  HotkeyManager.recording (hotkey_manager self')
    = HotkeyManager.recording (hotkey_manager self) ∧
  HotkeyManager.recorded_keys (hotkey_manager self')
    = HotkeyManager.recorded_keys (hotkey_manager self) ∧
  sound_buttons self' = sound_buttons self ∧
  audio_player self' = audio_player self.
Proof.
  simpl. split.
  - intros h. rewrite setup_loop_hotkeys. simpl. split; [|by right].
    intros [Hin|?]; [|done]. by apply elem_of_empty in Hin.
  - pose proof (setup_loop_frame (sound_buttons self)
                  (HotkeyManager.clear_all (hotkey_manager self))) as Hf.
    simpl in Hf. destruct Hf as (-> & -> & -> & ->). done.
Qed.

(** *** Steps that leave the hotkeys alone *)

Lemma keeps_hotkeys_trans (s1 s2 s3 : t R) :
  keeps_hotkeys s1 s2 → keeps_hotkeys s2 s3 → keeps_hotkeys s1 s3.
Proof. intros [? ?] [? ?]. split; congruence. Qed.

Lemma insert_same_hotkey (bs : list (SoundEntry R)) (i : nat) (b b' : SoundEntry R) :
  bs !! i = Some b → hotkey b' = hotkey b →
  hotkey <$> <[i := b']> bs = hotkey <$> bs.
Proof.
  intros Hb Hh. rewrite list_fmap_insert, Hh.
  apply list_insert_id. by rewrite list_lookup_fmap, Hb.
Qed.

Lemma stop_sound_keeps_hotkeys (self : t R) (i : nat) :
  keeps_hotkeys self (stop_sound self i).
Proof.
  unfold stop_sound. destruct (sound_buttons self !! i) as [b|] eqn:Hb; [|done].
  destruct (sound_id b); [|done]. split; [|done]. simpl.
  by apply (insert_same_hotkey _ _ b).
Qed.

Lemma on_pause_clicked_keeps_hotkeys (self : t R) (i : nat) :
  keeps_hotkeys self (on_pause_clicked self i).
Proof.
  unfold on_pause_clicked.
  destruct (sound_buttons self !! i) as [b|] eqn:Hb; [|done].
  destruct (sound_id b); [|done].
  destruct (AudioPlayer.toggle_pause_sound _ _) as [p pa].
  split; [|done]. simpl. by apply (insert_same_hotkey _ _ b).
Qed.

Lemma on_volume_changed_keeps_hotkeys (self : t R) (i : nat) (volume : R) :
  keeps_hotkeys self (on_volume_changed self i volume).
Proof.
  unfold on_volume_changed.
  destruct (sound_buttons self !! i) as [b|] eqn:Hb; [|done].
  destruct (sound_id b); (split; [|done]); simpl;
    by apply (insert_same_hotkey _ _ b).
Qed.

Lemma fmap_same_hotkey (f : SoundEntry R → SoundEntry R) (bs : list (SoundEntry R)) :
  (∀ b, hotkey (f b) = hotkey b) → hotkey <$> (f <$> bs) = hotkey <$> bs.
Proof.
  intros Hf. rewrite <- list_fmap_compose. apply list_fmap_ext.
  intros _ b _. apply Hf.
Qed.

Lemma stop_all_sounds_keeps_hotkeys (self : t R) :
  keeps_hotkeys self (stop_all_sounds self).1.
Proof.
  unfold stop_all_sounds. simpl.
  destruct (mic_muted self); (split; [|done]); simpl;
    by apply fmap_same_hotkey.
Qed.

Lemma update_status_keeps_hotkeys (self : t R) :
  keeps_hotkeys self (update_status self).1.
Proof.
  unfold update_status. simpl.
  assert (∀ f g : t R * list effect,
            keeps_hotkeys self f.1 → keeps_hotkeys self g.1 →
            ∀ c : bool, keeps_hotkeys self (if c then f else g).1) as Hif
    by (by intros ? ? ? ? []).
  repeat apply Hif; (split; [|done]); simpl; apply fmap_same_hotkey;
    intros b; destruct (sound_id b); try done; by case_bool_decide.
Qed.

(** *** Steps that change a hotkey *)

Lemma registry_frame (self self' : t R) :
  keeps_hotkeys self self' →
  registry_has_buttons self → registry_has_buttons self'.
Proof.
  intros [Hb Hm] Hreg h Hh. rewrite Hm in Hh.
  destruct (Hreg h Hh) as (b & Hin & Hne & Hch).
  assert (hotkey b ∈ hotkey <$> sound_buttons self') as Hin'.
  { rewrite Hb. by apply list_elem_of_fmap_2. }
  apply list_elem_of_fmap in Hin' as (b' & Heq & Hin').
  exists b'. unfold chord_of in *. rewrite <- Heq. done.
Qed.

Lemma on_hotkey_changed_hotkeys (self : t R) (old new : string) (h : string) :
  h ∈ HotkeyManager.hotkeys (hotkey_manager (on_hotkey_changed self old new)) ↔
  (h ∈ HotkeyManager.hotkeys (hotkey_manager self) ∧
   ¬ (old ≠ "" ∧ h = HotkeyManager._normalize_hotkey_string old)) ∨
  (new ≠ "" ∧ h = HotkeyManager._normalize_hotkey_string new).
Proof.
  unfold on_hotkey_changed. simpl.
  destruct (bool_decide (new ≠ "")) eqn:Hn, (bool_decide (old ≠ "")) eqn:Ho;
    rewrite ?register_hotkeys, ?unregister_hotkeys;
    try apply bool_decide_eq_true_1 in Hn;
    try apply bool_decide_eq_false_1 in Hn;
    try apply bool_decide_eq_true_1 in Ho;
    try apply bool_decide_eq_false_1 in Ho; naive_solver.
Qed.

Lemma set_hotkey_registry (self : t R) (i : nat) (h : string) :
  registry_has_buttons self → registry_has_buttons (set_hotkey self i h).
Proof.
  intros Hreg. unfold set_hotkey.
  destruct (sound_buttons self !! i) as [b|] eqn:Hb; [|done].
  intros h' Hh'. apply on_hotkey_changed_hotkeys in Hh'. simpl in *.
  destruct Hh' as [[Hin Hold]|[Hne ->]].
  - destruct (Hreg h' Hin) as (b' & Hb' & Hne' & Hch).
    apply list_elem_of_lookup in Hb' as [j Hj].
    destruct (decide (j = i)) as [->|Hji].
    + rewrite Hb in Hj. injection Hj as <-. destruct Hold. done.
    + exists b'. split; [|done]. apply list_elem_of_lookup. exists j.
      by rewrite list_lookup_insert_ne.
  - exists (with_hotkey b h). split; [|done].
    apply list_elem_of_lookup. exists i.
    apply list_lookup_insert_eq. by eapply lookup_lt_Some.
Qed.

Lemma finish_hotkey_recording_registry (self : t R) (h : string) :
  registry_has_buttons self →
  registry_has_buttons (finish_hotkey_recording self h).
Proof.
  intros Hreg. unfold finish_hotkey_recording.
  destruct (recording_button self) as [rec|]; [|done].
  eapply (registry_frame (set_hotkey _ rec h)); [done|].
  apply set_hotkey_registry.
  generalize (seq 0 (length (sound_buttons self))). intros l.
  revert self Hreg. induction l as [|j l IH]; intros self Hreg; [done|].
  simpl. apply IH. destruct (sound_buttons self !! j); [|done].
  destruct (_ && _); [|done]. by apply set_hotkey_registry.
Qed.

Lemma init_buttons (overlap mute : bool) (master : option R) (sounds : list (SoundEntry R)) :
  sound_buttons (init overlap mute master sounds) = sounds.
Proof.
  unfold init. simpl.
  assert (∀ w : t R, sound_buttons (foldl add_sound_button w sounds)
                     = sound_buttons w ++ sounds) as Hfold.
  { induction sounds as [|b bs IH]; intros w; simpl; [by rewrite app_nil_r|].
    rewrite IH. simpl. by rewrite <- app_assoc. }
  by rewrite Hfold.
Qed.

Lemma init_player (overlap mute : bool) (master : option R) (sounds : list (SoundEntry R)) :
  AudioPlayer.active_sounds (audio_player (init overlap mute master sounds))
    = [] ∧
  AudioPlayer.sound_id_counter (audio_player (init overlap mute master sounds))
    = 0 ∧
  AudioPlayer._audio_cache (audio_player (init overlap mute master sounds))
    = ∅.
Proof.
  unfold init. simpl.
  assert (∀ w : t R, audio_player (foldl add_sound_button w sounds)
                     = audio_player w) as Hfold.
  { induction sounds as [|b bs IH]; intros w; simpl; [done|]. by rewrite IH. }
  rewrite Hfold. by destruct master.
Qed.

(** *** Muting the real microphones *)

Lemma alternating_app (muted : bool) (e1 e2 : list effect) :
  alternating muted (e1 ++ e2) ↔
  alternating muted e1 ∧ alternating (mic_after muted e1) e2.
Proof.
  revert muted. induction e1 as [|[m] e1 IH]; intros muted; simpl.
  - naive_solver.
  - rewrite IH. naive_solver.
Qed.

Lemma tracks_silent (self self' : t R) :
  mic_muted self' = mic_muted self → tracks self (self', []).
Proof. by split. Qed.

Lemma tracks_seq (self : t R) (r1 : t R * list effect) (r2 : t R * list effect) :
  tracks self r1 → tracks r1.1 r2 → tracks self (r2.1, r1.2 ++ r2.2).
Proof.
  intros [Ha1 Hm1] [Ha2 Hm2]. split; simpl.
  - apply alternating_app. split; [done|]. by rewrite <- Hm1.
  - unfold mic_after in *. by rewrite foldl_app, <- Hm1.
Qed.

Lemma stop_all_sounds_tracks (self : t R) : tracks self (stop_all_sounds self).
Proof.
  unfold stop_all_sounds. simpl.
  destruct (mic_muted self) eqn:Hm; split; simpl; by rewrite ?Hm.
Qed.

Lemma update_status_tracks (self : t R) : tracks self (update_status self).
Proof.
  unfold update_status. simpl.
  destruct (AudioPlayer.is_playing (audio_player self)),
    (mic_muted self) eqn:Hm; split; simpl; by rewrite ?Hm.
Qed.

Lemma set_hotkey_mic (self : t R) (i : nat) (h : string) :
  mic_muted (set_hotkey self i h) = mic_muted self.
Proof. unfold set_hotkey. by destruct (sound_buttons self !! i). Qed.

(** *** The status timer *)

Lemma update_status_eq (self : t R) :
  update_status self
  = (mk (overlap_audio self) (mute_mic_while_playing self)
        (mic_muted self && AudioPlayer.is_playing (audio_player self))
        ((λ b : SoundEntry R,
            match sound_id b with
            | Some id =>
                if bool_decide
                     (id ∉ (AudioPlayer.active_sounds (audio_player self)).*1)
                then set_playing b None false else b
            | None => b
            end) <$> sound_buttons self)
        (recording_button self) (audio_player self) (hotkey_manager self),
     if mic_muted self && negb (AudioPlayer.is_playing (audio_player self))
     then [mute_all_real_mics false] else []).
Proof.
  unfold update_status, set_mic_muted, set_buttons. simpl.
  by destruct (AudioPlayer.is_playing (audio_player self)), (mic_muted self).
Qed.

(** X21. After a status tick every handle a button still holds is in the
    engine's table, a button whose handle is in the table is untouched, the
    microphones stay muted only if the engine reports that it is playing,
    and a second tick right after changes nothing and calls nothing. *)
Theorem update_status_drops_stale_handles (self : t R) :
  let r := update_status self in
  (∀ b id, b ∈ sound_buttons r.1 → sound_id b = Some id →
           is_Some (AudioPlayer.dict_get
                      (AudioPlayer.active_sounds (audio_player self)) id)) ∧
  (∀ j b id, sound_buttons self !! j = Some b → sound_id b = Some id →
             is_Some (AudioPlayer.dict_get
                        (AudioPlayer.active_sounds (audio_player self)) id) →
             sound_buttons r.1 !! j = Some b) ∧
  (mic_muted r.1 = true → AudioPlayer.is_playing (audio_player self) = true) ∧
  audio_player r.1 = audio_player self ∧
  hotkey_manager r.1 = hotkey_manager self ∧
  update_status r.1 = (r.1, []).
Proof.
  rewrite update_status_eq.
  set (clean := λ b : SoundEntry R,
         match sound_id b with
         | Some id =>
             if bool_decide
                  (id ∉ (AudioPlayer.active_sounds (audio_player self)).*1)
             then set_playing b None false else b
         | None => b
         end).
  assert (∀ b, clean (clean b) = clean b) as Hidem.
  { intros b. unfold clean. destruct (sound_id b) as [id|] eqn:Hid.
    - case_bool_decide as Hin; simpl; [done|]. rewrite Hid.
      rewrite bool_decide_eq_false_2; [done|]. by intros Hn.
    - by rewrite Hid. }
  simpl. split; [|split; [|split; [|split; [|split]]]].
  - intros b id Hin Hid.
    apply list_elem_of_fmap in Hin as (b0 & -> & _).
    unfold clean in Hid. destruct (sound_id b0) as [id0|] eqn:Hid0;
      [|congruence].
    case_bool_decide as Hk; [done|]. rewrite Hid0 in Hid. injection Hid as <-.
    destruct (AudioPlayer.dict_get _ id0) eqn:Hg; [done|].
    apply dict_get_None_keys in Hg. done.
  - intros j b id Hj Hid [v Hv]. rewrite list_lookup_fmap, Hj. simpl.
    f_equal. unfold clean. rewrite Hid. rewrite bool_decide_eq_false_2; [done|].
    intros Hk. apply dict_get_None_keys in Hk. congruence.
  - by intros [_ ?]%andb_true_iff.
  - done.
  - done.
  - assert (clean <$> (clean <$> sound_buttons self)
            = clean <$> sound_buttons self) as Hcc.
    { rewrite <- list_fmap_compose. apply list_fmap_ext.
      intros; apply Hidem. }
    rewrite update_status_eq. simpl.
    match goal with
    | |- context [?f <$> (clean <$> sound_buttons self)] => change f with clean
    end.
    rewrite Hcc.
    by destruct (mic_muted self), (AudioPlayer.is_playing (audio_player self)).
Qed.

(** *** Assigning a recorded chord *)

Lemma with_hotkey_same (b : SoundEntry R) : with_hotkey b (hotkey b) = b.
Proof. by destruct b. Qed.

Lemma set_hotkey_frame (self : t R) (i : nat) (h : string) :
  sound_buttons (set_hotkey self i h)
  = match sound_buttons self !! i with
    | Some b => <[i := with_hotkey b h]> (sound_buttons self)
    | None => sound_buttons self
    end ∧
  audio_player (set_hotkey self i h) = audio_player self ∧
  recording_button (set_hotkey self i h) = recording_button self ∧
  overlap_audio (set_hotkey self i h) = overlap_audio self ∧
  mute_mic_while_playing (set_hotkey self i h) = mute_mic_while_playing self.
Proof. unfold set_hotkey. by destruct (sound_buttons self !! i). Qed.

(** The conflict loop of [finish_hotkey_recording]: every visited button
    other than the recording one whose hotkey is the very string [h] loses
    it. *)
Lemma conflict_loop (rec : nat) (h : string) (l : list nat) :
  ∀ self : t R,
  let self' :=
    foldl (λ w i, match sound_buttons w !! i with
                  | Some b =>
                      if bool_decide (i ≠ rec) && bool_decide (hotkey b = h)
                      then clear_hotkey w i else w
                  | None => w
                  end) self l in
  (∀ j, sound_buttons self' !! j
        = (λ b, if bool_decide (j ∈ l ∧ j ≠ rec ∧ hotkey b = h)
                then with_hotkey b "" else b) <$> (sound_buttons self !! j)) ∧
  audio_player self' = audio_player self ∧
  recording_button self' = recording_button self ∧
  overlap_audio self' = overlap_audio self ∧
  mute_mic_while_playing self' = mute_mic_while_playing self ∧
  mic_muted self' = mic_muted self.
Proof.
  induction l as [|i l IH]; intros self.
  { cbv zeta. cbn [foldl]. split; [|done]. intros j.
    destruct (sound_buttons self !! j); [|done].
    cbn [fmap option_fmap option_map]. rewrite bool_decide_eq_false_2; [done|].
    intros [Hin _]. by apply elem_of_nil in Hin. }
  cbv zeta. cbn [foldl].
  set (w1 := match sound_buttons self !! i with
             | Some b =>
                 if bool_decide (i ≠ rec) && bool_decide (hotkey b = h)
                 then clear_hotkey self i else self
             | None => self
             end).
  destruct (IH w1) as (Hb & Hp & Hr & Ho & Hmu & Hmm).
  assert ((∀ j, sound_buttons w1 !! j
                = (λ b, if bool_decide (j = i ∧ j ≠ rec ∧ hotkey b = h)
                        then with_hotkey b "" else b)
                  <$> (sound_buttons self !! j)) ∧
          audio_player w1 = audio_player self ∧
          recording_button w1 = recording_button self ∧
          overlap_audio w1 = overlap_audio self ∧
          mute_mic_while_playing w1 = mute_mic_while_playing self ∧
          mic_muted w1 = mic_muted self) as (Hb1 & Hp1 & Hr1 & Ho1 & Hmu1 & Hmm1).
  { unfold w1. destruct (sound_buttons self !! i) as [b|] eqn:Hi.
    - destruct (bool_decide (i ≠ rec) && bool_decide (hotkey b = h)) eqn:Hc.
      + apply andb_true_iff in Hc as [Hne%bool_decide_eq_true_1
                                        Hh%bool_decide_eq_true_1].
        destruct (set_hotkey_frame self i "") as (Hsb & ? & ? & ? & ?).
        rewrite Hi in Hsb. unfold clear_hotkey. rewrite set_hotkey_mic.
        split; [|done]. intros j. rewrite Hsb.
        destruct (decide (j = i)) as [->|Hji].
        * rewrite list_lookup_insert_eq by (by eapply lookup_lt_Some).
          rewrite Hi. simpl. by rewrite bool_decide_eq_true_2.
        * rewrite list_lookup_insert_ne by done.
          destruct (sound_buttons self !! j); [|done]. simpl.
          rewrite bool_decide_eq_false_2; [done|]. by intros [? _].
      + split; [|done]. intros j. destruct (sound_buttons self !! j) as [bj|] eqn:Hj;
          [|done]. simpl. rewrite bool_decide_eq_false_2; [done|].
        intros (-> & Hne & Hh). rewrite Hi in Hj. injection Hj as ->.
        apply andb_false_iff in Hc as [Hc|Hc];
          apply bool_decide_eq_false_1 in Hc; done.
    - split; [|done]. intros j. destruct (sound_buttons self !! j) as [bj|] eqn:Hj;
        [|done]. simpl. rewrite bool_decide_eq_false_2; [done|].
      intros (-> & _). congruence. }
  split; [|simpl; repeat split; congruence].
  intros j. simpl. rewrite Hb, Hb1.
  destruct (sound_buttons self !! j) as [bj|]; [|done]. simpl. f_equal.
  destruct (decide (j ≠ rec ∧ hotkey bj = h)) as [[Hne Hh]|Hn].
  - destruct (decide (j = i)) as [->|Hji].
    + rewrite (bool_decide_eq_true_2 (i = i ∧ _)) by done. simpl.
      rewrite (bool_decide_eq_true_2 (i ∈ i :: l ∧ _ ∧ _))
        by (split; [by left|done]).
      by case_bool_decide.
    + rewrite (bool_decide_eq_false_2 (j = i ∧ _)) by (by intros [? _]).
      destruct (decide (j ∈ l)) as [Hin|Hnin].
      * rewrite !bool_decide_eq_true_2; [done|..]; (split; [|done]); [by right|done].
      * rewrite !bool_decide_eq_false_2; [done|..].
        -- intros [Hin _]. apply elem_of_cons in Hin as [?|?]; done.
        -- by intros [? _].
  - rewrite (bool_decide_eq_false_2 (j = i ∧ _)) by (intros (? & ? & ?); by apply Hn).
    rewrite !bool_decide_eq_false_2; [done|..]; intros (? & ? & ?); by apply Hn.
Qed.

(** X22. When a recording finishes, the recording button takes the recorded
    string, every other button whose hotkey is that very string loses its
    hotkey, and all other buttons keep theirs (also one that names the same
    chord in another spelling); a non-empty string is registered; the engine
    is untouched and the recording button is forgotten. *)
Theorem finish_hotkey_recording_assigns (self : t R) (rec : nat) (h : string) :
  recording_button self = Some rec → (rec < length (sound_buttons self))%nat →
  let self' := finish_hotkey_recording self h in
  (∀ j b, sound_buttons self !! j = Some b →
          sound_buttons self' !! j
          = Some (with_hotkey b (if bool_decide (j = rec) then h
                                 else if bool_decide (hotkey b = h) then ""
                                      else hotkey b))) ∧
  length (sound_buttons self') = length (sound_buttons self) ∧
  (h ≠ "" → HotkeyManager._normalize_hotkey_string h
            ∈ HotkeyManager.hotkeys (hotkey_manager self')) ∧
  recording_button self' = None ∧
  audio_player self' = audio_player self.
Proof.
  intros Hrec Hlt. unfold finish_hotkey_recording. rewrite Hrec.
  destruct (conflict_loop rec h (seq 0 (length (sound_buttons self))) self)
    as (Hb & Hp & _).
  set (w1 := foldl _ self _) in *. simpl in Hb, Hp.
  destruct (set_hotkey_frame w1 rec h) as (Hsb & Hsp & _).
  assert (∀ j b, sound_buttons self !! j = Some b →
            sound_buttons (set_hotkey w1 rec h) !! j
            = Some (with_hotkey b (if bool_decide (j = rec) then h
                                   else if bool_decide (hotkey b = h) then ""
                                        else hotkey b))) as Hall.
  { intros j b Hj. rewrite Hsb.
    destruct (lookup_lt_is_Some_2 _ _ Hlt) as [br Hbr].
    pose proof (Hb rec) as Hr1. rewrite Hbr in Hr1. simpl in Hr1.
    rewrite (bool_decide_eq_false_2 (rec ∈ _ ∧ _ ∧ _)) in Hr1
      by (by intros (_ & ? & _)).
    rewrite Hr1.
    destruct (decide (j = rec)) as [->|Hne].
    - rewrite list_lookup_insert_eq
        by (apply lookup_lt_Some in Hr1; done).
      rewrite Hbr in Hj. injection Hj as <-.
      by rewrite bool_decide_eq_true_2.
    - rewrite list_lookup_insert_ne by done.
      rewrite Hb, Hj. simpl. rewrite (bool_decide_eq_false_2 (j = rec)) by done.
      f_equal. destruct (decide (hotkey b = h)) as [Hh|Hh].
      + rewrite !bool_decide_eq_true_2; [done|done|].
        split; [|done]. apply elem_of_seq. apply lookup_lt_Some in Hj. lia.
      + rewrite !bool_decide_eq_false_2; [|done|by intros (_ & _ & ?)].
        by rewrite with_hotkey_same. }
  simpl. split; [done|]. split; [|split; [|split]].
  - apply Nat.le_antisymm.
    + destruct (decide (length (sound_buttons (set_hotkey w1 rec h))
                        ≤ length (sound_buttons self))%nat) as [|Hgt]; [done|].
      exfalso.
      destruct (lookup_lt_is_Some_2 (sound_buttons (set_hotkey w1 rec h))
                  (length (sound_buttons self))) as [b' Hb']; [lia|].
      rewrite Hsb in Hb'.
      assert (sound_buttons w1 !! length (sound_buttons self) = None) as Hn.
      { rewrite Hb. by rewrite lookup_ge_None_2. }
      destruct (sound_buttons w1 !! rec).
      * rewrite list_lookup_insert_ne in Hb' by lia. congruence.
      * congruence.
    + destruct (decide (length (sound_buttons self)
                        ≤ length (sound_buttons (set_hotkey w1 rec h)))%nat)
        as [|Hgt]; [done|]. exfalso.
      destruct (lookup_lt_is_Some_2 (sound_buttons self)
                  (length (sound_buttons (set_hotkey w1 rec h)))) as [b' Hb'];
        [lia|].
      apply Hall in Hb'. apply lookup_lt_Some in Hb'. lia.
  - intros Hne. unfold set_hotkey.
    destruct (lookup_lt_is_Some_2 _ _ Hlt) as [br Hbr].
    pose proof (Hb rec) as Hr1. rewrite Hbr in Hr1. simpl in Hr1.
    destruct (sound_buttons w1 !! rec) as [b1|]; [|done].
    apply on_hotkey_changed_hotkeys. by right.
  - done.
  - by rewrite Hsp.
Qed.

(** *** The registry is a set *)

(** X23. The registered chords are a set without counts: when two buttons
    name the same chord and the hotkey of one of them is cleared, the chord
    is unregistered although the other button still carries its hotkey, and
    no key events fire it any more. *)
Theorem shared_chord_is_unregistered (self : t R) (i j : nat)
        (b b' : SoundEntry R) (evs : list HotkeyManager.op) :
  i ≠ j → sound_buttons self !! i = Some b → sound_buttons self !! j = Some b' →
  hotkey b ≠ "" → chord_of b' = chord_of b → Forall key_event evs →
  sound_buttons (clear_hotkey self i) !! j = Some b' ∧
  (chord_of b' ∉ HotkeyManager.hotkeys (hotkey_manager (clear_hotkey self i))) ∧
  fires (chord_of b')
        (HotkeyManager.run (hotkey_manager (clear_hotkey self i)) evs).2 = 0%nat.
Proof.
  intros Hij Hi Hj Hne Hch Hev.
  assert (chord_of b'
          ∉ HotkeyManager.hotkeys (hotkey_manager (clear_hotkey self i))) as Hc.
  { unfold clear_hotkey, set_hotkey. rewrite Hi.
    intros Hin%on_hotkey_changed_hotkeys. simpl in Hin.
    destruct Hin as [[_ Hin]|[? _]]; [|done]. by apply Hin. }
  split; [|split; [done|]].
  - unfold clear_hotkey.
    destruct (set_hotkey_frame self i "") as (-> & _). rewrite Hi.
    by rewrite list_lookup_insert_ne.
  - by apply unregistered_silent.
Qed.

(** *** A recording that ends before it began *)

Lemma set_hotkey_recording (self : t R) (j : nat) (h : string) :
  HotkeyManager.recording (hotkey_manager (set_hotkey self j h))
  = HotkeyManager.recording (hotkey_manager self).
Proof.
  unfold set_hotkey, on_hotkey_changed.
  destruct (sound_buttons self !! j); [|done]. simpl.
  unfold HotkeyManager.register, HotkeyManager.unregister.
  repeat case_bool_decide; done.
Qed.

Lemma conflict_loop_recording (rec : nat) (h : string) (l : list nat) :
  ∀ self : t R,
  HotkeyManager.recording
    (hotkey_manager
       (foldl (λ w i, match sound_buttons w !! i with
                      | Some b =>
                          if bool_decide (i ≠ rec) && bool_decide (hotkey b = h)
                          then clear_hotkey w i else w
                      | None => w
                      end) self l))
  = HotkeyManager.recording (hotkey_manager self).
Proof.
  induction l as [|j l IH]; intros self; [done|]. simpl. rewrite IH.
  destruct (sound_buttons self !! j); [|done].
  destruct (_ && _); [|done]. apply set_hotkey_recording.
Qed.


(** X24. A key released right after recording was started (a key that was
    already down, say) ends the session with the empty chord, and delivering
    that result clears the hotkey the button had and unregisters its chord. *)
Theorem release_before_press_clears_hotkey (self : t R) (i : nat)
        (b : SoundEntry R) (k : HotkeyManager.key) :
  sound_buttons self !! i = Some b →
  let w1 := start_hotkey_recording self i in
  let r := HotkeyManager._on_release (hotkey_manager w1) k in
  let w2 := finish_hotkey_recording (set_manager w1 r.1) "" in
  r.2 = [HotkeyManager.recording_finished ""] ∧
  sound_buttons w2 !! i = Some (with_hotkey b "") ∧
  (hotkey b ≠ "" →
   chord_of b ∉ HotkeyManager.hotkeys (hotkey_manager w2)) ∧
  HotkeyManager.recording (hotkey_manager w2) = false.
Proof.
  intros Hi.
  assert ((HotkeyManager._on_release
             (HotkeyManager.start_recording (hotkey_manager self)) k).2
          = [HotkeyManager.recording_finished ""] ∧
          HotkeyManager.recording
            (HotkeyManager._on_release
               (HotkeyManager.start_recording (hotkey_manager self)) k).1
          = false) as [Hev Hrel].
  { unfold HotkeyManager._on_release. simpl.
    rewrite (bool_decide_eq_false_2 (_ ∈ ∅)) by apply not_elem_of_empty.
    by rewrite bool_decide_eq_true_2. }
  cbv zeta. split; [done|].
  set (w1 := set_manager (start_hotkey_recording self i) _).
  assert (recording_button w1 = Some i) as Hrec by done.
  assert (sound_buttons w1 = sound_buttons self) as Hbs by done.
  destruct (conflict_loop i "" (seq 0 (length (sound_buttons w1))) w1)
    as (Hb & _).
  pose proof (Hb i) as Hbi. rewrite Hbs, Hi in Hbi. simpl in Hbi.
  rewrite (bool_decide_eq_false_2 (i ∈ _ ∧ _ ∧ _)) in Hbi
    by (by intros (_ & ? & _)).
  split; [|split].
  - unfold finish_hotkey_recording. rewrite Hrec. simpl.
    match goal with
    | |- sound_buttons (set_hotkey ?w _ _) !! _ = _ =>
        destruct (set_hotkey_frame w i "") as (-> & _)
    end.
    rewrite Hbi. apply list_lookup_insert_eq. by apply lookup_lt_Some in Hbi.
  - intros Hne. unfold finish_hotkey_recording. rewrite Hrec. simpl.
    unfold set_hotkey. rewrite Hbi. intros Hin%on_hotkey_changed_hotkeys.
    destruct Hin as [[_ Hin]|[? _]]; [|done]. by apply Hin.
  - unfold finish_hotkey_recording. rewrite Hrec. simpl.
    rewrite set_hotkey_recording. by rewrite conflict_loop_recording.
Qed.

(** *** The handles the buttons hold *)

Lemma handles_ok_in_iff (self : t R) :
  NoDup (AudioPlayer.active_sounds (audio_player self)).*1 →
  handles_ok self ↔ handles_ok_in self.
Proof.
  intros Hnd. unfold handles_ok, handles_ok_in.
  split; intros (H1 & H2 & H3); (split; [done|split; [done|]]);
    intros i b id v Hi Hid Hv; apply (H3 i b id v Hi Hid).
  - by apply dict_get_elem.
  - by apply dict_get_Some_elem.
Qed.

Lemma handles_frame (self self' : t R) :
  handles_ok_in self →
  voices_kept (audio_player self) (audio_player self') →
  handles_sub (sound_buttons self) (sound_buttons self') →
  handles_ok_in self'.
Proof.
  intros (H1 & H2 & H3) [Hc Hv] Hsub. split; [|split].
  - intros i b' id Hi Hid.
    destruct (Hsub i b' Hi) as [?|(b & Hb & _ & Hs)]; [congruence|].
    rewrite Hid in Hs. specialize (H1 i b id Hb (eq_sym Hs)). lia.
  - intros i j b1 b2 id Hi Hj Hid1 Hid2.
    destruct (Hsub i b1 Hi) as [?|(c1 & Hc1 & _ & Hs1)]; [congruence|].
    destruct (Hsub j b2 Hj) as [?|(c2 & Hc2 & _ & Hs2)]; [congruence|].
    rewrite Hid1 in Hs1. rewrite Hid2 in Hs2.
    by apply (H2 i j c1 c2 id).
  - intros i b' id v' Hi Hid Hin.
    destruct (Hsub i b' Hi) as [?|(b & Hb & Hf & Hs)]; [congruence|].
    destruct (Hv id v' Hin) as (v & Hin0 & Hfv).
    rewrite Hid in Hs. rewrite Hfv, Hf. by apply (H3 i b id v).
Qed.

Lemma voices_kept_refl (p : AudioPlayer.t R) : voices_kept p p.
Proof. split; [lia|]. intros k v Hin. by exists v. Qed.

Lemma handles_sub_refl (bs : list (SoundEntry R)) : handles_sub bs bs.
Proof. intros i b Hi. right. by exists b. Qed.

Lemma handles_sub_insert (bs : list (SoundEntry R)) (i : nat) (b b' : SoundEntry R) :
  bs !! i = Some b → file_path b' = file_path b →
  sound_id b' = None ∨ sound_id b' = sound_id b →
  handles_sub bs (<[i := b']> bs).
Proof.
  intros Hi Hf Hs j c Hj. destruct (decide (j = i)) as [->|Hne].
  - rewrite list_lookup_insert_eq in Hj by (by eapply lookup_lt_Some).
    injection Hj as <-. destruct Hs as [?|?]; [by left|right]. by exists b.
  - rewrite list_lookup_insert_ne in Hj by done. right. by exists c.
Qed.

Lemma handles_sub_fmap (f : SoundEntry R → SoundEntry R) (bs : list (SoundEntry R)) :
  (∀ b, file_path (f b) = file_path b ∧
        (sound_id (f b) = None ∨ sound_id (f b) = sound_id b)) →
  handles_sub bs (f <$> bs).
Proof.
  intros Hf i b' Hi. rewrite list_lookup_fmap in Hi.
  destruct (bs !! i) as [b|] eqn:Hb; [|done]. injection Hi as <-.
  destruct (Hf b) as [? [?|?]]; [by left|right]. by exists b.
Qed.

Lemma elem_of_dict_set (d : list (Z * AudioPlayer.Voice R)) (k0 : Z)
      (v0 : AudioPlayer.Voice R) (kv : Z * AudioPlayer.Voice R) :
  kv ∈ AudioPlayer.dict_set d k0 v0 → kv = (k0, v0) ∨ kv ∈ d.
Proof.
  induction d as [|[k' v'] d IH]; simpl.
  - intros ->%list_elem_of_singleton. by left.
  - case_bool_decide.
    + intros [->|?]%elem_of_cons; [by left|right; by right].
    + intros [->|Hin]%elem_of_cons; [right; by left|].
      destruct (IH Hin) as [?|?]; [by left|right; by right].
Qed.

Lemma elem_of_dict_del (d : list (Z * AudioPlayer.Voice R)) (k0 : Z)
      (kv : Z * AudioPlayer.Voice R) :
  kv ∈ AudioPlayer.dict_del d k0 → kv ∈ d.
Proof.
  induction d as [|[k' v'] d IH]; simpl; [done|].
  case_bool_decide; [by right|].
  intros [->|?]%elem_of_cons; [by left|right; by apply IH].
Qed.

Lemma elem_of_foldl_dict_del (ks : list Z) :
  ∀ (d : list (Z * AudioPlayer.Voice R)) (kv : Z * AudioPlayer.Voice R),
  kv ∈ foldl AudioPlayer.dict_del d ks → kv ∈ d.
Proof.
  induction ks as [|k ks IH]; intros d kv; simpl; [done|].
  intros Hin%IH. by eapply elem_of_dict_del.
Qed.

(** The mixing loop moves cursors; identifiers and files stay. *)
Lemma mix_loop_files (frames : nat) (master : R)
      (todo : list (Z * AudioPlayer.Voice R)) :
  ∀ (mixed : list (list R)) (fin : list Z) (k : Z) (v' : AudioPlayer.Voice R),
  (k, v') ∈ (AudioPlayer.mix_loop frames master todo mixed fin).1 →
  ∃ v, (k, v) ∈ todo ∧ AudioPlayer.file_path v' = AudioPlayer.file_path v.
Proof.
  induction todo as [|[id v] todo IH]; intros mixed fin k v'; simpl.
  { by intros ?%elem_of_nil. }
  assert (∀ d w, (k, v') ∈ (id, w) :: d →
            AudioPlayer.file_path w = AudioPlayer.file_path v →
            (∀ k v', (k, v') ∈ d →
               ∃ v, (k, v) ∈ todo ∧
                    AudioPlayer.file_path v' = AudioPlayer.file_path v) →
            ∃ v0, (k, v0) ∈ (id, v) :: todo ∧
                  AudioPlayer.file_path v' = AudioPlayer.file_path v0) as Hcons.
  { intros d w [Heq|Hin]%elem_of_cons Hw Hd.
    - injection Heq as -> ->. exists v. split; [by left|done].
    - destruct (Hd k v' Hin) as (v0 & ? & ?). exists v0. split; [by right|done]. }
  destruct (AudioPlayer.paused v).
  { specialize (IH mixed fin).
    destruct (AudioPlayer.mix_loop frames master todo mixed fin) as [d r].
    simpl in *. intros Hin. by apply (Hcons d v). }
  destruct (0 <? _).
  - destruct (iadd_prefix _ _ _ _) as [mixed'|]; simpl.
    + match goal with |- context [AudioPlayer.mix_loop frames master todo ?m ?f] =>
        specialize (IH m f);
        destruct (AudioPlayer.mix_loop frames master todo m f) as [d r] end.
      simpl in *. intros Hin. by eapply (Hcons d).
    + intros Hin. exists v'. done.
  - match goal with |- context [AudioPlayer.mix_loop frames master todo ?m ?f] =>
      specialize (IH m f);
      destruct (AudioPlayer.mix_loop frames master todo m f) as [d r] end.
    simpl in *. intros Hin. by apply (Hcons d v).
Qed.

Lemma callback_voices_kept (p : AudioPlayer.t R) (frames : nat) :
  voices_kept p (AudioPlayer._audio_callback p frames).1.
Proof.
  unfold AudioPlayer._audio_callback.
  pose proof (mix_loop_files frames (AudioPlayer.master_volume p)
                (AudioPlayer.active_sounds p) (zeros frames CHANNELS) []) as Hm.
  destruct (AudioPlayer.mix_loop _ _ _ _ _) as [d [mixed fin|]]; simpl in *.
  - split; simpl; [lia|]. intros k v' Hin%elem_of_foldl_dict_del. by apply Hm.
  - split; simpl; [lia|]. done.
Qed.

Lemma stop_sound_voices_kept (p : AudioPlayer.t R) (id : Z) :
  voices_kept p (AudioPlayer.stop_sound p id).
Proof.
  unfold AudioPlayer.stop_sound. split; simpl; [lia|]. intros k v' Hin.
  exists v'. split; [|done]. destruct (AudioPlayer.dict_mem _ _); [|done].
  by eapply elem_of_dict_del.
Qed.

Lemma toggle_voices_kept (p : AudioPlayer.t R) (id : Z) :
  voices_kept p (AudioPlayer.toggle_pause_sound p id).1.
Proof.
  unfold AudioPlayer.toggle_pause_sound.
  destruct (AudioPlayer.dict_get _ _) as [v|] eqn:Hg; [|apply voices_kept_refl].
  split; simpl; [lia|]. intros k v' [Heq|Hin]%elem_of_dict_set.
  - injection Heq as -> ->. exists v. split; [|done].
    by apply dict_get_Some_elem.
  - by exists v'.
Qed.

Lemma set_volume_voices_kept (p : AudioPlayer.t R) (id : Z) (vol : R) :
  voices_kept p (AudioPlayer.set_sound_volume p id vol).
Proof.
  unfold AudioPlayer.set_sound_volume.
  destruct (AudioPlayer.dict_get _ _) as [v|] eqn:Hg; [|apply voices_kept_refl].
  split; simpl; [lia|]. intros k v' [Heq|Hin]%elem_of_dict_set.
  - injection Heq as -> ->. exists v. split; [|done].
    by apply dict_get_Some_elem.
  - by exists v'.
Qed.

Lemma set_hotkey_handles (self : t R) (i : nat) (h : string) :
  handles_ok_in self → table_ok (audio_player self) →
  handles_ok_in (set_hotkey self i h) ∧
  table_ok (audio_player (set_hotkey self i h)).
Proof.
  intros Hok Htab. destruct (set_hotkey_frame self i h) as (Hb & Hp & _).
  split; [|by rewrite Hp].
  apply (handles_frame self); [done|rewrite Hp; apply voices_kept_refl|].
  rewrite Hb. destruct (sound_buttons self !! i) as [b|] eqn:Hi;
    [|apply handles_sub_refl].
  apply (handles_sub_insert _ _ b); [done|done|by right].
Qed.
End WindowHotkeyProofs.

Section WindowProofs.
Context {R : Type} `{Float32 R}.
Import Window.
Variable sf_read : string → option (ndarray R * Z).
Variable resample : ndarray2 R → Z → option (ndarray2 R).

(** *** What [play_sound] leaves alone *)

Lemma play_sound_frame (self : t R) (i : nat) :
  let self' := (play_sound sf_read resample self i).1 in
  hotkey <$> sound_buttons self' = hotkey <$> sound_buttons self ∧
  overlap_audio self' = overlap_audio self ∧
  mute_mic_while_playing self' = mute_mic_while_playing self ∧
  hotkey_manager self' = hotkey_manager self ∧
  recording_button self' = recording_button self.
Proof.
  unfold play_sound. destruct (sound_buttons self !! i) as [b|] eqn:Hb; [|done].
  destruct (mute_mic_while_playing self && negb (mic_muted self));
    destruct (AudioPlayer.play_sound _ _ _ _ _ _) as [p [id|]]; simpl;
    try done; case_bool_decide; simpl; try done;
    (split; [|done]); rewrite list_fmap_insert; simpl;
    apply list_insert_id; by rewrite list_lookup_fmap, Hb.
Qed.

(** The loop of [on_hotkey_triggered] plays the answering buttons among
    those still to visit: all of them with overlap, the first without. *)
Lemma trigger_loop_plays (trigger : string) (todo : list nat) :
  ∀ self : t R,
  trigger_loop sf_read resample self
               (HotkeyManager._normalize_hotkey_string trigger) todo
  = play_each sf_read resample self
      (let l := List.filter (λ i, match sound_buttons self !! i with
                                  | Some b => answers trigger b
                                  | None => false end) todo in
       if overlap_audio self then l else take 1 l).
Proof.
  induction todo as [|i todo IH]; intros self.
  { simpl. by destruct (overlap_audio self). }
  cbn [trigger_loop List.filter].
  destruct (sound_buttons self !! i) as [b|] eqn:Hb; [|exact (IH self)].
  change (answers trigger b)
    with (bool_decide (hotkey b ≠ "")
          && bool_decide (HotkeyManager._normalize_hotkey_string (hotkey b)
                          = HotkeyManager._normalize_hotkey_string trigger)).
  destruct (bool_decide (hotkey b ≠ "")
            && bool_decide (HotkeyManager._normalize_hotkey_string (hotkey b)
                            = HotkeyManager._normalize_hotkey_string trigger))
    eqn:Hans; [|exact (IH self)].
  destruct (play_sound_frame self i) as (Hh & Hov & _).
  destruct (overlap_audio self) eqn:Ho.
  - cbn [play_each].
    destruct (play_sound sf_read resample self i) as [s1 e1]. simpl in *.
    rewrite Hov. simpl. rewrite IH, Hov. simpl.
    by rewrite (matching_frame self s1 trigger todo Hh).
  - cbn [take play_each].
    destruct (play_sound sf_read resample self i) as [s1 e1]. simpl in *.
    rewrite Hov. simpl. by rewrite app_nil_r.
Qed.

(** X25. A trigger plays the buttons whose hotkey names the triggered chord:
    with overlap every such button, in grid order; without overlap only the
    first of them, whether or not its file loads; and when no button answers
    nothing happens. *)
Theorem trigger_plays_answering_buttons (self : t R) (trigger : string) :
  on_hotkey_triggered sf_read resample self trigger
  = play_each sf_read resample self
      (if overlap_audio self then matching self trigger
       else take 1 (matching self trigger)) ∧
  (∀ i l, overlap_audio self = false → matching self trigger = i :: l →
          on_hotkey_triggered sf_read resample self trigger
          = play_sound sf_read resample self i) ∧
  (matching self trigger = [] →
   on_hotkey_triggered sf_read resample self trigger = (self, [])).
Proof.
  assert (on_hotkey_triggered sf_read resample self trigger
          = play_each sf_read resample self
              (if overlap_audio self then matching self trigger
               else take 1 (matching self trigger))) as Heq.
  { unfold on_hotkey_triggered. by rewrite trigger_loop_plays. }
  split; [done|]. split.
  - intros i l Ho Hm. rewrite Heq, Ho, Hm. simpl.
    destruct (play_sound sf_read resample self i) as [s1 e1].
    by rewrite app_nil_r.
  - intros Hm. rewrite Heq, Hm. by destruct (overlap_audio self).
Qed.

Lemma play_sound_keeps_hotkeys (self : t R) (i : nat) :
  keeps_hotkeys self (play_sound sf_read resample self i).1.
Proof.
  destruct (play_sound_frame self i) as (Hh & _ & _ & Hm & _).
  split; [done|]. simpl in Hm. by rewrite Hm.
Qed.

Lemma trigger_loop_keeps_hotkeys (trigger : string) (todo : list nat) :
  ∀ self : t R,
  keeps_hotkeys self (trigger_loop sf_read resample self trigger todo).1.
Proof.
  induction todo as [|i todo IH]; intros self; [done|]. cbn [trigger_loop].
  destruct (sound_buttons self !! i) as [b|]; [|apply IH].
  destruct (_ && _); [|apply IH].
  pose proof (play_sound_keeps_hotkeys self i) as Hp.
  destruct (play_sound sf_read resample self i) as [s1 e1]. simpl in Hp.
  destruct (negb (overlap_audio s1)); [done|].
  specialize (IH s1).
  destruct (trigger_loop sf_read resample s1 trigger todo) as [s2 e2].
  simpl in *. by eapply keeps_hotkeys_trans.
Qed.

Lemma step_registry (self : t R) (o : op R) :
  registry_has_buttons self →
  registry_has_buttons (step sf_read resample self o).1.
Proof.
  intros Hreg.
  destruct o as [i|i|i|i|f n| |c|c|h|h| |k|k|n|i v|v| ]; simpl.
  - eapply registry_frame; [|done]. unfold on_play_clicked.
    destruct (sound_buttons self !! i) as [b|]; [|done].
    destruct (sound_id b);
      [apply stop_sound_keeps_hotkeys|apply play_sound_keeps_hotkeys].
  - eapply registry_frame; [|done]. apply on_pause_clicked_keeps_hotkeys.
  - by apply set_hotkey_registry.
  - eapply registry_frame; [|done]. by case_bool_decide.
  - intros h Hh. destruct (Hreg h Hh) as (b & Hb & ? & ?).
    exists b. split; [|done]. simpl. apply elem_of_app. by left.
  - eapply registry_frame; [|done]. apply stop_all_sounds_keeps_hotkeys.
  - eapply registry_frame; [|done]. done.
  - eapply registry_frame; [|done]. done.
  - eapply registry_frame; [|done]. apply trigger_loop_keeps_hotkeys.
  - by apply finish_hotkey_recording_registry.
  - eapply registry_frame; [|done]. apply update_status_keeps_hotkeys.
  - eapply registry_frame; [|done]. split; [done|]. simpl.
    by destruct (press_state (hotkey_manager self) k) as (-> & _).
  - eapply registry_frame; [|done]. split; [done|]. simpl.
    by destruct (on_release_state (hotkey_manager self) k) as (-> & _).
  - eapply registry_frame; [|done]. done.
  - eapply registry_frame; [|done]. apply on_volume_changed_keeps_hotkeys.
  - eapply registry_frame; [|done]. done.
  - eapply registry_frame; [|done]. done.
Qed.

Lemma run_registry (ops : list (op R)) :
  ∀ self : t R,
  registry_has_buttons self →
  registry_has_buttons (run sf_read resample self ops).1.
Proof.
  induction ops as [|o ops IH]; intros self Hreg; [done|]. cbn [run].
  pose proof (step_registry self o Hreg) as Hs.
  destruct (step sf_read resample self o) as [s1 e1].
  specialize (IH s1 Hs). by destruct (run sf_read resample s1 ops).
Qed.

(** X26. In every state a window reaches after its start-up, by any clicks,
    signal deliveries, timer ticks, key events and audio callbacks, every
    registered chord is the chord of a button with a hotkey: whenever the
    detector emits a trigger, some button answers it. *)
Theorem fired_chord_has_button (overlap mute : bool) (master : option R)
        (sounds : list (SoundEntry R)) (ops : list (op R)) :
  let self := (run sf_read resample (init overlap mute master sounds) ops).1 in
  registry_has_buttons self ∧
  ∀ k e, e ∈ (HotkeyManager._on_press (hotkey_manager self) k).2 →
         ∃ h, e = HotkeyManager.hotkey_triggered h ∧ matching self h ≠ [].
Proof.
  assert (registry_has_buttons
            (run sf_read resample (init overlap mute master sounds) ops).1)
    as Hreg.
  { apply run_registry. intros h Hh.
    unfold init in *. apply setup_hotkeys_frame in Hh.
    destruct Hh as (b & ? & ? & ?). exists b. split; [|done].
    by rewrite (proj2 (setup_hotkeys_frame _)). }
  simpl. split; [done|]. intros k e He.
  apply press_events in He as (h & -> & _ & Hh & _).
  exists h. split; [done|].
  destruct (Hreg h Hh) as (b & Hb & Hne & Hch).
  apply list_elem_of_lookup in Hb as [i Hi].
  intros Hnil. assert (i ∈ matching
    (run sf_read resample (init overlap mute master sounds) ops).1 h) as Hin.
  { unfold matching. apply list_elem_of_In, List.filter_In. split.
    - apply in_seq. apply lookup_lt_Some in Hi. lia.
    - rewrite Hi. unfold answers. rewrite bool_decide_eq_true_2 by done.
      simpl. apply bool_decide_eq_true_2. rewrite <- Hch. unfold chord_of.
      by rewrite normalize_hotkey_string_idempotent. }
  rewrite Hnil in Hin. by apply elem_of_nil in Hin.
Qed.

Lemma play_sound_tracks (self : t R) (i : nat) :
  tracks self (play_sound sf_read resample self i).
Proof.
  unfold play_sound. destruct (sound_buttons self !! i) as [b|]; [|done].
  destruct (mute_mic_while_playing self); simpl.
  - destruct (mic_muted self) eqn:Hm; simpl;
      destruct (AudioPlayer.play_sound _ _ _ _ _ _) as [p [id|]];
      try case_bool_decide; split; simpl; by rewrite ?Hm.
  - destruct (AudioPlayer.play_sound _ _ _ _ _ _) as [p [id|]];
      try case_bool_decide; by split.
Qed.

Lemma trigger_loop_tracks (trigger : string) (todo : list nat) :
  ∀ self : t R, tracks self (trigger_loop sf_read resample self trigger todo).
Proof.
  induction todo as [|i todo IH]; intros self; [done|]. cbn [trigger_loop].
  destruct (sound_buttons self !! i) as [b|]; [|apply IH].
  destruct (_ && _); [|apply IH].
  pose proof (play_sound_tracks self i) as Hp.
  destruct (play_sound sf_read resample self i) as [s1 e1].
  destruct (negb (overlap_audio s1)); [done|].
  pose proof (tracks_seq self (s1, e1) _ Hp (IH s1)) as Hs.
  by destruct (trigger_loop sf_read resample s1 trigger todo) as [s2 e2].
Qed.

Lemma step_tracks (self : t R) (o : op R) :
  tracks self (step sf_read resample self o).
Proof.
  destruct o as [i|i|i|i|f n| |c|c|h|h| |k|k|n|i v|v| ]; simpl;
    try (by apply tracks_silent).
  - unfold on_play_clicked. destruct (sound_buttons self !! i) as [b|] eqn:Hb;
      [|done].
    destruct (sound_id b) eqn:Hid; [|apply play_sound_tracks].
    apply tracks_silent. unfold stop_sound. by rewrite Hb, Hid.
  - apply tracks_silent. unfold on_pause_clicked.
    destruct (sound_buttons self !! i) as [b|]; [|done].
    destruct (sound_id b); [|done].
    by destruct (AudioPlayer.toggle_pause_sound _ _).
  - apply tracks_silent. apply set_hotkey_mic.
  - apply tracks_silent. by case_bool_decide.
  - apply stop_all_sounds_tracks.
  - apply trigger_loop_tracks.
  - apply tracks_silent. unfold finish_hotkey_recording.
    destruct (recording_button self) as [rec|]; [|done]. simpl.
    rewrite set_hotkey_mic.
    generalize (seq 0 (length (sound_buttons self))). intros l.
    revert self. induction l as [|j l IH]; intros self; [done|].
    simpl. rewrite IH. destruct (sound_buttons self !! j); [|done].
    destruct (_ && _); [|done]. apply set_hotkey_mic.
  - apply update_status_tracks.
  - apply tracks_silent. unfold on_volume_changed.
    destruct (sound_buttons self !! i) as [b|]; [|done]. by destruct (sound_id b).
Qed.

(** X27. The window's [mic_muted] flag always equals what it last told the
    device manager, and it never repeats itself: along any run, each call
    of [mute_all_real_mics] asks for the opposite of the state the previous
    call (or the starting flag) left; and closing the window after the run
    leaves the microphones unmuted. *)
Theorem mute_calls_alternate (self : t R) (ops : list (op R)) :
  let r := run sf_read resample self ops in
  alternating (mic_muted self) r.2 ∧
  mic_muted r.1 = mic_after (mic_muted self) r.2 ∧
  alternating (mic_muted self) (r.2 ++ (closeEvent r.1).2) ∧
  mic_after (mic_muted self) (r.2 ++ (closeEvent r.1).2) = false.
Proof.
  assert (alternating (mic_muted self) (run sf_read resample self ops).2 ∧
          mic_muted (run sf_read resample self ops).1
          = mic_after (mic_muted self) (run sf_read resample self ops).2)
    as [Ha Hm].
  { revert self. induction ops as [|o ops IH]; intros self; [done|].
    cbn [run]. pose proof (step_tracks self o) as Hs.
    destruct (step sf_read resample self o) as [s1 e1].
    pose proof (tracks_seq self (s1, e1) _ Hs (IH s1)) as Hr.
    by destruct (run sf_read resample s1 ops) as [s2 e2]. }
  cbv zeta. split; [done|]. split; [done|].
  rewrite alternating_app. unfold mic_after at 2. rewrite foldl_app.
  fold (mic_after (mic_muted self) (run sf_read resample self ops).2).
  rewrite <- Hm. unfold closeEvent. simpl.
  by destruct (mic_muted (run sf_read resample self ops).1).
Qed.

(** X28. A play request for a file that cannot be decoded still mutes the
    real microphones when that option is on: the engine and the buttons are
    as before, but the device call has been made and [mic_muted] is set;
    if nothing is playing, the next status tick undoes it. *)
Theorem failed_play_mutes_microphones (self : t R) (i : nat) (b : SoundEntry R) :
  sound_buttons self !! i = Some b →
  (AudioPlayer.load_audio sf_read resample (audio_player self) (file_path b)).2
    = None →
  mute_mic_while_playing self = true → mic_muted self = false →
  play_sound sf_read resample self i
    = (set_mic_muted self true, [mute_all_real_mics true]) ∧
  (AudioPlayer.is_playing (audio_player self) = false →
   (update_status (play_sound sf_read resample self i).1).2
     = [mute_all_real_mics false] ∧
   mic_muted (update_status (play_sound sf_read resample self i).1).1 = false).
Proof.
  intros Hb Hload Hopt Hm.
  assert (play_sound sf_read resample self i
          = (set_mic_muted self true, [mute_all_real_mics true])) as Hplay.
  { unfold play_sound. rewrite Hb, Hopt, Hm. simpl.
    unfold AudioPlayer.play_sound.
    unfold AudioPlayer.load_audio in *.
    destruct (AudioPlayer._audio_cache (audio_player self) !! file_path b);
      [done|].
    destruct (AudioPlayer.decode _ _ _); [done|]. simpl.
    unfold set_player, set_mic_muted. simpl. by destruct self. }
  split; [done|]. intros Hidle. rewrite Hplay. simpl.
  unfold update_status. simpl. by rewrite Hidle.
Qed.

(** [play_sound] hands the button a handle no other button holds. *)
Lemma play_sound_handles (self : t R) (i : nat) :
  handles_ok_in self → table_ok (audio_player self) →
  handles_ok_in (play_sound sf_read resample self i).1 ∧
  table_ok (audio_player (play_sound sf_read resample self i).1).
Proof.
  intros Hok Htab. unfold play_sound.
  destruct (sound_buttons self !! i) as [b|] eqn:Hb; [|done].
  set (w0 := if mute_mic_while_playing self && negb (mic_muted self)
             then (set_mic_muted self true, [mute_all_real_mics true])
             else (self, [])).
  assert (sound_buttons w0.1 = sound_buttons self ∧
          audio_player w0.1 = audio_player self ∧
          overlap_audio w0.1 = overlap_audio self) as (Hb0 & Hp0 & Ho0)
    by (unfold w0; by destruct (_ && _)).
  destruct w0 as [w e]. simpl in *. rewrite Hp0, Ho0.
  pose proof (step_table_ok sf_read resample (audio_player self)
                (AudioPlayer.Play (file_path b) (volume b) (overlap_audio self))
                Htab) as Htab'.
  simpl in Htab'. unfold AudioPlayer.play_sound in *.
  destruct (load_audio_table sf_read resample (audio_player self) (file_path b))
    as (Ha & Hc & _).
  destruct (AudioPlayer.load_audio sf_read resample (audio_player self)
              (file_path b)) as [p1 [buf|]]; simpl in *.
  2:{ split; [|done]. apply (handles_frame self); [done| |].
      - split; simpl; [lia|]. rewrite Ha. intros k v ?. by exists v.
      - simpl. rewrite Hb0. apply handles_sub_refl. }
  rewrite Hc, Ha in *.
  set (c := AudioPlayer.sound_id_counter (audio_player self)) in *.
  set (new := AudioPlayer.mkVoice buf 0 (volume b) (file_path b) false) in *.
  set (d := if overlap_audio self
            then AudioPlayer.active_sounds (audio_player self) else []) in *.
  assert (∀ kv, kv ∈ d → kv ∈ AudioPlayer.active_sounds (audio_player self))
    as Hd.
  { unfold d. destruct (overlap_audio self); [done|]. by intros kv ?%elem_of_nil. }
  destruct Hok as (H1 & H2 & H3). destruct Htab as [_ Hkeys].
  rewrite Forall_forall in Hkeys.
  assert (∀ bs' : list (SoundEntry R),
            (∀ j b', bs' !! j = Some b' →
                     (j = i ∧ sound_id b' = Some (c + 1) ∧
                      file_path b' = file_path b) ∨
                     sound_buttons self !! j = Some b') →
            handles_ok_in
              (mk (overlap_audio w) (mute_mic_while_playing w) (mic_muted w) bs'
                  (recording_button w)
                  (AudioPlayer.mk (AudioPlayer.dict_set d (c + 1) new) (c + 1)
                     (AudioPlayer.master_volume p1) true
                     (AudioPlayer._audio_cache p1))
                  (hotkey_manager w))) as Hgen.
  { intros bs' Hbs. split; [|split]; simpl.
    - intros j b' id Hj Hid. destruct (Hbs j b' Hj) as [(_ & Hs & _)|Hold].
      + rewrite Hs in Hid. injection Hid as <-. lia.
      + specialize (H1 j b' id Hold Hid). lia.
    - intros j1 j2 b1 b2 id Hj1 Hj2 Hid1 Hid2.
      destruct (Hbs j1 b1 Hj1) as [(-> & Hs1 & _)|Hold1];
        destruct (Hbs j2 b2 Hj2) as [(-> & Hs2 & _)|Hold2]; [done|..].
      + rewrite Hs1 in Hid1. injection Hid1 as <-.
        specialize (H1 j2 b2 _ Hold2 Hid2). lia.
      + rewrite Hs2 in Hid2. injection Hid2 as <-.
        specialize (H1 j1 b1 _ Hold1 Hid1). lia.
      + by apply (H2 j1 j2 b1 b2 id).
    - intros j b' id v Hj Hid [Heq|Hin]%elem_of_dict_set.
      + injection Heq as -> ->. simpl.
        destruct (Hbs j b' Hj) as [(_ & _ & Hf)|Hold]; [done|].
        specialize (H1 j b' _ Hold Hid). lia.
      + apply Hd in Hin. destruct (Hbs j b' Hj) as [(_ & Hs & _)|Hold].
        * rewrite Hs in Hid. injection Hid as <-.
          apply Hkeys in Hin as [Hle _]. simpl in Hle. lia.
        * by apply (H3 j b' id v). }
  split; [|by case_bool_decide].
  case_bool_decide; simpl; apply Hgen; intros j b' Hj.
  - rewrite Hb0 in Hj. destruct (decide (j = i)) as [->|Hne].
    + rewrite list_lookup_insert_eq in Hj by (by eapply lookup_lt_Some).
      injection Hj as <-. by left.
    + rewrite list_lookup_insert_ne in Hj by done. by right.
  - right. by rewrite <- Hb0.
Qed.

Lemma stop_sound_handles (self : t R) (i : nat) :
  handles_ok_in self → table_ok (audio_player self) →
  handles_ok_in (stop_sound self i) ∧ table_ok (audio_player (stop_sound self i)).
Proof.
  intros Hok Htab. unfold stop_sound.
  destruct (sound_buttons self !! i) as [b|] eqn:Hb; [|done].
  destruct (sound_id b) as [id|] eqn:Hid; [|done]. split.
  - apply (handles_frame self); [done|apply stop_sound_voices_kept|].
    simpl. apply (handles_sub_insert _ _ b); [done|done|by left].
  - apply (step_table_ok sf_read resample (audio_player self)
             (AudioPlayer.Stop id) Htab).
Qed.

Lemma trigger_loop_handles (trigger : string) (todo : list nat) :
  ∀ self : t R,
  handles_ok_in self → table_ok (audio_player self) →
  handles_ok_in (trigger_loop sf_read resample self trigger todo).1 ∧
  table_ok (audio_player (trigger_loop sf_read resample self trigger todo).1).
Proof.
  induction todo as [|i todo IH]; intros self Hok Htab; [done|].
  cbn [trigger_loop].
  destruct (sound_buttons self !! i) as [b|]; [|by apply IH].
  destruct (_ && _); [|by apply IH].
  destruct (play_sound_handles self i Hok Htab) as [Hok1 Htab1].
  destruct (play_sound sf_read resample self i) as [s1 e1]. simpl in *.
  destruct (negb (overlap_audio s1)); [done|].
  destruct (IH s1 Hok1 Htab1) as [Hok2 Htab2].
  by destruct (trigger_loop sf_read resample s1 trigger todo) as [s2 e2].
Qed.

Lemma step_handles (self : t R) (o : op R) :
  handles_ok_in self → table_ok (audio_player self) →
  handles_ok_in (step sf_read resample self o).1 ∧
  table_ok (audio_player (step sf_read resample self o).1).
Proof.
  intros Hok Htab.
  destruct o as [i|i|i|i|f n| |c|c|h|h| |k|k|n|i v|v| ]; simpl.
  - unfold on_play_clicked. destruct (sound_buttons self !! i) as [b|] eqn:Hb;
      [|done].
    destruct (sound_id b) eqn:Hid;
      [by apply stop_sound_handles|by apply play_sound_handles].
  - unfold on_pause_clicked. destruct (sound_buttons self !! i) as [b|] eqn:Hb;
      [|done].
    destruct (sound_id b) as [id|] eqn:Hid; [|done].
    pose proof (toggle_voices_kept (audio_player self) id) as Hv.
    pose proof (step_table_ok sf_read resample (audio_player self)
                  (AudioPlayer.TogglePause id) Htab) as Ht.
    simpl in Ht.
    destruct (AudioPlayer.toggle_pause_sound _ _) as [p pa]. simpl in *.
    split; [|done]. apply (handles_frame self); [done|done|]. simpl.
    apply (handles_sub_insert _ _ b); [done|done|by right].
  - by apply set_hotkey_handles.
  - case_bool_decide; [|done]. split; [|done]. apply (handles_frame self);
      [done|apply voices_kept_refl|apply handles_sub_refl].
  - split; [|done]. apply (handles_frame self); [done|apply voices_kept_refl|].
    simpl. intros j b' Hj. apply lookup_app_Some in Hj as [Hj|[_ Hj]].
    + right. by exists b'.
    + left. apply list_lookup_singleton_Some in Hj as [_ <-]. done.
  - unfold stop_all_sounds. simpl.
    assert (handles_ok_in
              (set_buttons
                 (set_player self (AudioPlayer.stop_all (audio_player self)))
                 ((λ b, set_playing b None false) <$> sound_buttons self)))
      as Hs.
    { apply (handles_frame self); [done| |].
      - split; simpl; [lia|]. by intros k v ?%elem_of_nil.
      - simpl. apply handles_sub_fmap. intros b. split; [done|by left]. }
    pose proof (step_table_ok sf_read resample (audio_player self)
                  AudioPlayer.StopAll Htab) as Ht.
    by destruct (mic_muted self).
  - split; [|done]. by apply (handles_frame self);
      [|apply voices_kept_refl|apply handles_sub_refl].
  - split; [|done]. by apply (handles_frame self);
      [|apply voices_kept_refl|apply handles_sub_refl].
  - by apply trigger_loop_handles.
  - unfold finish_hotkey_recording.
    destruct (recording_button self) as [rec|]; [|done].
    assert (∀ w : t R, handles_ok_in w ∧ table_ok (audio_player w) →
              handles_ok_in (set_recording_button w None) ∧
              table_ok (audio_player (set_recording_button w None))) as Hrb.
    { intros w [? ?]. split; [|done]. by apply (handles_frame w);
        [|apply voices_kept_refl|apply handles_sub_refl]. }
    apply Hrb. apply set_hotkey_handles.
    + generalize (seq 0 (length (sound_buttons self))). intros l.
      revert self Hok Htab. induction l as [|j l IH]; intros self Hok Htab;
        [done|].
      simpl. destruct (sound_buttons self !! j); [|by apply IH].
      destruct (_ && _); [|by apply IH].
      destruct (set_hotkey_handles self j "" Hok Htab). by apply IH.
    + generalize (seq 0 (length (sound_buttons self))). intros l.
      revert self Hok Htab. induction l as [|j l IH]; intros self Hok Htab;
        [done|].
      simpl. destruct (sound_buttons self !! j); [|by apply IH].
      destruct (_ && _); [|by apply IH].
      destruct (set_hotkey_handles self j "" Hok Htab). by apply IH.
  - rewrite update_status_eq. simpl. split; [|done].
    apply (handles_frame self); [done|apply voices_kept_refl|]. simpl.
    apply handles_sub_fmap. intros b. simpl.
    destruct (sound_id b) as [id|] eqn:Hs; [|split; [done|by right]].
    case_bool_decide; (split; [done|]); [by left|by right].
  - split; [|done]. by apply (handles_frame self);
      [|apply voices_kept_refl|apply handles_sub_refl].
  - split; [|done]. by apply (handles_frame self);
      [|apply voices_kept_refl|apply handles_sub_refl].
  - split.
    + apply (handles_frame self); [done|apply callback_voices_kept|].
      apply handles_sub_refl.
    + apply (step_table_ok sf_read resample (audio_player self)
               (AudioPlayer.Callback n) Htab).
  - unfold on_volume_changed.
    destruct (sound_buttons self !! i) as [b|] eqn:Hb; [|done].
    assert (handles_sub (sound_buttons self)
              (<[i := mkSound (file_path b) (name b) (hotkey b) v
                              (sound_id b) (is_paused b)]> (sound_buttons self)))
      as Hsub by (apply (handles_sub_insert _ _ b); [done|done|by right]).
    destruct (sound_id b) as [id|] eqn:Hid.
    + split.
      * apply (handles_frame self); [done|apply set_volume_voices_kept|done].
      * apply (step_table_ok sf_read resample (audio_player self)
                 (AudioPlayer.SetVolume id v) Htab).
    + split; [|done].
      by apply (handles_frame self); [|apply voices_kept_refl|].
  - split.
    + apply (handles_frame self); [done| |apply handles_sub_refl].
      split; simpl; [lia|]. intros k v' ?. by exists v'.
    + apply (step_table_ok sf_read resample (audio_player self)
               (AudioPlayer.SetMaster v) Htab).
  - split.
    + apply (handles_frame self); [done| |apply handles_sub_refl].
      split; simpl; [lia|]. intros k v' ?. by exists v'.
    + apply (step_table_ok sf_read resample (audio_player self)
               AudioPlayer.ClearCache Htab).
Qed.

Lemma run_handles (ops : list (op R)) :
  ∀ self : t R,
  handles_ok_in self → table_ok (audio_player self) →
  handles_ok_in (run sf_read resample self ops).1 ∧
  table_ok (audio_player (run sf_read resample self ops).1).
Proof.
  induction ops as [|o ops IH]; intros self Hok Htab; [done|]. cbn [run].
  destruct (step_handles self o Hok Htab) as [Hok1 Htab1].
  destruct (step sf_read resample self o) as [s1 e1]. simpl in *.
  destruct (IH s1 Hok1 Htab1) as [Hok2 Htab2].
  by destruct (run sf_read resample s1 ops) as [s2 e2].
Qed.

(** X29. A window started with buttons that hold no handle keeps its handles
    apart through any clicks, signal deliveries, timer ticks, key events
    and audio callbacks: every handle was issued by the engine, no two
    buttons hold the same one, a handle still in the table names a voice of
    that button's file, and stopping one button leaves the voice of every
    other button's handle exactly as it was. *)
Theorem button_handles_stay_apart (overlap mute : bool) (master : option R)
        (sounds : list (SoundEntry R)) (ops : list (op R)) :
  Forall (λ b, sound_id b = None) sounds →
  let self := (run sf_read resample (init overlap mute master sounds) ops).1 in
  handles_ok self ∧
  ∀ i j b b' id', i ≠ j → sound_buttons self !! i = Some b →
                  sound_buttons self !! j = Some b' → sound_id b' = Some id' →
                  AudioPlayer.dict_get
                    (AudioPlayer.active_sounds (audio_player (stop_sound self i)))
                    id'
                  = AudioPlayer.dict_get
                      (AudioPlayer.active_sounds (audio_player self)) id'.
Proof.
  intros Hnone.
  destruct (run_handles ops (init overlap mute master sounds)) as [Hok Htab].
  { pose proof (init_buttons overlap mute master sounds) as Hb.
    assert (∀ i b id, sounds !! i = Some b → sound_id b = Some id → False)
      as Hno.
    { intros i b id Hi Hid. apply list_elem_of_lookup_2 in Hi.
      rewrite Forall_forall in Hnone. apply Hnone in Hi. congruence. }
    split; [|split]; rewrite Hb.
    - intros i b id Hi Hid. destruct (Hno i b id Hi Hid).
    - intros i j b b' id Hi _ Hid _. destruct (Hno i b id Hi Hid).
    - intros i b id v Hi Hid _. destruct (Hno i b id Hi Hid). }
  { destruct (init_player overlap mute master sounds) as (Ha & _).
    split; rewrite Ha; [apply NoDup_nil_2|done]. }
  simpl. destruct Htab as [Hnd Hkeys].
  split; [by apply handles_ok_in_iff|].
  intros i j b b' id' Hij Hi Hj Hid'. unfold stop_sound. rewrite Hi.
  destruct (sound_id b) as [id|] eqn:Hid; [|done]. simpl.
  unfold AudioPlayer.dict_mem. case_bool_decide; [|done].
  apply dict_get_del_ne. intros ->.
  destruct Hok as (_ & H2 & _). by apply Hij, (H2 i j b b' id').
Qed.

(** *** A handle restored from the saved configuration *)

(** X30. A button that starts with a handle (the configuration file stores
    the [sound_id] a button had when it was saved) can hold the handle of
    another button's voice: when it starts with handle 1 and another button
    is played first, both hold handle 1, a status tick does not clear it,
    and a click on the first button stops the other button's voice. *)
Theorem restored_handle_names_other_voice (overlap mute : bool)
        (master : option R) (sounds : list (SoundEntry R)) (i j : nat)
        (bi bj : SoundEntry R) (buf : ndarray2 R) :
  i ≠ j → sounds !! i = Some bi → sounds !! j = Some bj →
  sound_id bi = Some 1 → sound_id bj = None →
  (AudioPlayer.load_audio sf_read resample
     (audio_player (init overlap mute master sounds)) (file_path bj)).2
    = Some buf →
  let w1 := (step sf_read resample (init overlap mute master sounds)
                  (PlayClicked j)).1 in
  let w2 := (step sf_read resample w1 (PlayClicked i)).1 in
  sound_buttons w1 !! j = Some (set_playing bj (Some 1) true) ∧
  sound_buttons w1 !! i = Some bi ∧
  AudioPlayer.active_sounds (audio_player w1)
    = [(1, AudioPlayer.mkVoice buf 0 (volume bj) (file_path bj) false)] ∧
  sound_buttons (update_status w1).1 !! i = Some bi ∧
  AudioPlayer.active_sounds (audio_player w2) = [].
Proof.
  intros Hij Hi Hj Hidi Hidj Hload.
  pose proof (init_buttons overlap mute master sounds) as Hb.
  destruct (init_player overlap mute master sounds) as (Ha & Hc & _).
  set (w0 := init overlap mute master sounds) in *. clearbody w0.
  destruct w0 as [ov mu mm bs rb pl hm]. simpl in Hb, Ha, Hc, Hload. subst bs.
  assert (∃ mm' p1,
            (step sf_read resample (mk ov mu mm sounds rb pl hm)
                  (PlayClicked j)).1
            = mk ov mu mm' (<[j := set_playing bj (Some 1) true]> sounds) rb p1 hm
            ∧ AudioPlayer.active_sounds p1
              = [(1, AudioPlayer.mkVoice buf 0 (volume bj) (file_path bj) false)])
    as (mm' & p1 & Hw1 & Hp1).
  { simpl. unfold on_play_clicked, play_sound. simpl. rewrite Hj, Hidj.
    destruct (load_audio_table sf_read resample pl (file_path bj))
      as (Hla & Hlc & _).
    unfold AudioPlayer.play_sound.
    destruct (mu && negb mm); simpl;
      destruct (AudioPlayer.load_audio sf_read resample pl (file_path bj))
        as [p1 [buf'|]]; simpl in *; try done;
      injection Hload as ->; rewrite Hla, Hlc, Ha, Hc; simpl;
      eexists; eexists; (split; [reflexivity|]); by destruct ov. }
  cbv zeta. rewrite Hw1.
  assert (j < length sounds)%nat as Hlt by (by eapply lookup_lt_Some).
  split; [|split; [|split; [|split]]]; simpl.
  - by apply list_lookup_insert_eq.
  - by rewrite list_lookup_insert_ne.
  - done.
  - rewrite update_status_eq. simpl. rewrite list_lookup_fmap.
    rewrite list_lookup_insert_ne by done. rewrite Hi. simpl. rewrite Hidi.
    rewrite Hp1. rewrite bool_decide_eq_false_2; [done|].
    intros Hn. apply Hn. by left.
  - unfold on_play_clicked. simpl. rewrite list_lookup_insert_ne by done.
    rewrite Hi, Hidi. unfold stop_sound. simpl.
    rewrite list_lookup_insert_ne by done. rewrite Hi, Hidi. simpl.
    unfold AudioPlayer.stop_sound, AudioPlayer.dict_mem. rewrite Hp1. done.
Qed.
End WindowProofs.

Section WindowWitnesses.
Import Window.

(** [failed_play_mutes_microphones]: the third button's file is missing. *)
Lemma failed_play_mutes_microphones_witness :
  play_sound demo_read demo_resample demo_window 2
  = (set_mic_muted demo_window true, [mute_all_real_mics true]).
Proof.
  refine (proj1 (failed_play_mutes_microphones demo_read demo_resample
                   demo_window 2
                   (mkSound "missing.wav" "missing" "" 1 None false) _ _ _ _));
    vm_compute; reflexivity.
Defined.

(** [finish_hotkey_recording_assigns]: the first button records the second
    button's string. *)
Lemma finish_hotkey_recording_assigns_witness :
  sound_buttons
    (finish_hotkey_recording (start_hotkey_recording demo_window 0) "a+ctrl")
    !! 1%nat
  = Some (mkSound "stereo.wav" "stereo" "" 1 None false).
Proof.
  refine (proj1 (finish_hotkey_recording_assigns
                   (start_hotkey_recording demo_window 0) 0 "a+ctrl" _ _)
                1%nat (mkSound "stereo.wav" "stereo" "a+ctrl" 1 None false) _).
  - reflexivity.
  - simpl. lia.
  - reflexivity.
Defined.

(** [shared_chord_is_unregistered]: the first two buttons share a chord. *)
Lemma shared_chord_is_unregistered_witness :
  fires "a+ctrl"
        (HotkeyManager.run (hotkey_manager (clear_hotkey demo_window 0))
           [HotkeyManager.OnPress (HotkeyManager.Key "ctrl");
            HotkeyManager.OnPress (HotkeyManager.KeyCode_char "a" None)]).2
  = 0%nat.
Proof.
  refine (proj2 (proj2 (shared_chord_is_unregistered demo_window 0 1
                   (mkSound "mono.wav" "mono" "ctrl+a" 1 None false)
                   (mkSound "stereo.wav" "stereo" "a+ctrl" 1 None false)
                   [HotkeyManager.OnPress (HotkeyManager.Key "ctrl");
                    HotkeyManager.OnPress (HotkeyManager.KeyCode_char "a" None)]
                   _ _ _ _ _ _))).
  - lia.
  - reflexivity.
  - reflexivity.
  - discriminate.
  - vm_compute; reflexivity.
  - repeat (apply Forall_cons; split; [exact I|]). apply Forall_nil_2.
Defined.

(** [release_before_press_clears_hotkey]: the first button, and the shift
    key let go. *)
Lemma release_before_press_clears_hotkey_witness :
  (HotkeyManager._on_release
     (hotkey_manager (start_hotkey_recording demo_window 0))
     (HotkeyManager.Key "shift")).2
  = [HotkeyManager.recording_finished ""].
Proof.
  refine (proj1 (release_before_press_clears_hotkey demo_window 0
                   (mkSound "mono.wav" "mono" "ctrl+a" 1 None false)
                   (HotkeyManager.Key "shift") _)).
  reflexivity.
Defined.

(** [button_handles_stay_apart]: two buttons played one after the other. *)
Lemma button_handles_stay_apart_witness :
  handles_ok (run demo_read demo_resample demo_window
                  [PlayClicked 0; PlayClicked 1]).1.
Proof.
  refine (proj1 (button_handles_stay_apart demo_read demo_resample true true (Some 1)
                   demo_sounds [PlayClicked 0; PlayClicked 1] _)).
  repeat (apply Forall_cons; split; [reflexivity|]). apply Forall_nil_2.
Defined.

(** [restored_handle_names_other_voice]: the first button was saved while
    it held handle 1. *)
Lemma restored_handle_names_other_voice_witness :
  let sounds := [mkSound "mono.wav" "mono" "" 1 (Some 1) false;
                 mkSound "stereo.wav" "stereo" "" 1 None false] in
  AudioPlayer.active_sounds
    (audio_player
       (run demo_read demo_resample (init true false (Some 1) sounds)
            [PlayClicked 1; PlayClicked 0]).1)
  = [].
Proof.
  refine (proj2 (proj2 (proj2 (proj2
            (restored_handle_names_other_voice demo_read demo_resample
               true false (Some 1)
               [mkSound "mono.wav" "mono" "" 1 (Some 1) false;
                mkSound "stereo.wav" "stereo" "" 1 None false]
               0 1 (mkSound "mono.wav" "mono" "" 1 (Some 1) false)
               (mkSound "stereo.wav" "stereo" "" 1 None false)
               (Arr2 2 [[1; 2]; [3; 4]]) _ _ _ _ _ _))))).
  - lia.
  - reflexivity.
  - reflexivity.
  - reflexivity.
  - reflexivity.
  - vm_compute; reflexivity.
Defined.
End WindowWitnesses.
